(** * AutoTutor (Node.js): repository traversal, ranking and content loading

    A shallow embedding of the [GitHubClient] class (repository walk,
    importance ranking, content loader), of the Lambda [handler] that
    orchestrates it, and of [CodeAnalyzer._parseJsonResponse]; then of
    the picture of the file structure and the saving of the files in
    [TutorialGenerator], and of the upload in [S3Uploader].

    Conventions of the embedding.
    - A JavaScript string is a [string]: every [ascii] stands for one
      UTF-16 code unit below 256 (Latin-1 text).
    - A JavaScript completion is a [completion]: [Return v] or
      [Throw msg], where [msg] is the [message] of the thrown [Error].
    - The plain objects used as dictionaries ([languages],
      [fileContents]) are [gmap string _].
    - The file system is a finite tree of [node]s; the order of a
      directory's entries is the order in which [fs.readdir] lists
      them.
    - [async] functions are run to completion one after the other, as
      the handler awaits each call before the next. *)

From Stdlib Require Import ZArith Ascii String List Sorting.Sorted Sorting.Permutation.
From stdpp Require Import base option list sorting gmap strings pretty fin_maps.

Local Open Scope string_scope.
Set Warnings "-register-all,-clear-no-such-hyp".

(** ** JavaScript values shared by the modules *)

Inductive completion (A : Type) : Type :=
| Return (v : A)
| Throw (message : string).
Arguments Return {A} v.
Arguments Throw {A} message.

(** ** Strings: the few [String.prototype] methods the code uses *)

Module JsString.

Definition chars (s : string) : list ascii := list_ascii_of_string s.
Definition of_chars (l : list ascii) : string := string_of_list_ascii l.

(** [String.prototype.toLowerCase] on code units below 256: the ASCII
    capitals and the Latin-1 capitals (U+00C0..U+00DE without the
    multiplication sign U+00D7) move up by 32. *)
Definition lower_char (c : ascii) : ascii :=
  let n := N_of_ascii c in
  if ((65 <=? n) && (n <=? 90))%N || ((192 <=? n) && (n <=? 222) && negb (n =? 215))%N
  then ascii_of_N (n + 32)
  else c.

Definition toLowerCase (s : string) : string :=
  of_chars (map lower_char (chars s)).

(** [s.substring(0, n)] for a non-negative [n]. *)
Definition substring0 (n : nat) (s : string) : string :=
  of_chars (take n (chars s)).

(** [s.endsWith(t)] *)
Definition endsWith (s t : string) : bool :=
  bool_decide (drop (length (chars s) - length (chars t)) (chars s) = chars t).

(** [s.slice(0, -n)] for a positive [n]. *)
Definition dropEnd (n : nat) (s : string) : string :=
  of_chars (take (length (chars s) - n) (chars s)).

End JsString.

(** ** Node's [path] module (POSIX flavour) *)

Module Path.
Import JsString.

Definition slash : ascii := "/"%char.
Definition dot : ascii := "."%char.

Definition is_slash (c : ascii) : bool := bool_decide (c = slash).
Definition is_dot (c : ascii) : bool := bool_decide (c = dot).

(** Splitting at every slash; ["a//b"] gives ["a"; ""; "b"]. *)
Fixpoint split_go (cur : list ascii) (s : list ascii) : list (list ascii) :=
  match s with
  | [] => [rev cur]
  | c :: s' => if is_slash c then rev cur :: split_go [] s' else split_go (c :: cur) s'
  end.

Definition split (s : string) : list string :=
  map of_chars (split_go [] (chars s)).

Definition join_with_slash (segs : list string) : string :=
  match segs with
  | [] => ""
  | s :: rest => fold_left (fun acc x => acc ++ "/" ++ x) rest s
  end.

(** [normalizeString(path, allowAboveRoot)]: the segments that remain
    once [""] and ["."] are dropped and [".."] has cancelled the
    segment before it; kept in reverse order while scanning. *)
Fixpoint normalize_go (allowAboveRoot : bool) (res : list string) (segs : list string)
  : list string :=
  match segs with
  | [] => rev res
  | seg :: rest =>
      if bool_decide (seg = "") || bool_decide (seg = ".") then
        normalize_go allowAboveRoot res rest
      else if bool_decide (seg = "..") then
        match res with
        | last :: res' =>
            if bool_decide (last = "..")
            then normalize_go allowAboveRoot (".." :: res) rest
            else normalize_go allowAboveRoot res' rest
        | [] =>
            if allowAboveRoot
            then normalize_go allowAboveRoot [".."] rest
            else normalize_go allowAboveRoot [] rest
        end
      else normalize_go allowAboveRoot (seg :: res) rest
  end.

Definition isAbsolute (p : string) : bool :=
  match chars p with
  | c :: _ => is_slash c
  | [] => false
  end.

Definition has_trailing_slash (p : string) : bool :=
  match rev (chars p) with
  | c :: _ => is_slash c
  | [] => false
  end.

(** [path.normalize] *)
Definition normalize (p : string) : string :=
  if bool_decide (p = "") then "."
  else
    let body := join_with_slash (normalize_go (negb (isAbsolute p)) [] (split p)) in
    if bool_decide (body = "") then
      if isAbsolute p then "/"
      else if has_trailing_slash p then "./" else "."
    else
      let body := if has_trailing_slash p then body ++ "/" else body in
      if isAbsolute p then "/" ++ body else body.

(** [path.join(a, b)]: the non-empty arguments joined by a slash, then
    normalised; ["."] when both are empty. *)
Definition join (a b : string) : string :=
  match bool_decide (a = ""), bool_decide (b = "") with
  | true, true => "."
  | true, false => normalize b
  | false, true => normalize a
  | false, false => normalize (a ++ "/" ++ b)
  end.

Fixpoint skip_slashes (l : list ascii) : list ascii :=
  match l with
  | c :: l' => if is_slash c then skip_slashes l' else l
  | [] => []
  end.

Fixpoint upto_slash (l : list ascii) : list ascii :=
  match l with
  | c :: l' => if is_slash c then [] else c :: upto_slash l'
  | [] => []
  end.

(** The last component of a path, found from the right as [basename]
    and [extname] find it: trailing slashes are skipped, then
    everything down to the next slash is taken. Kept reversed. *)
Definition last_component_rev (p : string) : list ascii :=
  upto_slash (skip_slashes (rev (chars p))).

(** [path.basename(p)] *)
Definition basename (p : string) : string :=
  of_chars (rev (last_component_rev p)).

(** The characters after the last dot (reversed input, so the first dot
    met), and what precedes that dot; [None] without a dot. *)
Fixpoint cut_at_dot (ext : list ascii) (l : list ascii)
  : option (list ascii * list ascii) :=
  match l with
  | [] => None
  | c :: l' => if is_dot c then Some (ext, l') else cut_at_dot (c :: ext) l'
  end.

(** [path.extname(p)]: from the last dot of the last component to its
    end; empty when there is no dot, when the dot is the component's
    first character, and when the component is exactly [".."]. *)
Definition extname (p : string) : string :=
  let comp := last_component_rev p in
  match cut_at_dot [] comp with
  | None => ""
  | Some (ext, before) =>
      match before with
      | [] => ""
      | _ => if bool_decide (comp = [dot; dot]) then "" else of_chars (dot :: ext)
      end
  end.

End Path.

(** ** [Array.prototype.sort] with a comparator

    The sort is stable (ECMAScript 2019; the package asks for Node 18
    or later). Insertion from the right: an element goes in front of
    the first element of the sorted tail that the comparator does not
    put before it, so equal elements keep the order of the input. Any
    other stable algorithm returns the same array
    ([sortedFiles_unique]). *)

Module JsArray.
Section Sort.
Context {A : Type} (comparefn : A -> A -> Z).

Fixpoint insert_sorted (x : A) (l : list A) : list A :=
  match l with
  | [] => [x]
  | y :: l' =>
      if (comparefn x y <=? 0)%Z then x :: y :: l' else y :: insert_sorted x l'
  end.

Fixpoint sort (l : list A) : list A :=
  match l with
  | [] => []
  | x :: l' => insert_sorted x (sort l')
  end.

End Sort.
End JsArray.

(** ** [GitHubClient]: the helpers without effects *)

(** The entry pushed on [files] for every regular file met. *)
Record FileInfo : Type := mkFileInfo {
  fi_name : string;
  fi_path : string;
  fi_directory : string;
  fi_size : N;
  fi_extension : string
}.

Definition includes (l : list string) (s : string) : bool :=
  bool_decide (s ∈ l).

(** A property read on an object literal, [obj[key]], [None] for
    [undefined]. The keys looked up are extensions: empty or starting
    with a dot, so never a property of [Object.prototype]. *)
Fixpoint lookup_literal {V : Type} (obj : list (string * V)) (key : string) : option V :=
  match obj with
  | [] => None
  | (k, v) :: obj' => if bool_decide (k = key) then Some v else lookup_literal obj' key
  end.

Definition extScores : list (string * Z) :=
  [ (".js", 70); (".py", 70); (".ts", 70);
    (".json", 60); (".yaml", 60); (".yml", 60);
    (".md", 50); (".txt", 40); (".html", 30); (".css", 20) ]%Z.

Definition _getFileImportance (filePath : string) : Z :=
  let fileName := JsString.toLowerCase (Path.basename filePath) in
  let ext := JsString.toLowerCase (Path.extname filePath) in
  if includes ["readme.md"; "readme.txt"; "readme"] fileName then 100
  else if includes ["package.json"; "requirements.txt"; "setup.py"] fileName then 90
  else if includes ["index.js"; "main.py"; "app.py"; "server.js"] fileName then 80
  else
    (* [extScores[ext] || 10]: no score in the table is falsy *)
    match lookup_literal extScores ext with
    | Some score => score
    | None => 10
    end%Z.

Definition langMap : list (string * string) :=
  [ (".js", "JavaScript"); (".ts", "TypeScript"); (".py", "Python");
    (".java", "Java"); (".cpp", "C++"); (".c", "C"); (".cs", "C#");
    (".php", "PHP"); (".rb", "Ruby"); (".go", "Go"); (".rs", "Rust");
    (".swift", "Swift"); (".kt", "Kotlin"); (".scala", "Scala");
    (".html", "HTML"); (".css", "CSS"); (".json", "JSON"); (".xml", "XML");
    (".yaml", "YAML"); (".yml", "YAML") ].

(** [langMap[ext] || null]: no label in the table is falsy. *)
Definition _getLanguageFromExtension (ext : string) : option string :=
  lookup_literal langMap ext.

Definition binaryExts : list string :=
  [ ".jpg"; ".jpeg"; ".png"; ".gif"; ".bmp"; ".ico"; ".pdf"; ".zip"; ".tar";
    ".gz"; ".rar"; ".exe"; ".dll"; ".so"; ".dylib"; ".mp3"; ".mp4"; ".avi";
    ".mov" ].

Definition _isBinaryFile (filePath : string) : bool :=
  includes binaryExts (JsString.toLowerCase (Path.extname filePath)).

(** The comparator of [getMainFiles] and the steps that follow the walk
    there: [sortedFiles], and its first twenty. *)
Definition byImportance (a b : string) : Z :=
  (_getFileImportance b - _getFileImportance a)%Z.

Definition sortedFiles (paths : list string) : list string :=
  JsArray.sort byImportance paths.

Definition rankPaths (paths : list string) : list string :=
  take 20 (sortedFiles paths).

Definition mainFilesOf (files : list FileInfo) : list string :=
  rankPaths (map fi_path files).

(** ** The file system

    What [fs.readdir], [fs.stat], [fs.pathExists] and [fs.readFile] see.
    A directory lists its entries in a fixed order; the tree is finite
    ([fs.stat] follows links, and a cycle of links ends in a failing
    [stat] once the path is too long). *)

Record Stats : Type := mkStats {
  isDirectory : bool;
  isFile : bool;
  size : N
}.

Inductive node : Type :=
| Dir (items : list (string * node))      (* a directory and its listing *)
| LockedDir (message : string)            (* a directory that cannot be listed *)
| File (bytes : N) (text : completion string)
                                          (* size, and what reading it as UTF-8 gives *)
| Other                                   (* socket, FIFO, device *)
| NoStat (message : string).              (* [stat] fails: dangling link, no permission *)

Definition node_stat (n : node) : completion Stats :=
  match n with
  | Dir _ | LockedDir _ => Return (mkStats true false 4096)
  | File bytes _ => Return (mkStats false true bytes)
  | Other => Return (mkStats false false 0)
  | NoStat message => Throw message
  end.

Definition node_readFile (n : node) : completion string :=
  match n with
  | File _ text => text
  | Dir _ | LockedDir _ => Throw "EISDIR: illegal operation on a directory, read"
  | Other => Throw "EINVAL: invalid argument, read"
  | NoStat message => Throw message
  end.

Fixpoint lookup_entry (name : string) (items : list (string * node)) : option node :=
  match items with
  | [] => None
  | (n, child) :: rest => if bool_decide (n = name) then Some child else lookup_entry name rest
  end.

Fixpoint descend (n : node) (segs : list string) : option node :=
  match segs with
  | [] => Some n
  | seg :: rest =>
      match n with
      | Dir items =>
          match lookup_entry seg items with
          | Some child => descend child rest
          | None => None
          end
      | _ => None
      end
  end.

(** The node an absolute, normalised path denotes under the root. *)
Definition fs_lookup (root : node) (p : string) : option node :=
  descend root (filter (fun seg => seg <> "") (Path.split p)).

Definition node_at (root : node) (p : string) : node :=
  default (NoStat "ENOENT: no such file or directory") (fs_lookup root p).

(** The operations of [fs-extra] that take a path. *)
Record FsOps : Type := mkFsOps {
  pathExists : string -> bool;
  stat : string -> completion Stats;
  readFile : string -> completion string
}.

Definition tree_ops (root : node) : FsOps := {|
  pathExists p := match fs_lookup root p with
                  | Some (NoStat _) | None => false
                  | Some _ => true
                  end;
  stat p := node_stat (node_at root p);
  readFile p := node_readFile (node_at root p)
|}.

(** ** The [ignore] package, as far as the client uses it *)

Class Ignore : Type := {
  matcher : Type;
  ignore_new : matcher;                                   (* [ignore()] *)
  ignore_add : list string -> matcher -> matcher;         (* [ig.add([...])] *)
  ignore_addText : string -> matcher -> matcher;          (* [ig.add(text)] *)
  ignores : matcher -> string -> completion bool          (* [ig.ignores(path)] *)
}.

Definition defaultPatterns : list string :=
  [ ".git"; "node_modules"; "__pycache__"; "*.pyc"; ".DS_Store"; "*.log";
    "dist"; "build" ].

(** ** The walk *)

Record WalkState : Type := mkWalkState {
  files : list FileInfo;
  languages : gmap string nat;
  (* ghost: the [relativePath] of every call of [_walkDirectory] so far *)
  entered : list string
}.

Definition enter (relativePath : string) (st : WalkState) : WalkState :=
  {| files := files st; languages := languages st;
     entered := entered st ++ [relativePath] |}.

(** [languages[language] = (languages[language] || 0) + 1] *)
Definition count_language (language : string) (m : gmap string nat) : gmap string nat :=
  <[language := default 0 (m !! language) + 1]> m.

(** The body of the [else if (stats.isFile())] branch. *)
Definition record_file (item relativeItemPath relativePath : string) (stats : Stats)
    (st : WalkState) : WalkState :=
  let ext := JsString.toLowerCase (Path.extname item) in
  let languages' :=
    match _getLanguageFromExtension ext with
    | Some language => count_language language (languages st)
    | None => languages st
    end in
  {| files := files st ++ [mkFileInfo item relativeItemPath relativePath (size stats) ext];
     languages := languages';
     entered := entered st |}.

Section Walk.
Context (ig : string -> completion bool).

(** [_walkDirectory(dirPath, relativePath, files, languages, ig)]; [dir]
    is what lies at [dirPath], and each entry of its listing comes with
    what lies at [path.join(dirPath, item)]. The loop gives back the
    arrays as they stand together with its completion: an exception
    leaves the loop at once, keeps what was pushed before, and is
    swallowed by the [catch] around the whole body. *)
Fixpoint _walkDirectory (dir : node) (relativePath : string) (st : WalkState)
  : WalkState :=
  let st := enter relativePath st in
  match dir with
  | Dir items =>
      fst ((fix each (items : list (string * node)) (st : WalkState)
              : WalkState * completion unit :=
              match items with
              | [] => (st, Return tt)
              | (item, child) :: rest =>
                  let relativeItemPath := Path.join relativePath item in
                  match ig relativeItemPath with
                  | Throw e => (st, Throw e)
                  | Return true => each rest st
                  | Return false =>
                      match node_stat child with
                      | Throw e => (st, Throw e)
                      | Return stats =>
                          if isDirectory stats then
                            each rest (_walkDirectory child relativeItemPath st)
                          else if isFile stats then
                            each rest
                              (record_file item relativeItemPath relativePath stats st)
                          else each rest st
                      end
                  end
              end) items st)
  | _ => st   (* [fs.readdir] throws: nothing is done *)
  end.

(** The loop of [_walkDirectory] over the entries still to process. *)
Fixpoint walk_items (relativePath : string) (items : list (string * node))
    (st : WalkState) : WalkState * completion unit :=
  match items with
  | [] => (st, Return tt)
  | (item, child) :: rest =>
      let relativeItemPath := Path.join relativePath item in
      match ig relativeItemPath with
      | Throw e => (st, Throw e)
      | Return true => walk_items relativePath rest st
      | Return false =>
          match node_stat child with
          | Throw e => (st, Throw e)
          | Return stats =>
              if isDirectory stats then
                walk_items relativePath rest (_walkDirectory child relativeItemPath st)
              else if isFile stats then
                walk_items relativePath rest
                  (record_file item relativeItemPath relativePath stats st)
              else walk_items relativePath rest st
          end
      end
  end.

End Walk.

(** ** [GitHubClient]: the methods that read the clone *)

Record GitHubClient : Type := mkClient {
  repoPath : option string          (* [null] until [cloneRepository] sets it *)
}.

Record TraversalResult : Type := mkTraversalResult {
  total_files : nat;
  tr_languages : gmap string nat;
  tr_files : list FileInfo
}.

(** The empty array [files] and the object [languages] a walk starts
    from. *)
Definition fresh (languages : gmap string nat) : WalkState :=
  {| files := []; languages := languages; entered := [] |}.

Section Client.
Context `{Ignore}.

(** [_loadGitignore()]: the default patterns, then the repository's own
    [.gitignore] when it exists and can be read. *)
Definition _loadGitignore (ops : FsOps) (this : GitHubClient) : matcher :=
  let ig := ignore_add defaultPatterns ignore_new in
  match repoPath this with
  | None => ig                    (* [path.join(null, ..)] throws inside the [try] *)
  | Some root =>
      let gitignorePath := Path.join root ".gitignore" in
      if pathExists ops gitignorePath then
        match readFile ops gitignorePath with
        | Return gitignoreContent => ignore_addText gitignoreContent ig
        | Throw _ => ig
        end
      else ig
  end.

(** The walk both entry points start, from fresh arrays. *)
Definition walk_repository (disk : node) (this : GitHubClient) (root : string)
    (languages : gmap string nat) : WalkState :=
  let ig := _loadGitignore (tree_ops disk) this in
  _walkDirectory (ignores ig) (node_at disk root) "" (fresh languages).

(** [getFileStructure()]. Nothing inside its [try] can throw, the walk
    swallowing its own exceptions. *)
Definition getFileStructure (disk : node) (this : GitHubClient)
  : completion TraversalResult :=
  match repoPath this with
  | None => Throw "Repository not cloned yet"
  | Some root =>
      let st := walk_repository disk this root ∅ in
      Return {| total_files := length (files st);
                tr_languages := languages st;
                tr_files := take 100 (files st) |}
  end.

(** [getMainFiles()] *)
Definition getMainFiles (disk : node) (this : GitHubClient)
  : completion (list string) :=
  match repoPath this with
  | None => Throw "Repository not cloned yet"
  | Some root =>
      let st := walk_repository disk this root ∅ in
      Return (mainFilesOf (files st))
  end.

End Client.

(** The default of the parameter [maxSize]. *)
Definition maxSize_default : N := 50000.

(** [readFileContent(filePath, maxSize)]; [None] is [null]. *)
Definition readFileContent (ops : FsOps) (this : GitHubClient)
    (filePath : string) (maxSize : N) : completion (option string) :=
  match repoPath this with
  | None => Throw "Repository not cloned yet"
  | Some root =>
      (* the [try] block; the [catch] logs and returns [null] *)
      let attempt : completion (option string) :=
        let fullPath := Path.join root filePath in
        if negb (pathExists ops fullPath) then Return None
        else
          match stat ops fullPath with
          | Throw e => Throw e
          | Return stats =>
              if (maxSize <? size stats)%N then Return None
              else if _isBinaryFile filePath then Return None
              else
                match readFile ops fullPath with
                | Throw e => Throw e
                | Return content => Return (Some content)
                end
          end in
      match attempt with
      | Return r => Return r
      | Throw _ => Return None
      end
  end.

(** [extractRepoInfo(githubUrl)]: the leftmost match of
    [/github\.com\/([^\/]+)\/([^\/]+)/]. *)
Module RepoUrl.
Import JsString.

Fixpoint span_not_slash (l : list ascii) : list ascii * list ascii :=
  match l with
  | c :: l' =>
      if Path.is_slash c then ([], l)
      else let '(run, rest) := span_not_slash l' in (c :: run, rest)
  | [] => ([], [])
  end.

Fixpoint strip_prefix (pre l : list ascii) : option (list ascii) :=
  match pre, l with
  | [], _ => Some l
  | p :: pre', c :: l' => if bool_decide (p = c) then strip_prefix pre' l' else None
  | _ :: _, [] => None
  end.

(** A match starting exactly here: both groups are greedy runs of
    characters other than the slash, and neither may be empty. *)
Definition match_here (l : list ascii) : option (string * string) :=
  match strip_prefix (chars "github.com/") l with
  | None => None
  | Some l1 =>
      match span_not_slash l1 with
      | ([], _) => None
      | (owner, sl :: l2) =>
          match span_not_slash l2 with
          | ([], _) => None
          | (name, _) => Some (of_chars owner, of_chars name)
          end
      | (_, []) => None
      end
  end.

Fixpoint search (l : list ascii) : option (string * string) :=
  match match_here l with
  | Some m => Some m
  | None =>
      match l with
      | [] => None
      | _ :: l' => search l'
      end
  end.

End RepoUrl.

Definition extractRepoInfo (githubUrl : string) : completion (string * string) :=
  match RepoUrl.search (JsString.chars githubUrl) with
  | None => Throw "Failed to extract repo info: Invalid GitHub URL format"
  | Some (owner, repoName) =>
      let repoName :=
        if JsString.endsWith repoName ".git" then JsString.dropEnd 4 repoName
        else repoName in
      Return (owner, repoName)
  end.
(** ** The same methods, with their arrays on a heap

    [files] and [languages] are objects: [getFileStructure] creates
    them, [_walkDirectory] is given references to them and writes
    through these references at every depth of the recursion, and the
    matcher is an object that [ig.add] changes in place. Here the
    objects live on a heap, a reference being an index in it, so that
    what a call leaves behind is there when the next call runs. *)

Module Store.
Section Store.
Context `{Ignore}.
Local Open Scope list_scope.

Inductive object : Type :=
| ArrayOfFiles (elements : list FileInfo)        (* [files] *)
| Counters (properties : gmap string nat)        (* [languages] *)
| IgnoreObject (ig : matcher).                   (* what [ignore()] returns *)

(** [[]], [{}], [ignore()]: a new object, and the reference to it. *)
Definition alloc (o : object) (h : list object) : nat * list object := (length h, h ++ [o]).

(** [files.push(fileInfo)] *)
Definition push (files : nat) (fileInfo : FileInfo) (h : list object) : completion (list object) :=
  match h !! files with
  | Some (ArrayOfFiles elements) =>
      Return (<[files := ArrayOfFiles (elements ++ [fileInfo])]> h)
  | _ => Throw "files.push is not a function"
  end.

(** [languages[language] = (languages[language] || 0) + 1] *)
Definition count (languages : nat) (language : string) (h : list object) : completion (list object) :=
  match h !! languages with
  | Some (Counters properties) =>
      Return (<[languages := Counters (count_language language properties)]> h)
  | _ => Throw "Cannot read properties of undefined"
  end.

(** [ig.ignores(path)] *)
Definition ask (ig : nat) (path : string) (h : list object) : completion bool :=
  match h !! ig with
  | Some (IgnoreObject m) => ignores m path
  | _ => Throw "ig.ignores is not a function"
  end.

(** [ig.add(..)] *)
Definition add (ig : nat) (change : matcher -> matcher) (h : list object) : completion (list object) :=
  match h !! ig with
  | Some (IgnoreObject m) => Return (<[ig := IgnoreObject (change m)]> h)
  | _ => Throw "ig.add is not a function"
  end.

(** The body of the [else if (stats.isFile())] branch. *)
Definition record_file (item relativeItemPath relativePath : string) (stats : Stats)
    (files languages : nat) (h : list object) : completion (list object) :=
  let ext := JsString.toLowerCase (Path.extname item) in
  let counted :=
    match _getLanguageFromExtension ext with
    | Some language => count languages language h
    | None => Return h
    end in
  match counted with
  | Throw e => Throw e
  | Return h' =>
      push files (mkFileInfo item relativeItemPath relativePath (size stats) ext) h'
  end.

(** [_walkDirectory(dirPath, relativePath, files, languages, ig)], the
    last three being references. The loop gives back the heap as it
    stands together with its completion; the [catch] around the body
    swallows the exception. *)
Fixpoint _walkDirectory (dir : node) (relativePath : string)
    (files languages ig : nat) (h : list object) : list object :=
  match dir with
  | Dir items =>
      fst ((fix each (items : list (string * node)) (h : list object)
              : list object * completion unit :=
              match items with
              | [] => (h, Return tt)
              | (item, child) :: rest =>
                  let relativeItemPath := Path.join relativePath item in
                  match ask ig relativeItemPath h with
                  | Throw e => (h, Throw e)
                  | Return true => each rest h
                  | Return false =>
                      match node_stat child with
                      | Throw e => (h, Throw e)
                      | Return stats =>
                          if isDirectory stats then
                            each rest
                              (_walkDirectory child relativeItemPath files languages ig h)
                          else if isFile stats then
                            match record_file item relativeItemPath relativePath stats
                                    files languages h with
                            | Throw e => (h, Throw e)
                            | Return h' => each rest h'
                            end
                          else each rest h
                      end
                  end
              end) items h)
  | _ => h   (* [fs.readdir] throws: nothing is done *)
  end.

(** The loop of [_walkDirectory] over the entries still to process. *)
Fixpoint walk_items (relativePath : string) (files languages ig : nat)
    (items : list (string * node)) (h : list object) : list object * completion unit :=
  match items with
  | [] => (h, Return tt)
  | (item, child) :: rest =>
      let relativeItemPath := Path.join relativePath item in
      match ask ig relativeItemPath h with
      | Throw e => (h, Throw e)
      | Return true => walk_items relativePath files languages ig rest h
      | Return false =>
          match node_stat child with
          | Throw e => (h, Throw e)
          | Return stats =>
              if isDirectory stats then
                walk_items relativePath files languages ig rest
                  (_walkDirectory child relativeItemPath files languages ig h)
              else if isFile stats then
                match record_file item relativeItemPath relativePath stats
                        files languages h with
                | Throw e => (h, Throw e)
                | Return h' => walk_items relativePath files languages ig rest h'
                end
              else walk_items relativePath files languages ig rest h
          end
      end
  end.

(** [_loadGitignore()]: a new matcher, the default patterns added to
    it, then the repository's own [.gitignore] when it exists and can be
    read. An exception of the first [ig.add] is not caught. *)
Definition _loadGitignore (ops : FsOps) (this : GitHubClient) (h : list object)
  : completion nat * list object :=
  let '(ig, h) := alloc (IgnoreObject ignore_new) h in
  match add ig (ignore_add defaultPatterns) h with
  | Throw e => (Throw e, h)
  | Return h =>
      match repoPath this with
      | None => (Return ig, h)        (* [path.join(null, ..)] throws inside the [try] *)
      | Some root =>
          let gitignorePath := Path.join root ".gitignore" in
          if pathExists ops gitignorePath then
            match readFile ops gitignorePath with
            | Return gitignoreContent =>
                match add ig (ignore_addText gitignoreContent) h with
                | Return h' => (Return ig, h')
                | Throw _ => (Return ig, h)
                end
            | Throw _ => (Return ig, h)
            end
          else (Return ig, h)
      end
  end.

(** [getFileStructure()]: the two arrays and the matcher are created by
    every call. *)
Definition getFileStructure (disk : node) (this : GitHubClient) (h : list object)
  : completion TraversalResult * list object :=
  match repoPath this with
  | None => (Throw "Repository not cloned yet", h)
  | Some root =>
      let '(files, h) := alloc (ArrayOfFiles []) h in
      let '(languages, h) := alloc (Counters ∅) h in
      match _loadGitignore (tree_ops disk) this h with
      | (Throw e, h) => (Throw ("Failed to get file structure: " ++ e)%string, h)
      | (Return ig, h) =>
          let h := _walkDirectory (node_at disk root) "" files languages ig h in
          match h !! files, h !! languages with
          | Some (ArrayOfFiles elements), Some (Counters properties) =>
              (Return {| total_files := length elements;
                         tr_languages := properties;
                         tr_files := take 100 elements |}, h)
          | _, _ =>
              (Throw "Failed to get file structure: Cannot read properties of undefined",
               h)
          end
      end
  end.

End Store.
End Store.


(** ** The Lambda handler

    The handler runs in a world made of the client it creates, the
    disk, and the log of the calls it makes to its collaborators. *)

Inductive Event : Type :=
| EvTmpDir                            (* [tmp.dirSync] *)
| EvClone (url dir : string)          (* [git.clone(url, dir, ["--depth", "1"])] *)
| EvRemove (path : string)            (* [fs.remove(path)]: the cleanup operation *)
| EvAnalyze                           (* [analyzeFullRepository] *)
| EvMarkdown                          (* [_generateMarkdownTutorialFromLLM] *)
| EvSave                              (* [saveTutorialFiles] *)
| EvUpload.                           (* [uploadTutorialFiles] *)

Record World : Type := mkWorld {
  client : GitHubClient;
  disk : node;
  trace : list Event
}.

(** A computation may read and change the world, and returns or
    throws. *)
Definition M (A : Type) : Type := World -> completion A * World.

Definition ret {A} (v : A) : M A := fun w => (Return v, w).
Definition throw {A} (message : string) : M A := fun w => (Throw message, w).
Definition bind {A B} (m : M A) (k : A -> M B) : M B :=
  fun w => match m w with
           | (Return v, w') => k v w'
           | (Throw e, w') => (Throw e, w')
           end.
Definition try_catch {A} (m : M A) (handle : string -> M A) : M A :=
  fun w => match m w with
           | (Return v, w') => (Return v, w')
           | (Throw e, w') => handle e w'
           end.

Notation "x <- m ;; k" := (bind m (fun x => k))
  (at level 89, m at level 88, right associativity).
Notation "m ;;; k" := (bind m (fun _ => k))
  (at level 89, right associativity).

Definition lift {A} (c : completion A) : M A := fun w => (c, w).
Definition get_client : M GitHubClient := fun w => (Return (client w), w).
Definition get_disk : M node := fun w => (Return (disk w), w).
Definition set_client (c : GitHubClient) : M unit :=
  fun w => (Return tt, {| client := c; disk := disk w; trace := trace w |}).
Definition emit (e : Event) : M unit :=
  fun w => (Return tt, {| client := client w; disk := disk w; trace := trace w ++ [e] |}).
(** A collaborator that works on the disk. *)
Definition on_disk {A} (f : node -> completion A * node) : M A :=
  fun w => let '(r, d) := f (disk w) in
           (r, {| client := client w; disk := d; trace := trace w |}).

(** The properties the handler destructures from [data]. *)
Record RequestData : Type := mkRequestData {
  github_url : option string;
  upload_to_s3 : option bool;          (* its truthiness, [None] when absent *)
  s3_bucket : option string
}.

(** The event: its [body], if any, and its own properties. *)
Record LambdaEvent : Type := mkLambdaEvent {
  body : option string;
  fields : RequestData
}.

Record Response : Type := mkResponse {
  statusCode : Z;
  success : bool;
  error : option string
}.

Definition createErrorResponse (statusCode : Z) (message : string) : Response :=
  {| statusCode := statusCode; success := false; error := Some message |}.

Definition truthy (s : option string) : bool :=
  match s with
  | Some s => negb (bool_decide (s = ""))
  | None => false
  end.

(** [fileContents[filePath] = content]. On a plain object the key
    [__proto__] reaches the setter of [Object.prototype], which ignores
    a string: no property is created. *)
Definition set_property (key value : string) (obj : gmap string string)
  : gmap string string :=
  if bool_decide (key = "__proto__") then obj else <[key := value]> obj.

Section Handler.
Context `{Ignore}.
Context {Analysis Tutorial Urls : Type}.

(** The collaborators outside the repository's code. [JSON_parse_body]
    is [JSON.parse] followed by the destructuring of its result;
    [generateMarkdown] is [generateTutorial] followed by
    [_generateMarkdownTutorialFromLLM]. *)
Record Collaborators : Type := mkCollaborators {
  JSON_parse_body : string -> completion RequestData;
  env_S3_BUCKET_NAME : option string;
  tmp_dirSync : node -> completion string * node;
  git_clone : string -> string -> node -> completion unit * node;
  fs_remove : string -> node -> completion unit * node;
  analyzeFullRepository :
    string * string -> TraversalResult -> list string -> gmap string string ->
    completion Analysis;
  generateMarkdown : Analysis -> TraversalResult -> completion Tutorial;
  saveTutorialFiles : Tutorial -> string -> node -> completion unit * node;
  uploadTutorialFiles : string -> completion Urls
}.

Context (co : Collaborators).

(** The two entry points of the walk, called on the client and the disk
    of the world. *)
Definition callGetFileStructure : M TraversalResult :=
  this <- get_client ;;
  d <- get_disk ;;
  lift (getFileStructure d this).

Definition callGetMainFiles : M (list string) :=
  this <- get_client ;;
  d <- get_disk ;;
  lift (getMainFiles d this).

(** [GitHubClient.cloneRepository] *)
Definition cloneRepository (githubUrl : string) : M string :=
  try_catch
    (emit EvTmpDir ;;;
     tmpDir <- on_disk (tmp_dirSync co) ;;
     set_client (mkClient (Some tmpDir)) ;;;
     emit (EvClone githubUrl tmpDir) ;;;
     on_disk (git_clone co githubUrl tmpDir) ;;;
     ret tmpDir)
    (fun e => throw ("Failed to clone repository: " ++ e)).

(** [GitHubClient.cleanup] *)
Definition cleanup : M unit :=
  this <- get_client ;;
  match repoPath this with
  | Some p =>
      try_catch (emit (EvRemove p) ;;; on_disk (fs_remove co p))
                (fun _ => ret tt)
  | None => ret tt
  end.

(** The loop that fills [fileContents]. *)
Fixpoint read_contents (paths : list string) (fileContents : gmap string string)
  : M (gmap string string) :=
  match paths with
  | [] => ret fileContents
  | filePath :: rest =>
      this <- get_client ;;
      d <- get_disk ;;
      content <- lift (readFileContent (tree_ops d) this filePath 50000) ;;
      match content with
      | Some text =>
          (* [if (content)]: the empty string is falsy *)
          if bool_decide (text = "") then read_contents rest fileContents
          else read_contents rest (set_property filePath text fileContents)
      | None => read_contents rest fileContents
      end
  end.

(** [new S3Uploader(s3_bucket, aws_region)] *)
Definition new_S3Uploader (s3_bucket : option string) : M unit :=
  if truthy s3_bucket || truthy (env_S3_BUCKET_NAME co) then ret tt
  else throw "S3 bucket name must be provided via parameter or S3_BUCKET_NAME environment variable".

Definition handler_body (event : LambdaEvent) : M Response :=
  data <- (if truthy (body event)
           then lift (JSON_parse_body co (default "" (body event)))
           else ret (fields event)) ;;
  let upload := default true (upload_to_s3 data) in
  let bucket := match s3_bucket data with
                | Some b => Some b
                | None => env_S3_BUCKET_NAME co
                end in
  if negb (truthy (github_url data)) then
    ret (createErrorResponse 400 "Missing required parameter: github_url")
  else
    let url := default "" (github_url data) in
    set_client (mkClient None) ;;;                (* [new GitHubClient()] *)
    (if upload then new_S3Uploader bucket else ret tt) ;;;
    cloneRepository url ;;;
    info <- lift (extractRepoInfo url) ;;
    fileStructure <- callGetFileStructure ;;
    mainFiles <- callGetMainFiles ;;
    fileContents <- read_contents (take 50 mainFiles) ∅ ;;
    emit EvAnalyze ;;;
    analysisResults <-
      lift (analyzeFullRepository co info fileStructure mainFiles fileContents) ;;
    emit EvMarkdown ;;;
    tutorialContent <- lift (generateMarkdown co analysisResults fileStructure) ;;
    (if upload then
       emit EvSave ;;;
       on_disk (saveTutorialFiles co tutorialContent (snd info)) ;;;
       emit EvUpload ;;;
       lift (uploadTutorialFiles co (snd info)) ;;;
       ret tt
     else ret tt) ;;;
    ret {| statusCode := 200; success := true; error := None |}.

(** [exports.handler]: the body inside [try], and the [catch] that turns
    any exception into a 500 response. *)
Definition handler (event : LambdaEvent) : M Response :=
  try_catch (handler_body event) (fun e => ret (createErrorResponse 500 e)).

End Handler.

(** ** [CodeAnalyzer._parseJsonResponse] *)

(** What [JSON.parse] builds. A number keeps its literal; a string and a
    key are sequences of code units; an object keeps its members in
    source order. *)
Inductive json : Type :=
| JNull
| JBool (b : bool)
| JNumber (literal : string)
| JString (units : list N)
| JArray (elements : list json)
| JObject (members : list (list N * json)).

Definition dquote : ascii := ascii_of_N 34.

Definition units_of (s : string) : list N := map N_of_ascii (JsString.chars s).

Module ResponseText.
Import JsString.

Definition lbrace : ascii := "{"%char.
Definition rbrace : ascii := "}"%char.

(** The text from its first opening brace on. *)
Fixpoint from_lbrace (l : list ascii) : option (list ascii) :=
  match l with
  | [] => None
  | c :: l' => if bool_decide (c = lbrace) then Some l else from_lbrace l'
  end.

(** Reversed text, cut so that it starts at its first closing brace: the
    text up to its last closing brace, reversed. *)
Fixpoint from_rbrace (l : list ascii) : list ascii :=
  match l with
  | [] => []
  | c :: l' => if bool_decide (c = rbrace) then l else from_rbrace l'
  end.

(** [response.match(/\{[\s\S]*\}/)], element 0 of the result: the
    leftmost match, the star taking as much as it can. *)
Definition regex_match (response : string) : option string :=
  match from_lbrace (chars response) with
  | None => None
  | Some tail =>
      match from_rbrace (rev tail) with
      | [] => None
      | m => Some (of_chars (rev m))
      end
  end.

(** [{ error: .., raw_response: response.substring(0, 500) }] *)
Definition fallback (error : string) (response : string) : json :=
  JObject [ (units_of "error", JString (units_of error));
            (units_of "raw_response", JString (units_of (substring0 500 response))) ].

End ResponseText.

Section ParseJsonResponse.
(** [JSON.parse], a syntax error being a [Throw]. *)
Context (JSON_parse : string -> completion json).

Definition _parseJsonResponse (response : string) : completion json :=
  let attempt : completion json :=
    match ResponseText.regex_match response with
    | Some jsonMatch => JSON_parse jsonMatch
    | None => Return (ResponseText.fallback "Could not parse response" response)
    end in
  match attempt with
  | Return v => Return v
  | Throw _ => Return (ResponseText.fallback "JSON parse error" response)
  end.

End ParseJsonResponse.

(** The reading of the specification: the first opening brace together
    with everything up to the closing brace that balances it. *)
Module SpecReading.
Import JsString ResponseText.

Fixpoint balanced_prefix (depth : nat) (l : list ascii) : option (list ascii) :=
  match l with
  | [] => None
  | c :: l' =>
      if bool_decide (c = lbrace) then
        option_map (cons c) (balanced_prefix (S depth) l')
      else if bool_decide (c = rbrace) then
        match depth with
        | 0 => None
        | 1 => Some [c]
        | S d => option_map (cons c) (balanced_prefix d l')
        end
      else option_map (cons c) (balanced_prefix depth l')
  end.

Definition first_top_level_object (response : string) : option string :=
  match from_lbrace (chars response) with
  | None => None
  | Some tail => option_map of_chars (balanced_prefix 0 tail)
  end.

Section Parser.
Context (JSON_parse : string -> completion json).

Definition parse_first_object (response : string) : completion json :=
  match first_top_level_object response with
  | Some object =>
      match JSON_parse object with
      | Return v => Return v
      | Throw _ => Return (fallback "JSON parse error" response)
      end
  | None => Return (fallback "Could not parse response" response)
  end.

End Parser.
End SpecReading.

(** ** [JSON.parse]

    A recursive-descent reader of the JSON grammar (ECMA-404). The fuel
    bounds the nesting of calls; twice the length of the text and two
    more is always enough ([JsonFuel.JSON_parse_fuel]). *)

Module Json.
Import JsString.

Inductive presult (A : Type) : Type :=
| POk (v : A) (rest : list ascii)
| PError
| PFuel.
Arguments POk {A} v rest.
Arguments PError {A}.
Arguments PFuel {A}.

Definition code (c : ascii) : N := N_of_ascii c.
Definition is_char (c : ascii) (s : string) : bool :=
  bool_decide (String c EmptyString = s).

Definition is_ws (c : ascii) : bool :=
  (code c =? 32)%N || (code c =? 9)%N || (code c =? 10)%N || (code c =? 13)%N.

Fixpoint skip_ws (l : list ascii) : list ascii :=
  match l with
  | c :: l' => if is_ws c then skip_ws l' else l
  | [] => []
  end.

Definition is_digit (c : ascii) : bool := (48 <=? code c)%N && (code c <=? 57)%N.

Fixpoint span_digits (l : list ascii) : list ascii * list ascii :=
  match l with
  | c :: l' =>
      if is_digit c then let '(ds, rest) := span_digits l' in (c :: ds, rest)
      else ([], l)
  | [] => ([], [])
  end.

Definition hex_value (c : ascii) : option N :=
  let n := code c in
  if (48 <=? n)%N && (n <=? 57)%N then Some (n - 48)%N
  else if (65 <=? n)%N && (n <=? 70)%N then Some (n - 55)%N
  else if (97 <=? n)%N && (n <=? 102)%N then Some (n - 87)%N
  else None.

Definition hex4 (a b c d : ascii) : option N :=
  match hex_value a, hex_value b, hex_value c, hex_value d with
  | Some x, Some y, Some z, Some w => Some (((x * 16 + y) * 16 + z) * 16 + w)%N
  | _, _, _, _ => None
  end.

Definition simple_escape (c : ascii) : option N :=
  if is_char c "b" then Some 8%N
  else if is_char c "f" then Some 12%N
  else if is_char c "n" then Some 10%N
  else if is_char c "r" then Some 13%N
  else if is_char c "t" then Some 9%N
  else if is_char c "/" then Some 47%N
  else if is_char c "\" then Some 92%N
  else if bool_decide (c = dquote) then Some 34%N
  else None.

(** The characters of a string literal after its opening quote. *)
Fixpoint string_body (l : list ascii) (acc : list N) : option (list N * list ascii) :=
  match l with
  | [] => None
  | c :: l' =>
      if bool_decide (c = dquote) then Some (rev acc, l')
      else if is_char c "\" then
        match l' with
        | e :: l'' =>
            if is_char e "u" then
              match l'' with
              | h1 :: h2 :: h3 :: h4 :: l3 =>
                  match hex4 h1 h2 h3 h4 with
                  | Some n => string_body l3 (n :: acc)
                  | None => None
                  end
              | _ => None
              end
            else
              match simple_escape e with
              | Some n => string_body l'' (n :: acc)
              | None => None
              end
        | [] => None
        end
      else if (code c <? 32)%N then None
      else string_body l' (code c :: acc)
  end.

(** A number literal: sign, integer part, fraction, exponent. *)
Definition number (l : list ascii) : option (list ascii * list ascii) :=
  let '(sign, l1) :=
    match l with
    | c :: r => if is_char c "-" then ([c], r) else ([], l)
    | [] => ([], l)
    end in
  let int_part :=
    match l1 with
    | c :: r =>
        if is_char c "0" then Some ([c], r)
        else if is_digit c then let '(ds, r') := span_digits r in Some (c :: ds, r')
        else None
    | [] => None
    end in
  match int_part with
  | None => None
  | Some (int, l2) =>
      let frac_part :=
        match l2 with
        | c :: r =>
            if is_char c "." then
              match span_digits r with
              | ([], _) => None
              | (ds, r') => Some (c :: ds, r')
              end
            else Some ([], l2)
        | [] => Some ([], l2)
        end in
      match frac_part with
      | None => None
      | Some (frac, l3) =>
          let exp_part :=
            match l3 with
            | c :: r =>
                if is_char c "e" || is_char c "E" then
                  let '(esign, r1) :=
                    match r with
                    | s :: r0 => if is_char s "+" || is_char s "-" then ([s], r0) else ([], r)
                    | [] => ([], r)
                    end in
                  match span_digits r1 with
                  | ([], _) => None
                  | (ds, r') => Some ((c :: esign ++ ds)%list, r')
                  end
                else Some ([], l3)
            | [] => Some ([], l3)
            end in
          match exp_part with
          | None => None
          | Some (ex, l4) => Some ((sign ++ int ++ frac ++ ex)%list, l4)
          end
      end
  end.

Definition keyword (w : string) (l : list ascii) : option (list ascii) :=
  let k := chars w in
  if bool_decide (take (length k) l = k) then Some (drop (length k) l) else None.

Fixpoint parse_value (fuel : nat) (l : list ascii) : presult json :=
  match fuel with
  | 0 => PFuel
  | S fuel =>
      match skip_ws l with
      | [] => PError
      | c :: r =>
          if is_char c "{" then
            match skip_ws r with
            | c2 :: r2 =>
                if is_char c2 "}" then POk (JObject []) r2 else parse_members fuel r []
            | [] => PError
            end
          else if is_char c "[" then
            match skip_ws r with
            | c2 :: r2 =>
                if is_char c2 "]" then POk (JArray []) r2 else parse_elements fuel r []
            | [] => PError
            end
          else if bool_decide (c = dquote) then
            match string_body r [] with
            | Some (units, r') => POk (JString units) r'
            | None => PError
            end
          else
            match keyword "true" (c :: r), keyword "false" (c :: r),
                  keyword "null" (c :: r) with
            | Some r', _, _ => POk (JBool true) r'
            | _, Some r', _ => POk (JBool false) r'
            | _, _, Some r' => POk JNull r'
            | None, None, None =>
                match number (c :: r) with
                | Some (lit, r') => POk (JNumber (of_chars lit)) r'
                | None => PError
                end
            end
      end
  end
with parse_elements (fuel : nat) (l : list ascii) (acc : list json) : presult json :=
  match fuel with
  | 0 => PFuel
  | S fuel =>
      match parse_value fuel l with
      | POk v r =>
          match skip_ws r with
          | c :: r' =>
              if is_char c "," then parse_elements fuel r' (v :: acc)
              else if is_char c "]" then POk (JArray (rev (v :: acc))) r'
              else PError
          | [] => PError
          end
      | PError => PError
      | PFuel => PFuel
      end
  end
with parse_members (fuel : nat) (l : list ascii) (acc : list (list N * json))
  : presult json :=
  match fuel with
  | 0 => PFuel
  | S fuel =>
      match skip_ws l with
      | c :: r =>
          if bool_decide (c = dquote) then
            match string_body r [] with
            | Some (key, r1) =>
                match skip_ws r1 with
                | c1 :: r2 =>
                    if is_char c1 ":" then
                      match parse_value fuel r2 with
                      | POk v r3 =>
                          match skip_ws r3 with
                          | c3 :: r4 =>
                              if is_char c3 "," then parse_members fuel r4 ((key, v) :: acc)
                              else if is_char c3 "}" then
                                POk (JObject (rev ((key, v) :: acc))) r4
                              else PError
                          | [] => PError
                          end
                      | PError => PError
                      | PFuel => PFuel
                      end
                    else PError
                | [] => PError
                end
            | None => PError
            end
          else PError
      | [] => PError
      end
  end.

Definition enough (text : string) : nat := 2 * length (chars text) + 2.

Definition JSON_parse (text : string) : completion json :=
  match parse_value (enough text) (chars text) with
  | POk v rest =>
      match skip_ws rest with
      | [] => Return v
      | _ :: _ => Throw "Unexpected non-whitespace character after JSON"
      end
  | PError => Throw "Unexpected token in JSON"
  | PFuel => Throw "nesting beyond the fuel"
  end.

End Json.
(** ** [TutorialGenerator._generateFileStructureVisual]

    The text it builds holds box-drawing characters, so it is kept as a
    sequence of UTF-16 code units, as the strings of [json] are. *)

Module Visual.
Local Open Scope list_scope.

(** The properties every plain object inherits from [Object.prototype].
    Read through [dirs[dirName]] they are functions, and for
    [__proto__] the prototype itself: truthy, and without a [push]. *)
Definition objectPrototypeNames : list string :=
  [ "constructor"; "__defineGetter__"; "__defineSetter__"; "hasOwnProperty";
    "__lookupGetter__"; "__lookupSetter__"; "isPrototypeOf";
    "propertyIsEnumerable"; "toString"; "valueOf"; "__proto__";
    "toLocaleString" ]%string.

(** [dirs[dirName].push(name)] on an own property. *)
Fixpoint push_name (dirName name : string) (dirs : list (string * list string))
  : list (string * list string) :=
  match dirs with
  | [] => []
  | (k, names) :: rest =>
      if bool_decide (k = dirName) then (k, names ++ [name]) :: rest
      else (k, names) :: push_name dirName name rest
  end.

(** The loop that groups the files by directory. [dirs] holds the own
    properties of the object in the order of their creation. *)
Fixpoint group (files : list FileInfo) (dirs : list (string * list string))
  : completion (list (string * list string)) :=
  match files with
  | [] => Return dirs
  | fileInfo :: rest =>
      let dirName := fi_directory fileInfo in      (* [|| ""] keeps a string *)
      match lookup_literal dirs dirName with
      | Some _ => group rest (push_name dirName (fi_name fileInfo) dirs)
      | None =>
          if includes objectPrototypeNames dirName
          then Throw "dirs[dirName].push is not a function"
          else group rest (dirs ++ [(dirName, [fi_name fileInfo])])
      end
  end.

(** The comparison of [sort()] without a comparator: by code units. *)
Definition default_compare (a b : string) : Z :=
  match String.compare a b with
  | Lt => (-1)%Z
  | Eq => 0%Z
  | Gt => 1%Z
  end.

Definition branch : list N := [9500; 9472; 9472; 32]%N.
Definition nested : list N := [9474; 32; 32; 32; 9500; 9472; 9472; 32]%N.
Definition nested_last : list N := [9474; 32; 32; 32; 9492; 9472; 9472; 32]%N.

Definition more (n : nat) : list N :=
  units_of ("... and " ++ pretty n ++ " more files")%string.

(** The lines pushed for one directory. *)
Definition block (dirName : string) (files : list string) : list (list N) :=
  let sorted := JsArray.sort default_compare files in
  if bool_decide (dirName = ""%string) then
    map (fun file => branch ++ units_of file) (take 10 sorted)
    ++ (if (10 <? length files)%nat then [branch ++ more (length files - 10)] else [])
  else
    [branch ++ units_of dirName ++ units_of "/"]
    ++ map (fun file => nested ++ units_of file) (take 5 sorted)
    ++ (if (5 <? length files)%nat then [nested_last ++ more (length files - 5)] else []).

(** [lines.join("\n")] *)
Fixpoint join_lines (lines : list (list N)) : list N :=
  match lines with
  | [] => []
  | [line] => line
  | line :: rest => line ++ 10%N :: join_lines rest
  end.

(** [Object.keys(dirs)] lists integer-like keys first; the sort that
    follows gives the same array for any order of distinct keys. *)
Definition lines_of (dirs : list (string * list string)) : list (list N) :=
  flat_map (fun dirName => block dirName (default [] (lookup_literal dirs dirName)))
           (JsArray.sort default_compare (map fst dirs)).

(** [files] is [fileStructure.files], [None] when it is missing. *)
Definition _generateFileStructureVisual (files : option (list FileInfo))
  : completion (list N) :=
  match files with
  | None => Return (units_of "No file structure available")
  | Some files =>
      match group files [] with
      | Throw e => Throw e
      | Return dirs => Return (join_lines (take 50 (lines_of dirs)))
      end
  end.

End Visual.

(** ** [TutorialGenerator.saveTutorialFiles] *)

Module TutorialGenerator.

(** [tutorialContent]: the Markdown text and the data next to it. *)
Record TutorialContent (Data : Type) : Type := mkTutorialContent {
  markdown : string;
  data : Data
}.
Arguments mkTutorialContent {Data} markdown data.
Arguments markdown {Data} t.
Arguments data {Data} t.

(** [filePaths] *)
Record FilePaths : Type := mkFilePaths {
  fp_markdown : string;
  fp_json : string
}.

Section Save.
Context {Data Disk : Type}.
Context (ensureDir : string -> Disk -> completion unit * Disk)
        (writeFile : string -> string -> Disk -> completion unit * Disk)
        (JSON_stringify : Data -> string).

Definition saveTutorialFiles (tutorialContent : TutorialContent Data)
    (outputDir repoName : string) (d : Disk) : completion FilePaths * Disk :=
  let attempt : completion FilePaths * Disk :=
    match ensureDir outputDir d with
    | (Throw e, d1) => (Throw e, d1)
    | (Return _, d1) =>
        let mdPath := Path.join outputDir (repoName ++ "_tutorial.md") in
        match writeFile mdPath (markdown tutorialContent) d1 with
        | (Throw e, d2) => (Throw e, d2)
        | (Return _, d2) =>
            let jsonPath := Path.join outputDir (repoName ++ "_data.json") in
            match writeFile jsonPath (JSON_stringify (data tutorialContent)) d2 with
            | (Throw e, d3) => (Throw e, d3)
            | (Return _, d3) =>
                (Return {| fp_markdown := mdPath; fp_json := jsonPath |}, d3)
            end
        end
    end in
  match attempt with
  | (Throw e, d') => (Throw ("Failed to save tutorial files: " ++ e), d')
  | (Return filePaths, d') => (Return filePaths, d')
  end.

End Save.
End TutorialGenerator.

(** ** [S3Uploader] *)

Module S3Uploader.

Record S3Uploader : Type := mkS3Uploader {
  bucketName : string;
  region : string
}.

Record PutObjectCommand : Type := mkPutObjectCommand {
  Bucket : string;
  Key : string;
  Body : string;
  ContentType : string;
  CacheControl : string
}.

Section Upload.
(** [mime.lookup] ([None] for [false]), the day of [new Date()] as
    [toISOString] prints it, the two operations of [fs-extra], and
    [s3Client.send]. *)
Context (mime_lookup : string -> option string)
        (today : string)
        (pathExists : string -> bool)
        (readFile : string -> completion string)
        (send : PutObjectCommand -> completion unit).
Context (this : S3Uploader).

Definition _getContentType (filename : string) : string :=
  if truthy (mime_lookup filename) then default "" (mime_lookup filename)
  else if JsString.endsWith filename ".md" then "text/markdown"
  else if JsString.endsWith filename ".json" then "application/json"
  else "application/octet-stream".

Definition _getPublicUrl (s3Key : string) : string :=
  "https://" ++ bucketName this ++ ".s3." ++ region this ++ ".amazonaws.com/" ++ s3Key.

(** The command built for a local file. *)
Definition command_for (baseKey localPath fileContent : string) : PutObjectCommand :=
  let filename := Path.basename localPath in
  {| Bucket := bucketName this;
     Key := baseKey ++ "/" ++ filename;
     Body := fileContent;
     ContentType := _getContentType filename;
     CacheControl := "max-age=3600" |}.

(** The loop over [Object.entries(filePaths)]; [sent] logs the commands
    passed to [s3Client.send]. *)
Fixpoint upload_each (baseKey : string) (entries : list (string * string))
    (uploadedUrls : gmap string string) (sent : list PutObjectCommand)
  : completion (gmap string string) * list PutObjectCommand :=
  match entries with
  | [] => (Return uploadedUrls, sent)
  | (fileType, localPath) :: rest =>
      if negb (pathExists localPath) then upload_each baseKey rest uploadedUrls sent
      else
        match readFile localPath with
        | Throw e => (Throw e, sent)
        | Return fileContent =>
            let command := command_for baseKey localPath fileContent in
            match send command with
            | Throw e => (Throw e, (sent ++ [command])%list)
            | Return _ =>
                upload_each baseKey rest
                  (set_property fileType (_getPublicUrl (Key command)) uploadedUrls)
                  (sent ++ [command])%list
            end
        end
  end.

Definition uploadTutorialFiles (filePaths : list (string * string)) (repoName : string)
  : completion (gmap string string) * list PutObjectCommand :=
  let baseKey := repoName ++ "/" ++ today in
  match upload_each baseKey filePaths ∅ [] with
  | (Throw e, sent) => (Throw ("Failed to upload files to S3: " ++ e), sent)
  | (Return uploadedUrls, sent) => (Return uploadedUrls, sent)
  end.

End Upload.
End S3Uploader.


(** ** The [ignore] package on plain patterns

    The package as it behaves on patterns made of literal characters
    and stars, without slash, exclamation mark, question mark, bracket
    or backslash; the default list has no other. Such a pattern is
    compiled to a regular expression that matches one whole path
    component, letter case ignored, and [ignores] tests the path and
    every parent directory of it: the path is ignored when one of its
    components matches one of the patterns. *)

Module IgnorePackage.
Import JsString.

Definition star : ascii := "*"%char.
Definition hash : ascii := "#"%char.

Fixpoint glob (pat : list ascii) (s : list ascii) : bool :=
  match pat with
  | [] => bool_decide (s = [])
  | p :: pat' =>
      if bool_decide (p = star) then
        (fix any (s : list ascii) : bool :=
           glob pat' s || match s with
                          | [] => false
                          | _ :: s' => any s'
                          end) s
      else
        match s with
        | c :: s' => bool_decide (lower_char p = lower_char c) && glob pat' s'
        | [] => false
        end
  end.

Definition pattern_matches (pattern component : string) : bool :=
  glob (chars pattern) (chars component).

Fixpoint skip_dots (l : list ascii) : list ascii :=
  match l with
  | c :: l' => if Path.is_dot c then skip_dots l' else l
  | [] => []
  end.

(** [/^\.*\/|^\.+$/]: the paths [path.relative] never returns. *)
Definition isNotRelative (p : string) : bool :=
  match skip_dots (chars p) with
  | [] => negb (bool_decide (p = EmptyString))
  | c :: _ => Path.is_slash c
  end.

(** [ig.ignores(p)]: the check of the path, then the rules. *)
Definition test (rules : list string) (p : string) : completion bool :=
  if bool_decide (p = EmptyString) then Throw "path must not be empty"
  else if isNotRelative p then Throw "path should be a `path.relative()`d string"
  else
    Return (existsb (fun component => existsb (fun r => pattern_matches r component) rules)
                    (Path.split p)).

(** [checkPattern]: empty and blank lines and comments are no rules. *)
Definition checkPattern (line : string) : bool :=
  match chars line with
  | [] => false
  | c :: _ =>
      negb (forallb Json.is_ws (chars line)) && negb (bool_decide (c = hash))
  end.

Fixpoint split_lines (cur : list ascii) (l : list ascii) : list (list ascii) :=
  match l with
  | [] => [rev cur]
  | c :: l' =>
      if (N_of_ascii c =? 10)%N then rev cur :: split_lines [] l'
      else split_lines (c :: cur) l'
  end.

Definition strip_cr (line : list ascii) : list ascii :=
  match rev line with
  | c :: r => if (N_of_ascii c =? 13)%N then rev r else line
  | [] => line
  end.

Definition lines (text : string) : list string :=
  map (fun l => of_chars (strip_cr l)) (split_lines [] (chars text)).

#[export] Instance package : Ignore := {|
  matcher := list string;
  ignore_new := [];
  ignore_add patterns rules :=
    (rules ++ filter (fun p => checkPattern p = true) patterns)%list;
  ignore_addText text rules :=
    (rules ++ filter (fun p => checkPattern p = true) (lines text))%list;
  ignores := test
|}.

(** The matcher of a clone without [.gitignore]. *)
Definition defaults : list string := ignore_add defaultPatterns ignore_new.

End IgnorePackage.

(** ** Concrete inputs *)

(** The scenario of the specification: a clone with [index.js] (500
    bytes), the directory [node_modules], [image.png] and [README.md]
    (200 bytes) at its root, and no [.gitignore]. *)
Module Scenario.

Definition repo (c_index c_readme : string) (node_modules image : node) : node :=
  Dir [ ("index.js", File 500 (Return c_index));
        ("node_modules", node_modules);
        ("image.png", image);
        ("README.md", File 200 (Return c_readme)) ].

Definition tmpDir : string := "/tmp/tmp-4242".

Definition disk_of (c_index c_readme : string) (node_modules image : node) : node :=
  Dir [ ("tmp", Dir [ ("tmp-4242", repo c_index c_readme node_modules image) ]) ].

Definition this : GitHubClient := mkClient (Some tmpDir).

Definition world_of (c_index c_readme : string) (node_modules image : node) : World :=
  {| client := this; disk := disk_of c_index c_readme node_modules image; trace := [] |}.

Definition text (n : nat) : string := JsString.of_chars (repeat "x"%char n).

Definition foo : node := Dir [ ("foo.js", File 30 (Return "module.exports = 1;")) ].
Definition png : node := File 2048 (Return "PNG").

(** The scenario with contents of 500 and 200 characters. *)
Definition repo0 : node := repo (text 500) (text 200) foo png.
Definition disk0 : node := disk_of (text 500) (text 200) foo png.

End Scenario.

(** A clone with an empty file beside a small one. *)
Module EmptyFile.

Definition repo : node :=
  Dir [ ("empty.txt", File 0 (Return EmptyString)); ("a.txt", File 3 (Return "abc")) ].

Definition world : World :=
  {| client := Scenario.this;
     disk := Dir [ ("tmp", Dir [ ("tmp-4242", repo) ]) ];
     trace := [] |}.

End EmptyFile.

(** Answers of the model. *)
Module Answers.

(** [q s] is [s] between two double-quote characters. *)
Definition q (s : string) : string := String dquote (s ++ String dquote EmptyString).

(** An object in prose, and two objects in one answer. *)
Definition fenced_text : string :=
  "Here you go: {" ++ q "a" ++ ": {" ++ q "b" ++ ": 1}} Thanks".
Definition first_object : string := "{" ++ q "a" ++ ":1}".
Definition two_objects : string := first_object ++ " and {" ++ q "b" ++ ":2}".

End Answers.

(** A clone with 150 files at its root. *)
Module Large.

Definition entry (i : nat) : string * node :=
  ("f" ++ pretty i ++ ".js", File 10 (Return "x")).

Definition repo : node := Dir (map entry (seq 0 150)).

Definition disk0 : node := Dir [ ("tmp", Dir [ ("tmp-4242", repo) ]) ].

End Large.

(** A directory in which [stat] fails on the second of three entries. *)
Module Dangling.

Definition pre : list (string * node) := [ ("a.js", File 10 (Return "a")) ].
Definition post : list (string * node) := [ ("z.js", File 10 (Return "z")) ].
Definition bad : node := NoStat "ENOENT: no such file or directory, stat".
Definition ig (p : string) : completion bool := Return false.

End Dangling.

(** Two runs of the handler on the scenario's clone: one in which every
    collaborator succeeds, one in which the analysis fails after the
    clone. *)
Module Run.

Definition url : string := "https://github.com/octo/hello.git".

Definition co : @Collaborators unit unit unit := {|
  JSON_parse_body := fun _ => Throw "Unexpected token in JSON";
  env_S3_BUCKET_NAME := None;
  tmp_dirSync := fun d => (Return Scenario.tmpDir, d);
  git_clone := fun _ _ _ => (Return tt, Scenario.disk0);
  fs_remove := fun _ d => (Return tt, d);
  analyzeFullRepository := fun _ _ _ _ => Return tt;
  generateMarkdown := fun _ _ => Return tt;
  saveTutorialFiles := fun _ _ d => (Return tt, d);
  uploadTutorialFiles := fun _ => Return tt
|}.

Definition co_analysis_fails : @Collaborators unit unit unit := {|
  JSON_parse_body := JSON_parse_body co;
  env_S3_BUCKET_NAME := env_S3_BUCKET_NAME co;
  tmp_dirSync := tmp_dirSync co;
  git_clone := git_clone co;
  fs_remove := fs_remove co;
  analyzeFullRepository := fun _ _ _ _ =>
    Throw "Analysis failed: Bedrock invocation failed: throttled";
  generateMarkdown := generateMarkdown co;
  saveTutorialFiles := saveTutorialFiles co;
  uploadTutorialFiles := uploadTutorialFiles co
|}.

Definition event : LambdaEvent :=
  {| body := None;
     fields := {| github_url := Some url; upload_to_s3 := Some false;
                  s3_bucket := None |} |}.

Definition start : World :=
  {| client := mkClient None; disk := Dir []; trace := [] |}.

End Run.
(** ** Further concrete inputs *)

Module Inputs.

(** A request that names a repository and leaves the rest to the
    defaults. *)
Definition request : RequestData :=
  {| github_url := Some Run.url; upload_to_s3 := None; s3_bucket := None |}.

Definition event : LambdaEvent := {| body := None; fields := request |}.


(** The file that the walk of the scenario records for
    [node_modules/foo.js] when nothing is ignored. *)
Definition foo_js : FileInfo :=
  mkFileInfo "foo.js" "node_modules/foo.js" "node_modules" 30 ".js".

(** An uploader, and a disk on which only the Markdown file exists. *)
Definition uploader : S3Uploader.S3Uploader :=
  {| S3Uploader.bucketName := "bucket"; S3Uploader.region := "us-west-2" |}.

Definition saved : TutorialGenerator.FilePaths :=
  {| TutorialGenerator.fp_markdown := "/tmp/hello_tutorial.md";
     TutorialGenerator.fp_json := "/tmp/hello_data.json" |}.

Definition only_markdown (p : string) : bool :=
  bool_decide (p = "/tmp/hello_tutorial.md").

(** The clone of [Dangling]: [stat] fails on the second of its three
    entries. *)
Definition dangling : node :=
  Dir [ ("tmp", Dir [ ("tmp-4242",
          Dir (Dangling.pre ++ ("broken", Dangling.bad) :: Dangling.post)%list) ]) ].

End Inputs.


(** ** The vocabulary of the statements *)

(** Descending order of a key. *)
Definition descending {A : Type} (key : A -> Z) (l : list A) : Prop :=
  StronglySorted (fun a b => (key b <= key a)%Z) l.

(** The relative path the walk builds for the entry reached from the
    root through the entries [names]. *)
Definition rel_of (names : list string) : string := fold_left Path.join names "".

(** [path_to root names n]: following the entries [names] from [root]
    leads to [n]. *)
Inductive path_to : node -> list string -> node -> Prop :=
| path_here n : path_to n [] n
| path_down items name child names n :
    (name, child) ∈ items -> path_to child names n ->
    path_to (Dir items) (name :: names) n.

(** The matcher lets through the path of [names] and the path of every
    directory above it: each non-empty prefix of [names]. *)
Definition let_through (ig : string -> completion bool) (names : list string) : Prop :=
  forall k, 0 < k <= length names -> ig (rel_of (take k names)) = Return false.

(** [adds F E st st']: from [st] to [st'] the files [F] were pushed and
    the calls [E] were made. *)
Definition adds (F : list FileInfo) (E : list string) (st st' : WalkState) : Prop :=
  files st' = (files st ++ F)%list /\ entered st' = (entered st ++ E)%list.

(** The invariant of the walk under [root] with the matcher [ig]. *)
Definition entered_ok (ig : string -> completion bool) (root : node) (d : string) : Prop :=
  exists names n, path_to root names n /\ d = rel_of names /\ let_through ig names.

Definition recorded_ok (ig : string -> completion bool) (root : node) (f : FileInfo)
  : Prop :=
  exists names item bytes text,
    path_to root (names ++ [item]) (File bytes text)
    /\ fi_name f = item
    /\ fi_directory f = rel_of names
    /\ fi_path f = rel_of (names ++ [item])
    /\ fi_size f = bytes
    /\ let_through ig (names ++ [item]).

Definition walk_ok (ig : string -> completion bool) (root : node) (st : WalkState)
  : Prop :=
  Forall (recorded_ok ig root) (files st)
  /\ Forall (entered_ok ig root) (entered st)
  /\ Forall (fun f => fi_directory f ∈ entered st) (files st).

(** The text the handler keeps for a path, if any. *)
Definition kept (w : World) (filePath : string) : option string :=
  match readFileContent (tree_ops (disk w)) (client w) filePath 50000 with
  | Return (Some text) => if bool_decide (text = "") then None else Some text
  | _ => None
  end.

Definition is_remove (e : Event) : bool :=
  match e with
  | EvRemove _ => true
  | _ => false
  end.

(** The number of calls of [fs.remove] in a log. *)
Definition removals (t : list Event) : nat := length (List.filter is_remove t).

(** [quiet m]: running [m] only appends to the log, and appends no call
    of [fs.remove]. *)
Definition quiet {A} (m : M A) : Prop :=
  forall w, exists evs,
    trace (snd (m w)) = (trace w ++ evs)%list /\ removals evs = 0.

(** A result of the JSON reader on [l] that did not run out of fuel and
    consumed some input. *)
Definition well_fuelled (l : list ascii) (res : Json.presult json) : Prop :=
  match res with
  | Json.POk _ r => length r < length l
  | Json.PError => True
  | Json.PFuel => False
  end.

(** The files under a directory that the matcher lets through, read off
    the tree: what the walk is meant to record when nothing fails. *)
Section Matched.
Context (ig : string -> completion bool).

Definition matched_entry (matched : node -> string -> list FileInfo)
    (rel item : string) (child : node) : list FileInfo :=
  let p := Path.join rel item in
  match ig p with
  | Return false =>
      match child with
      | File bytes _ =>
          [mkFileInfo item p rel bytes (JsString.toLowerCase (Path.extname item))]
      | Dir _ | LockedDir _ => matched child p
      | Other | NoStat _ => []
      end
  | _ => []
  end.

Fixpoint matched (n : node) (rel : string) : list FileInfo :=
  match n with
  | Dir items =>
      (fix each (items : list (string * node)) : list FileInfo :=
         match items with
         | [] => []
         | (item, child) :: rest =>
             (matched_entry matched rel item child ++ each rest)%list
         end) items
  | _ => []
  end.

Definition matched_items (rel : string) (items : list (string * node)) : list FileInfo :=
  flat_map (fun e => matched_entry matched rel (fst e) (snd e)) items.

(** Nothing fails under [n]: the matcher answers for every entry met,
    and [stat] succeeds on every entry it lets through. *)
Definition calm_entry (calm : node -> string -> Prop)
    (rel item : string) (child : node) : Prop :=
  match ig (Path.join rel item) with
  | Return true => True
  | Return false =>
      match child with
      | NoStat _ => False
      | _ => calm child (Path.join rel item)
      end
  | Throw _ => False
  end.

Fixpoint calm (n : node) (rel : string) : Prop :=
  match n with
  | Dir items =>
      (fix each (items : list (string * node)) : Prop :=
         match items with
         | [] => True
         | (item, child) :: rest => calm_entry calm rel item child /\ each rest
         end) items
  | _ => True
  end.

Definition calm_items (rel : string) (items : list (string * node)) : Prop :=
  Forall (fun e => calm_entry calm rel (fst e) (snd e)) items.

End Matched.
(** ** The vocabulary of the further statements *)

(** The name of a repository once a [.git] at its end is removed. *)
Definition without_git (name : string) : string :=
  if JsString.endsWith name ".git" then JsString.dropEnd 4 name else name.

(** A string without a slash. *)
Definition slash_free (s : string) : Prop := Path.slash ∉ JsString.chars s.

(** The extension, read off the last component as [extname] reads
    it. *)
Definition ext_of (comp : list ascii) : string :=
  match Path.cut_at_dot [] comp with
  | None => ""
  | Some (ext, before) =>
      match before with
      | [] => ""
      | _ => if bool_decide (comp = [Path.dot; Path.dot]) then ""
             else JsString.of_chars (Path.dot :: ext)
      end
  end.

(** The language of a recorded file, from the extension kept with it. *)
Definition language_of (f : FileInfo) : option string :=
  _getLanguageFromExtension (fi_extension f).

(** The number of files of a language in a list. *)
Definition files_in (language : string) (l : list FileInfo) : nat :=
  length (filter (fun f => language_of f = Some language) l).

(** The counters hold, for every language, the number of recorded files
    of that language, and no counter at zero. *)
Definition counted (st : WalkState) : Prop :=
  forall language,
    languages st !! language
    = if decide (files_in language (files st) = 0) then None
      else Some (files_in language (files st)).

(** A name that [fs.readdir] can return: not empty, neither [.] nor
    [..], and without a slash. *)
Definition plain_name (s : string) : bool :=
  bool_decide (s <> "" /\ s <> "." /\ s <> ".." /\ Path.slash ∉ JsString.chars s).

(** Every listing of the tree holds such names, each once. *)
Fixpoint listing_ok (n : node) : bool :=
  match n with
  | Dir items =>
      bool_decide (NoDup (map fst items))
      && (fix each (items : list (string * node)) : bool :=
            match items with
            | [] => true
            | (name, child) :: rest => plain_name name && listing_ok child && each rest
            end) items
  | _ => true
  end.

(** The path below a directory: the directory, a slash and the name, or
    the name alone for the root of the walk. *)
Definition below (directory name : string) : string :=
  if bool_decide (directory = "") then name else directory ++ "/" ++ name.

(** The calls a complete run logs, in order; the last two only when the
    tutorial is uploaded. *)
Definition steps (url dir : string) (upload : bool) : list Event :=
  [EvTmpDir; EvClone url dir; EvAnalyze; EvMarkdown]
  ++ (if upload then [EvSave; EvUpload] else []).

(** [silent m]: running [m] leaves the world as it is. *)
Definition silent {A} (m : M A) : Prop := forall w, snd (m w) = w.

(** What the handler reads its parameters from: the parsed [body] when
    the event has one, the event itself otherwise. *)
Definition request_of {Analysis Tutorial Urls : Type}
    (co : @Collaborators Analysis Tutorial Urls) (event : LambdaEvent)
  : completion RequestData :=
  if truthy (body event) then JSON_parse_body co (default "" (body event))
  else Return (fields event).

(** The directories of a list of files, each once, in the order in
    which they first appear. *)
Definition first_seen (l : list string) : list string :=
  reverse (remove_dups (reverse l)).

(** The names of the files of one directory, in the order of the list. *)
Definition names_in (directory : string) (files : list FileInfo) : list string :=
  map fi_name (filter (fun f => fi_directory f = directory) files).

(** The grouping of the files by directory, read off the list. *)
Definition grouped (files : list FileInfo) : list (string * list string) :=
  map (fun d => (d, names_in d files)) (first_seen (map fi_directory files)).

(** A file whose directory has the name of a property of
    [Object.prototype]. *)
Definition shadowed (f : FileInfo) : Prop :=
  fi_directory f ∈ Visual.objectPrototypeNames.

(** The entries the handler passes to the uploader. *)
Definition entries_of (filePaths : TutorialGenerator.FilePaths) : list (string * string) :=
  [ ("markdown", TutorialGenerator.fp_markdown filePaths);
    ("json", TutorialGenerator.fp_json filePaths) ].

(** The local files of the entries that exist. *)
Definition present (pathExists : string -> bool) (entries : list (string * string))
  : list (string * string) :=
  List.filter (fun e => pathExists (snd e)) entries.

(** [kept_in h f l i st m]: on the heap [h] the references [f], [l]
    and [i] hold the array [files] and the object [languages] of [st],
    and the matcher [m]. *)
Definition kept_in `{Ignore} (h : list Store.object) (f l i : nat)
    (st : WalkState) (m : matcher) : Prop :=
  h !! f = Some (Store.ArrayOfFiles (files st))
  /\ h !! l = Some (Store.Counters (languages st))
  /\ h !! i = Some (Store.IgnoreObject m)
  /\ f <> l /\ f <> i /\ l <> i.

(** [same_elsewhere h h' f l]: from [h] to [h'] no object was created,
    and every object other than the two arrays is as it was. *)
Definition same_elsewhere `{Ignore} (h h' : list Store.object) (f l : nat) : Prop :=
  length h' = length h /\ forall j, j <> f -> j <> l -> h' !! j = h !! j.


(** * Checks of the embedding on concrete inputs *)

Module PathTests.
Import Path.

Example join_root : join "" "index.js" = "index.js".
Proof. reflexivity. Qed.
Example join_sub : join "src/lib" "a.ts" = "src/lib/a.ts".
Proof. reflexivity. Qed.
Example join_abs : join "/tmp/tmp-1" "src/../README.md" = "/tmp/tmp-1/README.md".
Proof. reflexivity. Qed.
Example join_up : join "a" "../../b/" = "../b/".
Proof. reflexivity. Qed.
Example extname_plain : extname "src/index.JS" = ".JS".
Proof. reflexivity. Qed.
Example extname_hidden : extname "a/.gitignore" = "".
Proof. reflexivity. Qed.
Example extname_hidden_json : extname ".eslintrc.json" = ".json".
Proof. reflexivity. Qed.
Example extname_dots : extname "a/.." = "" /\ extname "..." = "." /\ extname "x." = ".".
Proof. repeat split. Qed.
Example extname_dotted_dir : extname "v1.2/readme" = "".
Proof. reflexivity. Qed.
Example basename_plain : basename "docs/README.md" = "README.md".
Proof. reflexivity. Qed.
Example basename_trailing : basename "docs/api//" = "api".
Proof. reflexivity. Qed.
Example toLowerCase_ascii : JsString.toLowerCase "ReadMe.MD" = "readme.md".
Proof. reflexivity. Qed.

End PathTests.

Module ScoreTests.

Example score_readme : _getFileImportance "docs/ReadMe.MD" = 100%Z.
Proof. reflexivity. Qed.
Example score_package : _getFileImportance "package.json" = 90%Z.
Proof. reflexivity. Qed.
Example score_index : _getFileImportance "src/index.js" = 80%Z.
Proof. reflexivity. Qed.
Example score_ts : _getFileImportance "src/a.TS" = 70%Z.
Proof. reflexivity. Qed.
Example score_png : _getFileImportance "image.png" = 10%Z.
Proof. reflexivity. Qed.
Example score_no_extension : _getFileImportance "Makefile" = 10%Z.
Proof. reflexivity. Qed.
Example sortedFiles_keeps_ties :
  sortedFiles ["b.css"; "x.js"; "a.py"; "README"; "y.ts"; "a.css"]
  = ["README"; "x.js"; "a.py"; "y.ts"; "b.css"; "a.css"].
Proof. reflexivity. Qed.
Example binary_by_extension :
  _isBinaryFile "a/b/Photo.JPG" = true /\ _isBinaryFile "a.tar.gz" = true
  /\ _isBinaryFile "jpg" = false.
Proof. repeat split. Qed.

End ScoreTests.

Module RepoUrlTests.

Example url_with_git : extractRepoInfo "https://github.com/octo/hello.git" = Return ("octo", "hello").
Proof. reflexivity. Qed.
Example url_with_tail : extractRepoInfo "git@x:github.com/a/b/tree/main" = Return ("a", "b").
Proof. reflexivity. Qed.
Example url_without_name : exists m, extractRepoInfo "https://github.com/octo" = Throw m.
Proof. eexists. reflexivity. Qed.

End RepoUrlTests.

Module ResponseTextTests.
Import ResponseText SpecReading Answers.

Example match_in_prose :
  regex_match fenced_text = Some ("{" ++ q "a" ++ ": {" ++ q "b" ++ ": 1}}").
Proof. reflexivity. Qed.
Example match_needs_order : regex_match "} no object {" = None.
Proof. reflexivity. Qed.
Example match_spans_both_objects :
  regex_match two_objects = Some two_objects
  /\ first_top_level_object two_objects = Some first_object.
Proof. split; reflexivity. Qed.

End ResponseTextTests.

Module JsonTests.
Import Json Answers.

Example parse_object :
  JSON_parse ("{" ++ q "a" ++ ": [1, -2.5e3, true, null, {}], " ++ q "bA" ++ ": "
              ++ q "x" ++ " }")
  = Return (JObject [ (units_of "a",
                        JArray [JNumber "1"; JNumber "-2.5e3"; JBool true; JNull; JObject []]);
                      (units_of "bA", JString (units_of "x")) ]).
Proof. vm_compute. reflexivity. Qed.
Example parse_trailing_brace :
  JSON_parse "{} }" = Throw "Unexpected non-whitespace character after JSON".
Proof. vm_compute. reflexivity. Qed.
Example parse_leading_zero : JSON_parse "[01]" = Throw "Unexpected token in JSON".
Proof. vm_compute. reflexivity. Qed.
Example parse_nested_arrays :
  JSON_parse "[[[[]]]]" = Return (JArray [JArray [JArray [JArray []]]]).
Proof. vm_compute. reflexivity. Qed.

End JsonTests.

Module IgnoreTests.
Import IgnorePackage.
#[local] Existing Instance package.

Example ignores_node_modules : ignores defaults "node_modules" = Return true.
Proof. reflexivity. Qed.
Example ignores_below_any_case : ignores defaults "src/Node_Modules/x/y.js" = Return true.
Proof. reflexivity. Qed.
Example ignores_pyc : ignores defaults "a/b.pyc" = Return true.
Proof. reflexivity. Qed.
Example ignores_log : ignores defaults "debug.log" = Return true.
Proof. reflexivity. Qed.
Example lets_builder_through : ignores defaults "src/builder.js" = Return false.
Proof. reflexivity. Qed.
Example refuses_dots : exists m, ignores defaults "..." = Throw m.
Proof. eexists. reflexivity. Qed.

End IgnoreTests.

Module ScenarioTests.
Import Scenario IgnorePackage.
#[local] Existing Instance package.

Example scenario_structure :
  match getFileStructure disk0 this with
  | Return r =>
      total_files r = 3
      /\ map fi_path (tr_files r) = ["index.js"; "image.png"; "README.md"]
  | Throw _ => False
  end.
Proof. vm_compute. split; reflexivity. Qed.
Example scenario_main_files :
  getMainFiles disk0 this = Return ["README.md"; "index.js"; "image.png"].
Proof. vm_compute. reflexivity. Qed.

(** A file after the entry whose [stat] fails is not met; without that
    entry it is. *)
Example walk_stops_at_dangling_link :
  map fi_path
    (files (_walkDirectory Dangling.ig
              (Dir (Dangling.pre ++ ("broken", Dangling.bad) :: Dangling.post)%list)
              "" (fresh ∅)))
  = ["a.js"]
  /\ map fi_path
       (files (_walkDirectory Dangling.ig (Dir (Dangling.pre ++ Dangling.post)%list)
                 "" (fresh ∅)))
     = ["a.js"; "z.js"].
Proof. split; vm_compute; reflexivity. Qed.

End ScenarioTests.

Module VisualTests.
Import Visual.

Example visual_without_files :
  _generateFileStructureVisual None = Return (units_of "No file structure available").
Proof. reflexivity. Qed.
Example visual_of_no_file : _generateFileStructureVisual (Some []) = Return [].
Proof. reflexivity. Qed.
Example visual_constructor_directory :
  _generateFileStructureVisual
    (Some [ mkFileInfo "a.js" "a.js" "" 1 ".js";
            mkFileInfo "b.js" "constructor/b.js" "constructor" 1 ".js" ])
  = Throw "dirs[dirName].push is not a function".
Proof. reflexivity. Qed.
Example visual_sorts_directories_and_names :
  _generateFileStructureVisual
    (Some [ mkFileInfo "z.js" "src/z.js" "src" 1 ".js";
            mkFileInfo "b.md" "b.md" "" 1 ".md";
            mkFileInfo "a.js" "src/a.js" "src" 1 ".js";
            mkFileInfo "x.py" "lib/x.py" "lib" 1 ".py" ])
  = Return
      (join_lines
         [ (branch ++ units_of "b.md")%list;
           (branch ++ units_of "lib/")%list;
           (nested ++ units_of "x.py")%list;
           (branch ++ units_of "src/")%list;
           (nested ++ units_of "a.js")%list;
           (nested ++ units_of "z.js")%list ]).
Proof. vm_compute. reflexivity. Qed.
Example visual_counts_the_rest :
  block "src" ["g"; "f"; "e"; "d"; "c"; "b"; "a"]
  = [ (branch ++ units_of "src/")%list;
      (nested ++ units_of "a")%list; (nested ++ units_of "b")%list;
      (nested ++ units_of "c")%list; (nested ++ units_of "d")%list;
      (nested ++ units_of "e")%list;
      (nested_last ++ units_of "... and 2 more files")%list ].
Proof. vm_compute. reflexivity. Qed.

End VisualTests.

Module UploadTests.
Import S3Uploader.

Example content_type_of_mime :
  _getContentType (fun _ => Some "text/html") "index.md" = "text/html".
Proof. reflexivity. Qed.
Example content_type_fallbacks :
  map (_getContentType (fun _ => None)) ["a.md"; "a.json"; "a.bin"; "md"]
  = ["text/markdown"; "application/json"; "application/octet-stream";
     "application/octet-stream"].
Proof. vm_compute. reflexivity. Qed.
Example public_url :
  _getPublicUrl Inputs.uploader "hello/2026-01-01/hello_tutorial.md"
  = "https://bucket.s3.us-west-2.amazonaws.com/hello/2026-01-01/hello_tutorial.md".
Proof. reflexivity. Qed.
Example save_paths_in_tmp :
  Path.join "/tmp" "hello_tutorial.md" = "/tmp/hello_tutorial.md"
  /\ Path.join "/tmp" ".._tutorial.md" = "/tmp/.._tutorial.md".
Proof. split; vm_compute; reflexivity. Qed.

End UploadTests.

Module StoreTests.
#[local] Existing Instance IgnorePackage.package.

(** On an empty heap the call creates three objects and returns what
    the walk with arrays as values returns. *)
Example store_scenario_structure :
  Store.getFileStructure Scenario.disk0 Scenario.this []
  = (getFileStructure Scenario.disk0 Scenario.this,
     [ Store.ArrayOfFiles
         (files (walk_repository Scenario.disk0 Scenario.this Scenario.tmpDir ∅));
       Store.Counters {[ "JavaScript" := 1 ]};
       Store.IgnoreObject IgnorePackage.defaults ]).
Proof. vm_compute. reflexivity. Qed.
Example store_before_clone :
  Store.getFileStructure Scenario.disk0 (mkClient None) [Store.Counters ∅]
  = (Throw "Repository not cloned yet", [Store.Counters ∅]).
Proof. reflexivity. Qed.
(** A push through a reference that holds no array fails. *)
Example store_push_needs_an_array :
  Store.push 0 Inputs.foo_js [Store.Counters ∅] = Throw "files.push is not a function".
Proof. reflexivity. Qed.

(** The walk run twice on the same arrays lists every file twice. *)
Example store_walk_twice_on_the_same_arrays :
  let h := [ Store.ArrayOfFiles []; Store.Counters ∅;
             Store.IgnoreObject IgnorePackage.defaults ] in
  let once := Store._walkDirectory Scenario.repo0 "" 0 1 2 h in
  let twice := Store._walkDirectory Scenario.repo0 "" 0 1 2 once in
  kept_in h 0 1 2 (fresh ∅) IgnorePackage.defaults
  /\ once !! 1 = Some (Store.Counters {[ "JavaScript" := 1 ]})
  /\ twice !! 1 = Some (Store.Counters {[ "JavaScript" := 2 ]})
  /\ match once !! 0, twice !! 0 with
     | Some (Store.ArrayOfFiles l1), Some (Store.ArrayOfFiles l2) =>
         map fi_path l1 = ["index.js"; "image.png"; "README.md"]
         /\ l2 = (l1 ++ l1)%list
     | _, _ => False
     end.
Proof. cbv zeta. split; [by repeat split|]. vm_compute. by repeat split. Qed.

End StoreTests.


(** * Properties *)

(** ** The ranking *)

Section SortByKey.
Context {A : Type} (key : A -> Z) (comparefn : A -> A -> Z).
Hypothesis comparefn_key : forall a b, comparefn a b = (key b - key a)%Z.

Local Abbreviation insert_sorted := (JsArray.insert_sorted comparefn).
Local Abbreviation sort := (JsArray.sort comparefn).

Lemma insert_sorted_cons x y l :
  insert_sorted x (y :: l)
  = if decide (key y <= key x)%Z then x :: y :: l else y :: insert_sorted x l.
Proof.
  simpl. rewrite comparefn_key.
  destruct (Z.leb_spec (key y - key x) 0); case_decide; (reflexivity || lia).
Qed.

Lemma insert_sorted_perm x l : insert_sorted x l ≡ₚ x :: l.
Proof.
  induction l as [|y l IH]; [reflexivity|].
  rewrite insert_sorted_cons. case_decide; [reflexivity|].
  rewrite IH. apply Permutation_swap.
Qed.

Lemma sort_perm l : sort l ≡ₚ l.
Proof.
  induction l as [|x l IH]; simpl; [reflexivity|].
  rewrite insert_sorted_perm. by rewrite IH.
Qed.

Lemma insert_sorted_descending x l :
  descending key l -> descending key (insert_sorted x l).
Proof.
  unfold descending. induction l as [|y l IH]; intros Hl.
  - simpl. repeat constructor.
  - rewrite insert_sorted_cons.
    apply StronglySorted_inv in Hl as [Hl Hy].
    case_decide as Hxy.
    + constructor; [by constructor|].
      constructor; [done|].
      eapply Forall_impl; [exact Hy|]. simpl. intros; lia.
    + constructor; [by apply IH|].
      rewrite insert_sorted_perm. constructor; [lia | done].
Qed.

Lemma sort_descending l : descending key (sort l).
Proof.
  induction l as [|x l IH]; simpl; [constructor|].
  by apply insert_sorted_descending.
Qed.

(** Among the elements of one key, insertion puts the new element first
    and moves nothing else. *)
Lemma filter_insert_sorted s x l :
  filter (fun a => key a = s) (insert_sorted x l)
  = filter (fun a => key a = s) (x :: l).
Proof.
  induction l as [|y l IH]; [reflexivity|].
  rewrite insert_sorted_cons. case_decide as Hxy; [reflexivity|].
  rewrite (filter_cons _ y), IH, !(filter_cons _ x), !(filter_cons _ y).
  repeat case_decide; (reflexivity || lia).
Qed.

Lemma sort_stable s l :
  filter (fun a => key a = s) (sort l) = filter (fun a => key a = s) l.
Proof.
  induction l as [|x l IH]; simpl; [reflexivity|].
  rewrite filter_insert_sorted, !filter_cons, IH. reflexivity.
Qed.

(** There is one stable descending arrangement of a list: whatever
    stable algorithm the engine runs, it returns [sort l]. *)
Lemma stable_descending_unique (l1 l2 : list A) :
  descending key l1 -> descending key l2 ->
  (forall s, filter (fun a => key a = s) l1 = filter (fun a => key a = s) l2) ->
  l1 = l2.
Proof.
  unfold descending. revert l2.
  induction l1 as [|x l1 IH]; intros l2 H1 H2 Hf.
  - destruct l2 as [|y l2]; [reflexivity|].
    specialize (Hf (key y)). rewrite filter_cons_True in Hf by reflexivity.
    discriminate.
  - destruct l2 as [|y l2].
    { specialize (Hf (key x)). rewrite filter_cons_True in Hf by reflexivity.
      discriminate. }
    apply StronglySorted_inv in H1 as [H1 Hx].
    apply StronglySorted_inv in H2 as [H2 Hy].
    assert (Hin1 : x ∈ y :: l2).
    { eapply (proj1 (list_elem_of_filter (fun a => key a = key x) _ _)).
      rewrite <- Hf. rewrite filter_cons_True by reflexivity. left. }
    assert (Hin2 : y ∈ x :: l1).
    { eapply (proj1 (list_elem_of_filter (fun a => key a = key y) _ _)).
      rewrite Hf. rewrite filter_cons_True by reflexivity. left. }
    assert (Hk : key x = key y).
    { apply Z.le_antisymm.
      - apply elem_of_cons in Hin1 as [->|Hin1]; [lia|].
        rewrite Forall_forall in Hy. by apply Hy.
      - apply elem_of_cons in Hin2 as [->|Hin2]; [lia|].
        rewrite Forall_forall in Hx. by apply Hx. }
    assert (x = y) as ->.
    { pose proof (Hf (key x)) as Hh.
      rewrite filter_cons_True in Hh by reflexivity.
      rewrite filter_cons_True in Hh by (symmetry; exact Hk).
      congruence. }
    f_equal. apply IH; [done..|].
    intros s. specialize (Hf s). rewrite !filter_cons in Hf.
    case_decide; congruence.
Qed.

End SortByKey.

Lemma byImportance_key a b :
  byImportance a b = (_getFileImportance b - _getFileImportance a)%Z.
Proof. reflexivity. Qed.

Lemma descending_take {A} (key : A -> Z) n (l : list A) :
  descending key l -> descending key (take n l).
Proof.
  unfold descending. intros Hl. rewrite <- (take_drop n l) in Hl.
  by apply StronglySorted_app_1_l in Hl.
Qed.

Lemma filter_take_prefix {A} (P : A -> Prop) `{!forall a, Decision (P a)} n (l : list A) :
  filter P (take n l) `prefix_of` filter P l.
Proof.
  exists (filter P (drop n l)). by rewrite <- filter_app, take_drop.
Qed.

(** C4. For every list of relative paths the ranking returns the first
    twenty of the stable descending sort by importance: at most twenty
    paths (exactly the smaller of twenty and the input length), in
    descending order of score; paths of equal score keep the relative
    order of the input, in the full order and in the returned prefix;
    and the full sorted order is a rearrangement of the input, so every
    input path occurs in it. *)
Theorem rankPaths_sorted_stable_top20 (paths : list string) :
  rankPaths paths = take 20 (sortedFiles paths)
  /\ length (rankPaths paths) <= 20
  /\ length (rankPaths paths) = Nat.min 20 (length paths)
  /\ descending _getFileImportance (sortedFiles paths)
  /\ descending _getFileImportance (rankPaths paths)
  /\ (forall s, filter (fun p => _getFileImportance p = s) (sortedFiles paths)
                = filter (fun p => _getFileImportance p = s) paths)
  /\ (forall s, filter (fun p => _getFileImportance p = s) (rankPaths paths)
                `prefix_of` filter (fun p => _getFileImportance p = s) paths)
  /\ sortedFiles paths ≡ₚ paths
  /\ (forall p, p ∈ paths -> p ∈ sortedFiles paths).
Proof.
  pose proof (sort_perm _getFileImportance byImportance byImportance_key paths) as Hperm.
  pose proof (sort_descending _getFileImportance byImportance byImportance_key paths) as Hdesc.
  pose proof (fun s => sort_stable _getFileImportance byImportance byImportance_key s paths)
    as Hstable.
  fold (sortedFiles paths) in Hperm, Hdesc, Hstable.
  unfold rankPaths. repeat split.
  - rewrite length_take. lia.
  - rewrite length_take, (Permutation_length Hperm). reflexivity.
  - exact Hdesc.
  - by apply descending_take.
  - exact Hstable.
  - intros s. rewrite <- Hstable. apply filter_take_prefix.
  - exact Hperm.
  - intros p Hp. by rewrite Hperm.
Qed.

(** Any stable descending arrangement of the input is [sortedFiles]: the
    model of [Array.prototype.sort] does not depend on the algorithm
    chosen for it. *)
Lemma sortedFiles_unique (paths sorted : list string) :
  descending _getFileImportance sorted ->
  (forall s, filter (fun p => _getFileImportance p = s) sorted
             = filter (fun p => _getFileImportance p = s) paths) ->
  sorted = sortedFiles paths.
Proof.
  intros Hd Hs.
  apply (stable_descending_unique _getFileImportance); [done| |].
  - apply (sort_descending _ byImportance byImportance_key).
  - intros s. rewrite Hs. symmetry.
    apply (sort_stable _ byImportance byImportance_key).
Qed.

(** Every score is one of the ten values of the rules. *)
Lemma _getFileImportance_range p :
  _getFileImportance p ∈ [100; 90; 80; 70; 60; 50; 40; 30; 20; 10]%Z.
Proof.
  unfold _getFileImportance.
  repeat (case_match; [set_solver|]).
  match goal with |- context [lookup_literal _ ?e] => generalize e end.
  intros e. unfold extScores. simpl.
  repeat (case_bool_decide; [set_solver|]). set_solver.
Qed.

(** ** The walk *)

(** Induction on a tree, with the hypothesis for every entry of a
    directory. *)
Section NodeInduction.
Context (P : node -> Prop).
Hypothesis HDir : forall items, Forall (fun e => P (snd e)) items -> P (Dir items).
Hypothesis HLocked : forall m, P (LockedDir m).
Hypothesis HFile : forall bytes text, P (File bytes text).
Hypothesis HOther : P Other.
Hypothesis HNoStat : forall m, P (NoStat m).

Fixpoint node_tree_ind (n : node) : P n :=
  match n with
  | Dir items =>
      HDir items
        ((fix each (l : list (string * node)) : Forall (fun e => P (snd e)) l :=
            match l with
            | [] => List.Forall_nil _
            | e :: l' => @List.Forall_cons _ _ e l' (node_tree_ind (snd e)) (each l')
            end) items)
  | LockedDir m => HLocked m
  | File bytes text => HFile bytes text
  | Other => HOther
  | NoStat m => HNoStat m
  end.

End NodeInduction.

(** One turn of the loop, by cases on the matcher's answer and on what
    the entry is. *)
Ltac walk_turn ig rel item child :=
  simpl;
  destruct (ig (Path.join rel item)) as [[|]|] eqn:?;
  [ | destruct (node_stat child) as [?stats|] eqn:?;
      [ destruct (isDirectory stats) eqn:?;
        [ | destruct (isFile stats) eqn:? ] | ] | ].

Section WalkFacts.
Context (ig : string -> completion bool).

Lemma _walkDirectory_Dir items rel st :
  _walkDirectory ig (Dir items) rel st = fst (walk_items ig rel items (enter rel st)).
Proof.
  simpl. f_equal. generalize (enter rel st). clear st.
  induction items as [|[item child] rest IH]; intros st; [reflexivity|].
  walk_turn ig rel item child; (apply IH || reflexivity).
Qed.

Lemma _walkDirectory_not_Dir n rel st :
  (forall items, n <> Dir items) -> _walkDirectory ig n rel st = enter rel st.
Proof. destruct n; intros Hn; try reflexivity. by destruct (Hn items). Qed.

(** *** A failing [stat] ends the loop of its directory *)

Lemma walk_items_cut rel pre item bad post e :
  ig (Path.join rel item) = Return false ->
  node_stat bad = Throw e ->
  forall st,
    fst (walk_items ig rel (pre ++ (item, bad) :: post) st)
    = fst (walk_items ig rel pre st).
Proof.
  intros Hig Hstat.
  induction pre as [|[name child] pre IH]; intros st.
  - simpl. by rewrite Hig, Hstat.
  - walk_turn ig rel name child; (apply IH || reflexivity).
Qed.

(** The loop sees a child only through [stat] and through the walk of
    the child. *)
Lemma walk_items_replace_child rel before d c1 c2 after :
  node_stat c1 = node_stat c2 ->
  (forall st, _walkDirectory ig c1 (Path.join rel d) st
              = _walkDirectory ig c2 (Path.join rel d) st) ->
  forall st,
    walk_items ig rel (before ++ (d, c1) :: after) st
    = walk_items ig rel (before ++ (d, c2) :: after) st.
Proof.
  intros Hstat Hwalk.
  induction before as [|[name child] before IH]; intros st.
  - simpl. rewrite Hstat, Hwalk. reflexivity.
  - walk_turn ig rel name child; (apply IH || reflexivity).
Qed.

(** C10. When [stat] fails on an entry that the matcher lets through,
    the walk of that directory ends there without an exception: it
    returns what the walk of the entries before the failing one returns,
    whatever the entries after it are. The entries before it are
    processed in full, and the loop of the parent directory goes on as
    if the directory held only them. *)
Theorem stat_failure_skips_rest_of_directory
    (rel item : string) (pre post : list (string * node)) (bad : node) (e : string) :
  ig (Path.join rel item) = Return false ->
  node_stat bad = Throw e ->
  (forall st,
      walk_items ig rel (pre ++ (item, bad) :: post) st
      = (fst (walk_items ig rel pre st),
         match snd (walk_items ig rel pre st) with
         | Return _ => Throw e
         | Throw e' => Throw e'
         end))
  /\ (forall st,
        _walkDirectory ig (Dir (pre ++ (item, bad) :: post)) rel st
        = _walkDirectory ig (Dir pre) rel st)
  /\ (forall parent d before after st,
        Path.join parent d = rel ->
        _walkDirectory ig
          (Dir (before ++ (d, Dir (pre ++ (item, bad) :: post)) :: after)) parent st
        = _walkDirectory ig (Dir (before ++ (d, Dir pre) :: after)) parent st).
Proof.
  intros Hig Hstat.
  assert (Hdir : forall st,
             _walkDirectory ig (Dir (pre ++ (item, bad) :: post)) rel st
             = _walkDirectory ig (Dir pre) rel st).
  { intros st. rewrite !_walkDirectory_Dir. by eapply walk_items_cut. }
  split; [|split; [exact Hdir|]].
  - clear Hdir. induction pre as [|[name child] pre' IH]; intros st.
    + simpl. by rewrite Hig, Hstat.
    + walk_turn ig rel name child; (apply IH || reflexivity).
  - intros parent d before after st Hrel.
    rewrite !_walkDirectory_Dir. f_equal.
    apply walk_items_replace_child; [reflexivity|].
    intros st'. rewrite Hrel. apply Hdir.
Qed.

(** *** What a walk adds does not depend on what was there before *)

Lemma adds_trans F1 E1 F2 E2 st1 st2 st3 :
  adds F1 E1 st1 st2 -> adds F2 E2 st2 st3 ->
  adds (F1 ++ F2)%list (E1 ++ E2)%list st1 st3.
Proof.
  intros [Hf1 He1] [Hf2 He2]. split.
  - by rewrite Hf2, Hf1, <- app_assoc.
  - by rewrite He2, He1, <- app_assoc.
Qed.

Lemma adds_refl st : adds [] [] st st.
Proof. split; by rewrite app_nil_r. Qed.

Lemma walk_items_frame rel items :
  Forall (fun e => forall rel', exists F E,
              forall st, adds F E st (_walkDirectory ig (snd e) rel' st)) items ->
  exists F E c, forall st,
    adds F E st (fst (walk_items ig rel items st))
    /\ snd (walk_items ig rel items st) = c.
Proof.
  induction items as [|[item child] rest IH]; intros Hch.
  - exists [], [], (Return tt). intros st. split; [apply adds_refl|reflexivity].
  - apply Forall_cons in Hch as [Hchild Hch].
    destruct (IH Hch) as (F & E & c & Hrest).
    walk_turn ig rel item child.
    + by exists F, E, c.
    + destruct (Hchild (Path.join rel item)) as (F1 & E1 & H1).
      exists (F1 ++ F)%list, (E1 ++ E)%list, c. intros st. split.
      * eapply adds_trans; [apply H1 | apply Hrest].
      * apply Hrest.
    + eexists (_ :: F), E, c. intros st. split; [|apply Hrest].
      destruct (Hrest (record_file item (Path.join rel item) rel stats st)) as [[Hf He] _].
      split; [rewrite Hf | rewrite He]; simpl; [|reflexivity].
      rewrite <- app_assoc. reflexivity.
    + by exists F, E, c.
    + exists [], [], (Throw message). intros st. split; [apply adds_refl|reflexivity].
    + exists [], [], (Throw message). intros st. split; [apply adds_refl|reflexivity].
Qed.

Lemma _walkDirectory_frame n :
  forall rel, exists F E, forall st, adds F E st (_walkDirectory ig n rel st).
Proof.
  induction n as [items IH|m|bytes text| |m] using node_tree_ind; intros rel;
    try (exists [], [rel]; intros st; rewrite _walkDirectory_not_Dir by discriminate;
         split; simpl; [by rewrite app_nil_r | reflexivity]).
  destruct (walk_items_frame rel items IH) as (F & E & c & H).
  exists F, (rel :: E). intros st. rewrite _walkDirectory_Dir.
  destruct (H (enter rel st)) as [[Hf He] _]. split; [exact Hf|].
  rewrite He. simpl. by rewrite <- app_assoc.
Qed.

(** The files a walk records come after those already in the array and
    are those it records from empty arrays, whatever the counters. *)
Lemma _walkDirectory_files n rel st languages0 :
  files (_walkDirectory ig n rel st)
  = (files st ++ files (_walkDirectory ig n rel (fresh languages0)))%list.
Proof.
  destruct (_walkDirectory_frame n rel) as (F & E & H).
  destruct (H st) as [-> _]. destruct (H (fresh languages0)) as [-> _].
  reflexivity.
Qed.

Lemma _walkDirectory_entered n rel st :
  entered st `prefix_of` entered (_walkDirectory ig n rel st).
Proof.
  destruct (_walkDirectory_frame n rel) as (F & E & H).
  destruct (H st) as [_ ->]. by exists E.
Qed.

End WalkFacts.

(** *** Ignored paths are neither entered nor recorded *)

Lemma rel_of_snoc names item : rel_of (names ++ [item]) = Path.join (rel_of names) item.
Proof. unfold rel_of. by rewrite fold_left_app. Qed.

Lemma path_to_snoc root names items item child :
  path_to root names (Dir items) -> (item, child) ∈ items ->
  path_to root (names ++ [item]) child.
Proof.
  intros Hp Hin. remember (Dir items) as n eqn:Hn.
  induction Hp as [n|its name c names n Hc Hp IH]; subst.
  - simpl. econstructor; [exact Hin | constructor].
  - simpl. econstructor; [exact Hc | by apply IH].
Qed.

Lemma let_through_snoc ig names item :
  let_through ig names ->
  ig (Path.join (rel_of names) item) = Return false ->
  let_through ig (names ++ [item]).
Proof.
  intros Hn Hig k Hk. rewrite length_app in Hk. simpl in Hk.
  destruct (decide (k <= length names)) as [Hle|Hgt].
  - rewrite take_app_le by lia. apply Hn. lia.
  - rewrite take_ge by (rewrite length_app; simpl; lia).
    by rewrite rel_of_snoc.
Qed.

Section IgnoreInvariant.
Context (ig : string -> completion bool) (root : node).

Lemma walk_ok_enter names n st :
  path_to root names n -> let_through ig names -> walk_ok ig root st ->
  walk_ok ig root (enter (rel_of names) st)
  /\ rel_of names ∈ entered (enter (rel_of names) st).
Proof.
  intros Hp Hl (Hf & He & Hd). simpl. split; [split; [exact Hf|split]|].
  - apply Forall_app. split; [exact He|].
    constructor; [|constructor]. by exists names, n.
  - eapply Forall_impl; [exact Hd|]. simpl. intros f Hin.
    apply elem_of_app. by left.
  - apply elem_of_app. right. left.
Qed.

Lemma walk_ok_items names items :
  path_to root names (Dir items) -> let_through ig names ->
  forall rest,
    rest ⊆ items ->
    Forall (fun e => forall names' st,
                path_to root names' (snd e) -> let_through ig names' ->
                walk_ok ig root st ->
                walk_ok ig root (_walkDirectory ig (snd e) (rel_of names') st)) rest ->
    forall st, walk_ok ig root st -> rel_of names ∈ entered st ->
               walk_ok ig root (fst (walk_items ig (rel_of names) rest st)).
Proof.
  intros Hp Hl rest.
  induction rest as [|[item child] rest IH]; intros Hsub Hch st Hst Hrel; [exact Hst|].
  apply Forall_cons in Hch as [Hchild Hch].
  assert (Hin : (item, child) ∈ items) by (apply Hsub; left).
  assert (Hrest : rest ⊆ items) by (intros x Hx; apply Hsub; by right).
  specialize (IH Hrest Hch).
  simpl. destruct (ig (Path.join (rel_of names) item)) as [[|]|] eqn:Hig;
    [by apply IH| |exact Hst].
  pose proof (path_to_snoc _ _ _ _ _ Hp Hin) as Hp'.
  pose proof (let_through_snoc _ _ _ Hl Hig) as Hl'.
  destruct (node_stat child) as [stats|] eqn:Hstat; [|exact Hst].
  destruct (isDirectory stats) eqn:Hd.
  { apply IH.
    - rewrite <- rel_of_snoc. by apply Hchild.
    - eapply elem_of_prefix; [exact Hrel|]. apply _walkDirectory_entered. }
  destruct (isFile stats) eqn:Hf; [|by apply IH].
  apply IH; [|exact Hrel]. destruct Hst as (Hfiles & Hent & Hdirs).
  split; [|split; [exact Hent|]]; simpl.
  - apply Forall_app. split; [exact Hfiles|].
    constructor; [|constructor].
    destruct child; simpl in Hstat; inversion Hstat; subst; simpl in *; try discriminate.
    exists names, item, bytes, text. rewrite rel_of_snoc. by repeat split.
  - apply Forall_app. split; [exact Hdirs|].
    constructor; [exact Hrel|constructor].
Qed.

Lemma walk_ok_node n :
  forall names st,
    path_to root names n -> let_through ig names -> walk_ok ig root st ->
    walk_ok ig root (_walkDirectory ig n (rel_of names) st).
Proof.
  induction n as [items IH|m|bytes text| |m] using node_tree_ind;
    intros names st Hp Hl Hst;
    try (rewrite _walkDirectory_not_Dir by discriminate; by eapply walk_ok_enter).
  rewrite _walkDirectory_Dir.
  destruct (walk_ok_enter names _ st Hp Hl Hst) as [Hok Hin].
  eapply walk_ok_items; [exact Hp|exact Hl|done|exact IH|exact Hok|exact Hin].
Qed.

End IgnoreInvariant.

(** C6. Whatever the tree and the matcher, every call of the walk is for
    the root or for a directory that the matcher lets through together
    with all the directories above it, so no directory whose relative
    path is ignored is ever entered; and every recorded file lies in the
    tree at a path that the matcher lets through, as it does the path
    of every directory above the file. *)
Theorem walk_never_enters_or_records_ignored
    (ig : string -> completion bool) (root : node) (languages0 : gmap string nat) :
  let st := _walkDirectory ig root "" (fresh languages0) in
  (forall d, d ∈ entered st ->
     (d = "" \/ ig d = Return false)
     /\ exists names n, path_to root names n /\ d = rel_of names
                        /\ forall k, 0 < k <= length names ->
                                     ig (rel_of (take k names)) = Return false)
  /\ (forall f, f ∈ files st ->
        ig (fi_path f) = Return false
        /\ fi_directory f ∈ entered st
        /\ exists names item bytes text,
             path_to root (names ++ [item]) (File bytes text)
             /\ fi_name f = item
             /\ fi_directory f = rel_of names
             /\ fi_path f = rel_of (names ++ [item])
             /\ forall k, 0 < k <= length (names ++ [item]) ->
                          ig (rel_of (take k (names ++ [item]))) = Return false).
Proof.
  intros st.
  assert (Hok : walk_ok ig root st).
  { apply (walk_ok_node ig root root [] (fresh languages0)).
    - constructor.
    - intros k Hk. simpl in Hk. lia.
    - repeat split; constructor. }
  destruct Hok as (Hfiles & Hent & Hdirs).
  rewrite Forall_forall in Hdirs.
  rewrite Forall_forall in Hfiles. rewrite Forall_forall in Hent.
  split.
  - intros d Hd. destruct (Hent d Hd) as (names & n & Hp & -> & Hl). split.
    + destruct names as [|x names] using rev_ind; [by left|right].
      specialize (Hl (length (names ++ [x]))).
      rewrite take_ge in Hl by lia. apply Hl. rewrite length_app. simpl. lia.
    + by exists names, n.
  - intros f Hf.
    destruct (Hfiles f Hf) as (names & item & bytes & text & Hp & Hn & Hd & Hpath & Hs & Hl).
    split; [|split].
    + rewrite Hpath. specialize (Hl (length (names ++ [item]))).
      rewrite take_ge in Hl by lia. apply Hl. rewrite length_app. simpl. lia.
    + by apply Hdirs.
    + exists names, item, bytes, text. by repeat split.
Qed.

(** *** When nothing fails, the walk records the matched files *)

Section MatchedFacts.
Context (ig : string -> completion bool).

Lemma matched_Dir items rel : matched ig (Dir items) rel = matched_items ig rel items.
Proof.
  simpl. unfold matched_items.
  induction items as [|[item child] rest IH]; [reflexivity|].
  simpl. by rewrite IH.
Qed.

Lemma calm_Dir items rel : calm ig (Dir items) rel <-> calm_items ig rel items.
Proof.
  simpl. unfold calm_items.
  induction items as [|[item child] rest IH]; [by split; [constructor|]|].
  rewrite Forall_cons. simpl. by rewrite IH.
Qed.

Lemma walk_items_matched rel items :
  Forall (fun e => forall rel' st,
              calm ig (snd e) rel' ->
              files (_walkDirectory ig (snd e) rel' st)
              = (files st ++ matched ig (snd e) rel')%list) items ->
  calm_items ig rel items ->
  forall st,
    files (fst (walk_items ig rel items st)) = (files st ++ matched_items ig rel items)%list
    /\ snd (walk_items ig rel items st) = Return tt.
Proof.
  unfold calm_items, matched_items.
  induction items as [|[item child] rest IH]; intros Hch Hcalm st.
  - simpl. by rewrite app_nil_r.
  - apply Forall_cons in Hch as [Hchild Hch].
    apply Forall_cons in Hcalm as [Hc Hcalm].
    specialize (IH Hch Hcalm).
    unfold calm_entry in Hc. cbn [fst snd] in Hc, Hchild.
    cbn [walk_items flat_map fst snd]. unfold matched_entry at 1.
    destruct (ig (Path.join rel item)) as [[|]|]; [apply IH| |done].
    destruct child as [sub|m|bytes text| |m];
      cbn [node_stat isDirectory isFile size]; try done.
    + destruct (IH (_walkDirectory ig (Dir sub) (Path.join rel item) st)) as [-> ->].
      split; [|reflexivity]. rewrite Hchild by done. by rewrite <- app_assoc.
    + destruct (IH (_walkDirectory ig (LockedDir m) (Path.join rel item) st)) as [-> ->].
      split; [|reflexivity]. rewrite Hchild by done. by rewrite <- app_assoc.
    + destruct (IH (record_file item (Path.join rel item) rel
                      {| isDirectory := false; isFile := true; size := bytes |} st))
        as [-> ->].
      split; [|reflexivity]. simpl. by rewrite <- app_assoc.
Qed.

Lemma _walkDirectory_matched n :
  forall rel st,
    calm ig n rel ->
    files (_walkDirectory ig n rel st) = (files st ++ matched ig n rel)%list.
Proof.
  induction n as [items IH|m|bytes text| |m] using node_tree_ind; intros rel st Hcalm;
    try (rewrite _walkDirectory_not_Dir by discriminate; simpl; by rewrite app_nil_r).
  rewrite _walkDirectory_Dir, matched_Dir. apply calm_Dir in Hcalm.
  by destruct (walk_items_matched rel items IH Hcalm (enter rel st)) as [-> _].
Qed.

End MatchedFacts.

(** On a clone where nothing fails, [total_files] counts the matched
    files of the tree and [files] lists the first hundred of them. *)
Lemma getFileStructure_matched `{Ignore} (disk0 : node) (this : GitHubClient) (root : string) :
  repoPath this = Some root ->
  let ig := ignores (_loadGitignore (tree_ops disk0) this) in
  calm ig (node_at disk0 root) "" ->
  exists r,
    getFileStructure disk0 this = Return r
    /\ total_files r = length (matched ig (node_at disk0 root) "")
    /\ tr_files r = take 100 (matched ig (node_at disk0 root) "").
Proof.
  intros Hroot ig Hcalm. unfold getFileStructure. rewrite Hroot.
  eexists. split; [reflexivity|]. cbn [total_files tr_files].
  unfold walk_repository. fold ig.
  rewrite (_walkDirectory_matched ig _ "" (fresh ∅) Hcalm). done.
Qed.
(** *** Whatever fails, the walk records matched files only *)

Section RecordedFacts.
Context (ig : string -> completion bool).
Local Open Scope list_scope.

Lemma walk_items_recorded rel items :
  Forall (fun e => forall rel' st,
              exists F, files (_walkDirectory ig (snd e) rel' st) = files st ++ F
                        /\ F `sublist_of` matched ig (snd e) rel') items ->
  forall st,
    exists F, files (fst (walk_items ig rel items st)) = files st ++ F
              /\ F `sublist_of` matched_items ig rel items.
Proof.
  unfold matched_items.
  induction items as [|[item child] rest IH]; intros Hch st.
  - exists []. by rewrite app_nil_r.
  - apply Forall_cons in Hch as [Hchild Hch]. specialize (IH Hch).
    cbn [fst snd] in Hchild.
    cbn [walk_items flat_map fst snd]. unfold matched_entry at 1.
    destruct (ig (Path.join rel item)) as [[|]|].
    + apply IH.
    + destruct child as [sub|m|bytes text| |m];
        cbn [node_stat isDirectory isFile size].
      * destruct (Hchild (Path.join rel item) st) as (F1 & HF1 & Hs1).
        destruct (IH (_walkDirectory ig (Dir sub) (Path.join rel item) st))
          as (F2 & -> & Hs2).
        exists (F1 ++ F2). rewrite HF1, <- app_assoc.
        split; [reflexivity|by apply sublist_app].
      * destruct (Hchild (Path.join rel item) st) as (F1 & HF1 & Hs1).
        destruct (IH (_walkDirectory ig (LockedDir m) (Path.join rel item) st))
          as (F2 & -> & Hs2).
        exists (F1 ++ F2). rewrite HF1, <- app_assoc.
        split; [reflexivity|by apply sublist_app].
      * destruct (IH (record_file item (Path.join rel item) rel
                        {| isDirectory := false; isFile := true; size := bytes |} st))
          as (F2 & -> & Hs2).
        eexists (_ :: F2). cbn [record_file files]. rewrite <- app_assoc.
        split; [reflexivity|]. cbn [app size]. by apply sublist_skip.
      * apply IH.
      * exists []. rewrite app_nil_r. split; [reflexivity|apply sublist_nil_l].
    + exists []. rewrite app_nil_r. split; [reflexivity|apply sublist_nil_l].
Qed.

Lemma _walkDirectory_recorded n :
  forall rel st,
    exists F, files (_walkDirectory ig n rel st) = files st ++ F
              /\ F `sublist_of` matched ig n rel.
Proof.
  induction n as [items IH|m|bytes text| |m] using node_tree_ind; intros rel st;
    try (exists []; rewrite _walkDirectory_not_Dir by discriminate;
         cbn [enter files]; by rewrite app_nil_r).
  rewrite _walkDirectory_Dir, matched_Dir.
  apply (walk_items_recorded rel items IH (enter rel st)).
Qed.

End RecordedFacts.


(** ** The two entry points *)

Section EntryPoints.
Context `{Ignore}.

(** C7. Once the repository is cloned, what the walk records is a part
    of the matched files of the tree, in their order: the files that the
    matcher lets through, a directory's files where the directory
    stands. [getFileStructure] returns in [total_files] the number of
    all the recorded files, with no cap, and in [files] the first
    hundred of them in the order the walk met them, unsorted (all of
    them when there are at most a hundred); [getMainFiles] ranks the
    paths of the whole list. When the matcher answers for every entry
    and [stat] succeeds on every entry let through, the recorded files
    are all the matched files: [total_files] is their number, [files]
    their first hundred, and the ranking is fed all of them. *)
Theorem getFileStructure_counts_recorded_lists_100
    (disk0 : node) (this : GitHubClient) (root : string) :
  repoPath this = Some root ->
  let ig := ignores (_loadGitignore (tree_ops disk0) this) in
  let tree := node_at disk0 root in
  let all := files (walk_repository disk0 this root ∅) in
  exists r,
    getFileStructure disk0 this = Return r
    /\ all `sublist_of` matched ig tree ""
    /\ total_files r = length all
    /\ total_files r <= length (matched ig tree "")
    /\ tr_files r = take 100 all
    /\ length (tr_files r) = Nat.min 100 (length all)
    /\ (length all <= 100 -> tr_files r = all)
    /\ getMainFiles disk0 this = Return (rankPaths (map fi_path all))
    /\ (calm ig tree "" ->
        all = matched ig tree ""
        /\ total_files r = length (matched ig tree "")
        /\ tr_files r = take 100 (matched ig tree "")
        /\ length (tr_files r) = Nat.min 100 (length (matched ig tree ""))
        /\ getMainFiles disk0 this
           = Return (rankPaths (map fi_path (matched ig tree "")))).
Proof.
  intros Hroot ig tree all. unfold getFileStructure, getMainFiles. rewrite Hroot.
  fold all. eexists. split; [reflexivity|]. cbn [total_files tr_files tr_languages].
  assert (Hsub : all `sublist_of` matched ig tree "").
  { unfold all, walk_repository. fold ig. fold tree.
    destruct (_walkDirectory_recorded ig tree "" (fresh ∅)) as (F & -> & HF).
    exact HF. }
  split_and!; try done.
  - by apply sublist_length.
  - apply length_take.
  - intros Hle. by apply take_ge.
  - intros Hcalm.
    assert (Hall : all = matched ig tree "").
    { unfold all, walk_repository. fold ig. fold tree.
      by rewrite (_walkDirectory_matched ig tree "" (fresh ∅) Hcalm). }
    rewrite Hall. split_and!; try done. apply length_take.
Qed.

End EntryPoints.

(** The first reading of C7, [total_files] as the number of all the
    matched files of any tree, fails on a clone in which [stat] fails
    on the second of three entries: [a.js] and [z.js] are matched, and
    the walk ends at the failing entry with [a.js] alone. *)
Lemma getFileStructure_misses_matched_file_after_failed_stat :
  map fi_path
    (matched (@ignores IgnorePackage.package
                (_loadGitignore (tree_ops Inputs.dangling) Scenario.this))
             (node_at Inputs.dangling Scenario.tmpDir) "")
  = ["a.js"; "z.js"]
  /\ exists r,
       @getFileStructure IgnorePackage.package Inputs.dangling Scenario.this = Return r
       /\ total_files r = 1
       /\ map fi_path (tr_files r) = ["a.js"]
       /\ total_files r
          <> length (matched (@ignores IgnorePackage.package
                                (_loadGitignore (tree_ops Inputs.dangling) Scenario.this))
                             (node_at Inputs.dangling Scenario.tmpDir) "").
Proof.
  split; [vm_compute; reflexivity|].
  eexists. split; [reflexivity|]. split_and!; try (vm_compute; reflexivity).
  vm_compute. discriminate.
Qed.

(** ** Two calls in a row, the arrays on a heap *)

Section StoreFacts.
Context `{Ignore}.
Local Open Scope list_scope.

Lemma Store_walkDirectory_Dir items rel f l i h :
  Store._walkDirectory (Dir items) rel f l i h
  = fst (Store.walk_items rel f l i items h).
Proof.
  cbn [Store._walkDirectory]. f_equal. revert h.
  induction items as [|[item child] rest IH]; intros h; [reflexivity|].
  cbn [Store.walk_items].
  destruct (Store.ask i (Path.join rel item) h) as [[|]|]; [apply IH| |reflexivity].
  destruct (node_stat child) as [stats|]; [|reflexivity].
  destruct (isDirectory stats); [apply IH|].
  destruct (isFile stats); [|apply IH].
  destruct (Store.record_file _ _ _ _ _ _ _); [apply IH|reflexivity].
Qed.

Lemma kept_in_enter h f l i rel st m :
  kept_in h f l i st m -> kept_in h f l i (enter rel st) m.
Proof. by intros Hk. Qed.

Lemma same_elsewhere_refl h f l : same_elsewhere h h f l.
Proof. by split. Qed.

Lemma same_elsewhere_trans h1 h2 h3 f l :
  same_elsewhere h1 h2 f l -> same_elsewhere h2 h3 f l -> same_elsewhere h1 h3 f l.
Proof.
  intros [Hl1 Hs1] [Hl2 Hs2]. split; [congruence|].
  intros j Hf Hl. by rewrite Hs2, Hs1.
Qed.

Lemma record_file_refines h f l i st m item p rel stats :
  kept_in h f l i st m ->
  exists h',
    Store.record_file item p rel stats f l h = Return h'
    /\ kept_in h' f l i (record_file item p rel stats st) m
    /\ same_elsewhere h h' f l.
Proof.
  intros (Hf & Hl & Hi & Hfl & Hfi & Hli).
  pose proof (lookup_lt_Some _ _ _ Hf) as Hflt.
  pose proof (lookup_lt_Some _ _ _ Hl) as Hllt.
  unfold Store.record_file, record_file.
  destruct (_getLanguageFromExtension _) as [language|].
  - unfold Store.count. rewrite Hl. cbv beta iota. unfold Store.push.
    rewrite list_lookup_insert_ne by done. rewrite Hf.
    eexists. split; [reflexivity|]. split.
    + unfold kept_in. cbn [files languages].
      rewrite list_lookup_insert_eq by (by rewrite length_insert).
      rewrite list_lookup_insert_ne by done.
      rewrite list_lookup_insert_eq by done.
      rewrite !list_lookup_insert_ne by done. by split_and!.
    + split; [by rewrite !length_insert|].
      intros j Hjf Hjl. by rewrite !list_lookup_insert_ne.
  - cbv beta iota. unfold Store.push. rewrite Hf.
    eexists. split; [reflexivity|]. split.
    + unfold kept_in. cbn [files languages].
      rewrite list_lookup_insert_eq by done.
      rewrite !list_lookup_insert_ne by done. by split_and!.
    + split; [by rewrite length_insert|].
      intros j Hjf Hjl. by rewrite list_lookup_insert_ne.
Qed.

Lemma walk_items_refines rel f l i m items :
  Forall (fun e => forall rel' st h,
              kept_in h f l i st m ->
              kept_in (Store._walkDirectory (snd e) rel' f l i h) f l i
                      (_walkDirectory (ignores m) (snd e) rel' st) m
              /\ same_elsewhere h (Store._walkDirectory (snd e) rel' f l i h) f l)
         items ->
  forall st h,
    kept_in h f l i st m ->
    kept_in (fst (Store.walk_items rel f l i items h)) f l i
            (fst (walk_items (ignores m) rel items st)) m
    /\ same_elsewhere h (fst (Store.walk_items rel f l i items h)) f l.
Proof.
  induction items as [|[item child] rest IH]; intros Hch st h Hk.
  - split; [exact Hk|apply same_elsewhere_refl].
  - apply Forall_cons in Hch as [Hchild Hch]. specialize (IH Hch).
    cbn [Store.walk_items walk_items]. unfold Store.ask.
    pose proof Hk as (_ & _ & Hi & _). rewrite Hi.
    destruct (ignores m (Path.join rel item)) as [[|]|];
      [by apply IH| |by split; [|apply same_elsewhere_refl]].
    destruct (node_stat child) as [stats|];
      [|by split; [|apply same_elsewhere_refl]].
    destruct (isDirectory stats).
    { destruct (Hchild (Path.join rel item) st h Hk) as [Hk1 Hs1].
      destruct (IH _ _ Hk1) as [Hk2 Hs2].
      split; [exact Hk2|by eapply same_elsewhere_trans]. }
    destruct (isFile stats); [|by apply IH].
    destruct (record_file_refines h f l i st m item (Path.join rel item) rel stats Hk)
      as (h' & -> & Hk1 & Hs1).
    destruct (IH _ _ Hk1) as [Hk2 Hs2].
    split; [exact Hk2|by eapply same_elsewhere_trans].
Qed.

Lemma _walkDirectory_refines f l i m n :
  forall rel st h,
    kept_in h f l i st m ->
    kept_in (Store._walkDirectory n rel f l i h) f l i
            (_walkDirectory (ignores m) n rel st) m
    /\ same_elsewhere h (Store._walkDirectory n rel f l i h) f l.
Proof.
  induction n as [items IH|e|bytes text| |e] using node_tree_ind; intros rel st h Hk;
    try (rewrite _walkDirectory_not_Dir by discriminate;
         split; [by apply kept_in_enter|apply same_elsewhere_refl]).
  rewrite Store_walkDirectory_Dir, _walkDirectory_Dir.
  apply walk_items_refines; [exact IH|by apply kept_in_enter].
Qed.

Lemma lookup_snoc (h : list Store.object) o : (h ++ [o]) !! length h = Some o.
Proof. by rewrite lookup_app_r, Nat.sub_diag by lia. Qed.

Lemma insert_snoc (h : list Store.object) o o' : <[length h := o']> (h ++ [o]) = h ++ [o'].
Proof. by rewrite insert_app_r_alt, Nat.sub_diag by lia. Qed.

Lemma _loadGitignore_refines ops this h :
  Store._loadGitignore ops this h
  = (Return (length h), h ++ [Store.IgnoreObject (_loadGitignore ops this)]).
Proof.
  unfold Store._loadGitignore, _loadGitignore, Store.alloc, Store.add.
  rewrite lookup_snoc, insert_snoc.
  destruct (repoPath this) as [root|]; [|reflexivity].
  destruct (pathExists ops _); [|reflexivity].
  destruct (readFile ops _) as [content|]; [|reflexivity].
  by rewrite lookup_snoc, insert_snoc.
Qed.

(** On any heap [getFileStructure] returns what it returns when the
    arrays are passed as values, and leaves the objects it found as
    they were, after which come the three it created. *)
Lemma getFileStructure_refines disk0 this h :
  exists created,
    Store.getFileStructure disk0 this h = (getFileStructure disk0 this, h ++ created)
    /\ length created = match repoPath this with Some _ => 3 | None => 0 end.
Proof.
  unfold Store.getFileStructure, getFileStructure.
  destruct (repoPath this) as [root|] eqn:Hroot.
  2:{ exists []. by rewrite app_nil_r. }
  unfold Store.alloc. rewrite _loadGitignore_refines.
  set (m := _loadGitignore (tree_ops disk0) this).
  set (f := length h).
  set (l := length (h ++ [Store.ArrayOfFiles []])).
  set (h2 := (h ++ [Store.ArrayOfFiles []]) ++ [Store.Counters ∅]).
  set (i := length h2).
  assert (Hl : l = f + 1) by (unfold l, f; rewrite length_app; reflexivity).
  assert (Hi : i = f + 2).
  { unfold i, h2, f. rewrite !length_app. cbn [length]. lia. }
  assert (Hk : kept_in (h2 ++ [Store.IgnoreObject m]) f l i (fresh ∅) m).
  { unfold kept_in. cbn [files languages fresh]. split_and!; try lia.
    - unfold h2. rewrite <- !app_assoc. cbn [app].
      by rewrite lookup_app_r, Nat.sub_diag by (unfold f; lia).
    - unfold h2. rewrite lookup_app_l by (unfold l; rewrite !length_app; cbn; lia).
      apply lookup_snoc.
    - apply lookup_snoc. }
  destruct (_walkDirectory_refines f l i m (node_at disk0 root) "" (fresh ∅) _ Hk)
    as [(Hf' & Hl' & _) [Hlen Hsame]].
  set (h' := Store._walkDirectory _ _ _ _ _ _) in *.
  rewrite Hf', Hl'. unfold walk_repository. fold m.
  exists (drop f h'). split.
  - f_equal. rewrite <- (take_drop f h') at 1. f_equal.
    apply list_eq. intros j.
    destruct (decide (j < f)) as [Hj|Hj].
    + rewrite lookup_take_lt by done. rewrite Hsame by lia.
      unfold h2. rewrite <- !app_assoc. by rewrite lookup_app_l.
    + rewrite lookup_take_ge by lia. symmetry. apply lookup_ge_None. unfold f in Hj. lia.
  - rewrite length_drop, Hlen. unfold h2, f. rewrite !length_app. cbn [length]. lia.
Qed.

Lemma _walkDirectory_twice_in_the_same_arrays f l i m n rel st h :
  kept_in h f l i st m ->
  exists F,
    Store._walkDirectory n rel f l i h !! f
    = Some (Store.ArrayOfFiles (files st ++ F))
    /\ Store._walkDirectory n rel f l i (Store._walkDirectory n rel f l i h) !! f
       = Some (Store.ArrayOfFiles (files st ++ F ++ F))
    /\ F = files (_walkDirectory (ignores m) n rel (fresh ∅)).
Proof.
  intros Hk.
  destruct (_walkDirectory_refines f l i m n rel st h Hk) as [Hk1 _].
  destruct (_walkDirectory_refines f l i m n rel _ _ Hk1) as [(Hf2 & _) _].
  destruct Hk1 as (Hf1 & _).
  exists (files (_walkDirectory (ignores m) n rel (fresh ∅))).
  rewrite Hf1, Hf2. split_and!; [| |reflexivity].
  - by rewrite (_walkDirectory_files _ n rel st ∅).
  - rewrite (_walkDirectory_files _ n rel (_walkDirectory _ n rel st) ∅).
    by rewrite (_walkDirectory_files _ n rel st ∅), <- app_assoc.
Qed.

(** C8. Two calls of [getFileStructure] in a row on an unchanged disk
    return the same: the same [total_files], the same counters and the
    same first hundred files in the same order, or the same exception.
    The arrays and the matcher are objects on a heap that the first
    call leaves behind and the second call finds; the second call
    creates its own three objects after them and writes to these alone,
    so its result is that of the first, and is what the walk of the
    tree from empty arrays gives. The walk itself does not start anew:
    run a second time on the arrays it has filled, it appends every
    file once more. *)
Theorem getFileStructure_twice_with_arrays_on_a_heap
    (disk0 : node) (this : GitHubClient) (h : list Store.object) :
  (let '(r1, h1) := Store.getFileStructure disk0 this h in
   let '(r2, h2) := Store.getFileStructure disk0 this h1 in
   r1 = r2
   /\ match r1, r2 with
      | Return t1, Return t2 =>
          total_files t1 = total_files t2
          /\ tr_languages t1 = tr_languages t2
          /\ tr_files t1 = tr_files t2
      | Throw e1, Throw e2 => e1 = e2
      | _, _ => False
      end
   /\ r1 = getFileStructure disk0 this
   /\ h `prefix_of` h1 /\ h1 `prefix_of` h2
   /\ (is_Some (repoPath this) ->
       length h1 = length h + 3 /\ length h2 = length h1 + 3))
  /\ (forall f l i m n rel st h0,
        kept_in h0 f l i st m ->
        exists F,
          F = files (_walkDirectory (ignores m) n rel (fresh ∅))
          /\ Store._walkDirectory n rel f l i h0 !! f
             = Some (Store.ArrayOfFiles (files st ++ F))
          /\ Store._walkDirectory n rel f l i (Store._walkDirectory n rel f l i h0) !! f
             = Some (Store.ArrayOfFiles (files st ++ F ++ F))).
Proof.
  split.
  - destruct (getFileStructure_refines disk0 this h) as (c1 & -> & Hc1).
    destruct (getFileStructure_refines disk0 this (h ++ c1)) as (c2 & -> & Hc2).
    split_and!; try done.
    + by destruct (getFileStructure disk0 this).
    + by exists c1.
    + by exists c2.
    + intros [root Hroot]. rewrite Hroot in Hc1, Hc2.
      rewrite !length_app. lia.
  - intros f l i m n rel st h0 Hk.
    destruct (_walkDirectory_twice_in_the_same_arrays f l i m n rel st h0 Hk)
      as (F & H1 & H2 & HF).
    by exists F.
Qed.

End StoreFacts.


(** ** The content loader *)

Lemma readFileContent_returns ops this root filePath maxSize :
  repoPath this = Some root ->
  exists r, readFileContent ops this filePath maxSize = Return r.
Proof.
  intros Hroot. unfold readFileContent. rewrite Hroot.
  destruct (pathExists ops _); simpl; [|by eexists].
  destruct (stat ops _) as [stats|]; [|by eexists].
  destruct (_ <? _)%N; [by eexists|].
  destruct (_isBinaryFile _); [by eexists|].
  destruct (readFile ops _); by eexists.
Qed.

(** What the loader returns, case by case. *)
Lemma readFileContent_Some ops this root filePath maxSize content :
  repoPath this = Some root ->
  readFileContent ops this filePath maxSize = Return (Some content)
  <-> pathExists ops (Path.join root filePath) = true
      /\ (exists stats, stat ops (Path.join root filePath) = Return stats
                        /\ (size stats <= maxSize)%N)
      /\ _isBinaryFile filePath = false
      /\ readFile ops (Path.join root filePath) = Return content.
Proof.
  intros Hroot. unfold readFileContent. rewrite Hroot.
  destruct (pathExists ops _); simpl; [|split; [discriminate|intros [? _]; discriminate]].
  destruct (stat ops _) as [stats|];
    [|split; [discriminate|intros (_ & (? & ? & _) & _); discriminate]].
  destruct (N.ltb_spec maxSize (size stats)) as [Hlt|Hle].
  { split; [discriminate|]. intros (_ & (s & Hs & Hsz) & _). inversion Hs; subst. lia. }
  destruct (_isBinaryFile _); [split; [discriminate|intros (_ & _ & ? & _); discriminate]|].
  destruct (readFile ops _) as [c|].
  - split.
    + intros Hc. inversion Hc; subst. repeat split; eauto.
    + intros (_ & _ & _ & Hc). by inversion Hc.
  - split; [discriminate|]. intros (_ & _ & _ & ?). discriminate.
Qed.

Lemma readFileContent_binary ops this root filePath maxSize :
  repoPath this = Some root ->
  _isBinaryFile filePath = true ->
  readFileContent ops this filePath maxSize = Return None.
Proof.
  intros Hroot Hbin. unfold readFileContent. rewrite Hroot.
  destruct (pathExists ops _); [|reflexivity]. simpl.
  destruct (stat ops _); [|reflexivity].
  destruct (_ <? _)%N; [reflexivity|]. by rewrite Hbin.
Qed.

(** C5. On a cloned repository the loader never throws, whatever the
    file system answers and for every relative path: it returns [null]
    when the file does not exist, when its size is strictly above
    [maxSize] (50000 by default), when the lowercased extension of the
    path is one of the binary extensions (then whatever the size and
    whether the file exists or not), and when [stat] or [readFile]
    fails. *)
Theorem readFileContent_absent_never_throws
    (ops : FsOps) (this : GitHubClient) (root filePath : string) (maxSize : N) :
  repoPath this = Some root ->
  let fullPath := Path.join root filePath in
  let result := readFileContent ops this filePath maxSize in
  (exists r, result = Return r)
  /\ (pathExists ops fullPath = false -> result = Return None)
  /\ (forall stats, stat ops fullPath = Return stats -> (maxSize < size stats)%N ->
                    result = Return None)
  /\ (_isBinaryFile filePath = true -> result = Return None)
  /\ (forall e, stat ops fullPath = Throw e -> result = Return None)
  /\ (forall e, readFile ops fullPath = Throw e -> result = Return None)
  /\ maxSize_default = 50000%N
  /\ (_isBinaryFile filePath = true
      <-> JsString.toLowerCase (Path.extname filePath) ∈ binaryExts).
Proof.
  intros Hroot fullPath result.
  split; [by eapply readFileContent_returns|].
  subst result fullPath. unfold readFileContent. rewrite Hroot.
  repeat split.
  - intros ->. reflexivity.
  - intros stats Hs Hlt. destruct (pathExists ops _); [|reflexivity]. simpl.
    rewrite Hs. apply N.ltb_lt in Hlt. by rewrite Hlt.
  - intros Hbin. pose proof (readFileContent_binary ops this root filePath maxSize Hroot Hbin)
      as Hnone. unfold readFileContent in Hnone. by rewrite Hroot in Hnone.
  - intros e He. destruct (pathExists ops _); [|reflexivity]. simpl.
    by rewrite He.
  - intros e He. destruct (pathExists ops _); [|reflexivity]. simpl.
    destruct (stat ops _); [|reflexivity].
    destruct (_ <? _)%N; [reflexivity|].
    destruct (_isBinaryFile _); [reflexivity|]. by rewrite He.
  - unfold _isBinaryFile, includes. apply bool_decide_eq_true_1.
  - unfold _isBinaryFile, includes. apply bool_decide_eq_true_2.
Qed.

(** Before the clone the loader throws: the check of [repoPath] stands
    outside its [try]. *)
Lemma readFileContent_not_cloned ops filePath maxSize :
  readFileContent ops (mkClient None) filePath maxSize = Throw "Repository not cloned yet".
Proof. reflexivity. Qed.

(** ** The loop that fills [fileContents] *)

Lemma set_property_lookup key value obj p :
  set_property key value obj !! p
  = if bool_decide (p = key /\ key <> "__proto__") then Some value else obj !! p.
Proof.
  unfold set_property. case_bool_decide as Hproto.
  - rewrite bool_decide_eq_false_2; [reflexivity|]. intros [_ ?]. done.
  - case_bool_decide as Hp.
    + destruct Hp as [-> _]. apply lookup_insert_eq.
    + apply lookup_insert_ne. intros <-. by apply Hp.
Qed.

Lemma read_contents_lookup (paths : list string) :
  forall (m0 : gmap string string) (w : World) (root : string),
    repoPath (client w) = Some root ->
    exists m,
      read_contents paths m0 w = (Return m, w)
      /\ forall p, m !! p =
                   if bool_decide (p ∈ paths /\ p <> "__proto__" /\ is_Some (kept w p))
                   then kept w p else m0 !! p.
Proof.
  induction paths as [|filePath rest IH]; intros m0 w root Hroot.
  - exists m0. split; [reflexivity|]. intros p.
    rewrite bool_decide_eq_false_2; [reflexivity|]. intros [Hin _]. by apply elem_of_nil in Hin.
  - simpl. unfold bind at 1, get_client. unfold bind at 1, get_disk.
    unfold bind at 1, lift.
    destruct (readFileContent_returns (tree_ops (disk w)) (client w) root filePath 50000 Hroot)
      as [r Hr].
    pose proof (eq_refl (kept w filePath)) as Hk. unfold kept at 2 in Hk.
    rewrite Hr in *.
    assert (Hskip : kept w filePath = None ->
              exists m, read_contents rest m0 w = (Return m, w)
                /\ forall p, m !! p =
                     if bool_decide (p ∈ filePath :: rest /\ p <> "__proto__" /\ is_Some (kept w p))
                     then kept w p else m0 !! p).
    { intros Hnone. destruct (IH m0 w root Hroot) as (m & Hm & Hl).
      exists m. split; [exact Hm|]. intros p. rewrite Hl.
      repeat case_bool_decide; try reflexivity.
      - exfalso. match goal with H : ¬ (_ ∈ _ /\ _) |- _ => apply H end.
        destruct_and!. split_and!; try done. by right.
      - exfalso. destruct_and!.
        match goal with H : p ∈ filePath :: rest |- _ =>
          apply elem_of_cons in H as [->|Hin] end.
        + rewrite Hnone in *. by eapply is_Some_None.
        + match goal with H : ¬ (_ ∈ _ /\ _) |- _ => apply H end. by split_and!. }
    destruct r as [text|]; [|by apply Hskip].
    case_bool_decide as Hempty; [by apply Hskip|].
    destruct (IH (set_property filePath text m0) w root Hroot) as (m & Hm & Hl).
    exists m. split; [exact Hm|]. intros p. rewrite Hl, set_property_lookup.
    assert (HkS : is_Some (kept w filePath)) by (rewrite Hk; eauto).
    repeat case_bool_decide; try reflexivity; destruct_and?;
      try (subst p; by rewrite Hk); exfalso; set_solver.
Qed.

(** C9. A file that exists, has size zero, no binary extension and
    reads as the empty string is loaded as the empty string, not as
    [null]; yet the loop of the handler, which tests the loaded text for
    truthiness, leaves it out: the map it builds never holds the empty
    string, holds nothing for a path that loads as the empty string,
    and holds for any other path only a non-empty text that the loader
    returned for it. *)
Theorem empty_file_loaded_but_left_out_of_fileContents
    (w : World) (root : string) (paths : list string) :
  repoPath (client w) = Some root ->
  (forall (ops : FsOps) (p : string) (maxSize : N) (stats : Stats),
      pathExists ops (Path.join root p) = true ->
      stat ops (Path.join root p) = Return stats ->
      size stats = 0%N ->
      _isBinaryFile p = false ->
      readFile ops (Path.join root p) = Return EmptyString ->
      readFileContent ops (client w) p maxSize = Return (Some EmptyString))
  /\ exists m,
      read_contents paths ∅ w = (Return m, w)
      /\ (forall p, m !! p <> Some EmptyString)
      /\ (forall p,
            readFileContent (tree_ops (disk w)) (client w) p 50000 = Return (Some EmptyString) ->
            m !! p = None)
      /\ (forall p text,
            m !! p = Some text ->
            p ∈ paths /\ text <> EmptyString
            /\ readFileContent (tree_ops (disk w)) (client w) p 50000 = Return (Some text)).
Proof.
  intros Hroot. split.
  - intros ops p maxSize stats Hex Hstat Hsize Hbin Hread.
    apply (readFileContent_Some ops (client w) root p maxSize EmptyString Hroot).
    split_and!; try done. exists stats. split; [done|]. rewrite Hsize. lia.
  - destruct (read_contents_lookup paths ∅ w root Hroot) as (m & Hm & Hl).
    exists m. split; [exact Hm|].
    assert (Hkept : forall p text, kept w p = Some text ->
              text <> EmptyString
              /\ readFileContent (tree_ops (disk w)) (client w) p 50000 = Return (Some text)).
    { intros p text. unfold kept.
      destruct (readFileContent _ _ p _) as [[t|]|]; try discriminate.
      case_bool_decide; [discriminate|]. intros [= ->]. done. }
    split_and!.
    + intros p. rewrite Hl. case_bool_decide as Hc.
      * intros Hk. by apply Hkept in Hk as [? _].
      * by rewrite lookup_empty.
    + intros p Hp. rewrite Hl.
      assert (kept w p = None) as Hnone.
      { unfold kept. rewrite Hp. by rewrite bool_decide_eq_true_2. }
      rewrite Hnone. case_bool_decide; [reflexivity|apply lookup_empty].
    + intros p text. rewrite Hl. case_bool_decide as Hc.
      * intros Hk. destruct Hc as (Hin & _ & _).
        apply Hkept in Hk as [? ?]. done.
      * by rewrite lookup_empty.
Qed.

(** ** The scenario of the specification *)

#[local] Existing Instance IgnorePackage.package.

(** C3. In the clone that holds [index.js] (500 bytes),
    [node_modules], [image.png] and [README.md] (200 bytes), with the
    default patterns only: the walk counts three files and one
    JavaScript file; the ranking is README.md, index.js, image.png with
    the scores 100, 80 and 10; and the handler's map of contents holds
    README.md and index.js with their texts and nothing else, image.png
    being refused for its extension and nothing under [node_modules]
    being reached. *)
Theorem scenario_walk_rank_contents
    (c_index c_readme : string) (node_modules : node)
    (png_bytes : N) (png_text : completion string) :
  c_index <> EmptyString -> c_readme <> EmptyString ->
  let d := Scenario.disk_of c_index c_readme node_modules (File png_bytes png_text) in
  let w := Scenario.world_of c_index c_readme node_modules (File png_bytes png_text) in
  (exists r,
      getFileStructure d Scenario.this = Return r
      /\ total_files r = 3
      /\ tr_languages r = {[ "JavaScript" := 1 ]}
      /\ map fi_path (tr_files r) = ["index.js"; "image.png"; "README.md"]
      /\ map fi_size (tr_files r) = [500%N; png_bytes; 200%N])
  /\ getMainFiles d Scenario.this = Return ["README.md"; "index.js"; "image.png"]
  /\ map _getFileImportance ["README.md"; "index.js"; "image.png"] = [100; 80; 10]%Z
  /\ readFileContent (tree_ops d) Scenario.this "image.png" 50000 = Return None
  /\ _isBinaryFile "image.png" = true
  /\ ignores (ignore_add defaultPatterns ignore_new) "node_modules" = Return true
  /\ exists m,
      read_contents (take 50 ["README.md"; "index.js"; "image.png"]) ∅ w = (Return m, w)
      /\ m = {[ "README.md" := c_readme; "index.js" := c_index ]}
      /\ dom m = {[ "README.md"; "index.js" ]}.
Proof.
  intros Hi Hr d w.
  destruct c_index as [|ai si]; [done|]. destruct c_readme as [|ar sr]; [done|].
  assert (Hpng : readFileContent (tree_ops d) Scenario.this "image.png" 50000 = Return None).
  { by apply (readFileContent_binary _ _ Scenario.tmpDir). }
  split_and!.
  - eexists. split; [vm_compute; reflexivity|]. split_and!; vm_compute; reflexivity.
  - vm_compute. reflexivity.
  - vm_compute. reflexivity.
  - exact Hpng.
  - vm_compute. reflexivity.
  - vm_compute. reflexivity.
  - destruct (read_contents_lookup ["README.md"; "index.js"; "image.png"] ∅ w
                Scenario.tmpDir eq_refl) as (m & Hm & Hl).
    assert (Hk1 : kept w "README.md" = Some (String ar sr)) by (vm_compute; reflexivity).
    assert (Hk2 : kept w "index.js" = Some (String ai si)) by (vm_compute; reflexivity).
    assert (Hk3 : kept w "image.png" = None).
    { unfold kept. change (disk w) with d. change (client w) with Scenario.this.
      by rewrite Hpng. }
    assert (Hmap : m = {[ "README.md" := String ar sr; "index.js" := String ai si ]}).
    { apply map_eq. intros p. rewrite Hl.
      destruct (decide (p = "README.md")) as [->|Hn1].
      { rewrite Hk1, lookup_insert_eq. rewrite bool_decide_eq_true_2; [done|].
        split_and!; [set_solver|done|by eexists]. }
      rewrite lookup_insert_ne by done.
      destruct (decide (p = "index.js")) as [->|Hn2].
      { rewrite Hk2, lookup_singleton_eq. rewrite bool_decide_eq_true_2; [done|].
        split_and!; [set_solver|done|by eexists]. }
      rewrite lookup_singleton_ne by done.
      rewrite bool_decide_eq_false_2; [apply lookup_empty|].
      intros (Hin & _ & Hs).
      assert (p = "image.png") as -> by set_solver.
      rewrite Hk3 in Hs. by eapply is_Some_None. }
    exists m. split_and!; [exact Hm|exact Hmap|].
    rewrite Hmap. rewrite dom_insert_L, dom_singleton_L. reflexivity.
Qed.

(** ** The handler and the cleanup of the clone *)

Lemma removals_app t1 t2 : removals (t1 ++ t2) = removals t1 + removals t2.
Proof. unfold removals. by rewrite List.filter_app, length_app. Qed.

Create HintDb quiet.

Lemma quiet_ret {A} (v : A) : quiet (ret v).
Proof. intros w. exists []. by rewrite app_nil_r. Qed.

Lemma quiet_throw {A} (e : string) : quiet (@throw A e).
Proof. intros w. exists []. by rewrite app_nil_r. Qed.

Lemma quiet_lift {A} (c : completion A) : quiet (lift c).
Proof. intros w. exists []. by rewrite app_nil_r. Qed.

Lemma quiet_get_client : quiet get_client.
Proof. intros w. exists []. by rewrite app_nil_r. Qed.

Lemma quiet_get_disk : quiet get_disk.
Proof. intros w. exists []. by rewrite app_nil_r. Qed.

Lemma quiet_set_client c : quiet (set_client c).
Proof. intros w. exists []. simpl. by rewrite app_nil_r. Qed.

Lemma quiet_on_disk {A} (f : node -> completion A * node) : quiet (on_disk f).
Proof.
  intros w. exists []. unfold on_disk. destruct (f (disk w)). simpl.
  by rewrite app_nil_r.
Qed.

Lemma quiet_emit e : is_remove e = false -> quiet (emit e).
Proof.
  intros He w. exists [e]. split; [reflexivity|].
  unfold removals. simpl. by rewrite He.
Qed.

Lemma quiet_bind {A B} (m : M A) (k : A -> M B) :
  quiet m -> (forall v, quiet (k v)) -> quiet (bind m k).
Proof.
  intros Hm Hk w. unfold bind. destruct (Hm w) as (e1 & H1 & Hr1).
  destruct (m w) as [[v|e] w1]; simpl in *.
  - destruct (Hk v w1) as (e2 & H2 & Hr2). exists (e1 ++ e2)%list.
    rewrite H2, H1, <- app_assoc, removals_app. split; [reflexivity|lia].
  - by exists e1.
Qed.

Lemma quiet_try_catch {A} (m : M A) (h : string -> M A) :
  quiet m -> (forall e, quiet (h e)) -> quiet (try_catch m h).
Proof.
  intros Hm Hh w. unfold try_catch. destruct (Hm w) as (e1 & H1 & Hr1).
  destruct (m w) as [[v|e] w1]; simpl in *.
  - by exists e1.
  - destruct (Hh e w1) as (e2 & H2 & Hr2). exists (e1 ++ e2)%list.
    rewrite H2, H1, <- app_assoc, removals_app. split; [reflexivity|lia].
Qed.

#[local] Hint Resolve quiet_ret quiet_throw quiet_lift quiet_get_client quiet_get_disk
  quiet_set_client quiet_on_disk quiet_bind quiet_try_catch : quiet.
#[local] Hint Extern 1 (quiet (emit _)) => (apply quiet_emit; reflexivity) : quiet.

(** One step through the structure of a computation. *)
Ltac quiet_step :=
  first
    [ apply quiet_bind; [|intros ?]
    | apply quiet_try_catch; [|intros ?]
    | solve [auto with quiet]
    | match goal with
      | |- quiet (match ?x with _ => _ end) => destruct x
      | |- quiet (if ?b then _ else _) => destruct b
      | |- quiet (let _ := _ in _) => cbv zeta
      end ].

Section HandlerFacts.
Context `{Ignore}.
Context {Analysis Tutorial Urls : Type}.
Context (co : @Collaborators Analysis Tutorial Urls).

Lemma quiet_read_contents paths : forall m0, quiet (read_contents paths m0).
Proof.
  induction paths as [|p rest IH]; intros m0; simpl; [auto with quiet|].
  repeat quiet_step; apply IH.
Qed.

Lemma quiet_cloneRepository url : quiet (cloneRepository co url).
Proof. unfold cloneRepository. repeat quiet_step. Qed.

Lemma quiet_handler event : quiet (handler co event).
Proof.
  unfold handler, handler_body, callGetFileStructure, callGetMainFiles, new_S3Uploader.
  repeat first [ apply quiet_read_contents | apply quiet_cloneRepository | quiet_step ].
Qed.

(** The handler answers every event: whatever is thrown inside is turned
    into a response. *)
Lemma handler_returns event w : exists response, fst (handler co event w) = Return response.
Proof.
  unfold handler, try_catch. destruct (handler_body co event w) as [[r|e] w']; by eexists.
Qed.

(** [cleanup] itself does call [fs.remove] once the clone has set
    [repoPath]. *)
Lemma cleanup_removes w p :
  repoPath (client w) = Some p ->
  exists evs, trace (snd (cleanup co w)) = (trace w ++ EvRemove p :: evs)%list.
Proof.
  intros Hp. unfold cleanup, bind, get_client, try_catch, emit, on_disk, ret. simpl.
  rewrite Hp. simpl. destruct (fs_remove co p (disk w)) as [[[]|e] d]; simpl; by exists [].
Qed.

End HandlerFacts.

#[local] Existing Instance IgnorePackage.package.

(** C1 does not hold of the code: the handler never calls the cleanup.
    Whatever the event, the matcher and the collaborators do, the
    handler returns a response and its log holds no call of
    [fs.remove]. In the run where every collaborator succeeds it reaches
    the clone, answers 200 and returns with the temporary directory
    still recorded in the client; in the run where the analysis fails
    after the clone it answers 500, again without a call of
    [fs.remove]. *)
Theorem handler_never_calls_cleanup :
  (forall (I : Ignore) (Analysis Tutorial Urls : Type)
          (co : @Collaborators Analysis Tutorial Urls) (event : LambdaEvent) (w : World),
      exists response evs,
        fst (handler co event w) = Return response
        /\ trace (snd (handler co event w)) = (trace w ++ evs)%list
        /\ removals evs = 0)
  /\ (let '(r, w') := handler Run.co Run.event Run.start in
      r = Return {| statusCode := 200; success := true; error := None |}
      /\ trace w' = [EvTmpDir; EvClone Run.url Scenario.tmpDir; EvAnalyze; EvMarkdown]
      /\ repoPath (client w') = Some Scenario.tmpDir
      /\ removals (trace w') = 0)
  /\ (let '(r, w') := handler Run.co_analysis_fails Run.event Run.start in
      r = Return (createErrorResponse 500
                    "Analysis failed: Bedrock invocation failed: throttled")
      /\ trace w' = [EvTmpDir; EvClone Run.url Scenario.tmpDir; EvAnalyze]
      /\ repoPath (client w') = Some Scenario.tmpDir
      /\ removals (trace w') = 0).
Proof.
  split_and!.
  - intros I Analysis Tutorial Urls co event w.
    destruct (handler_returns co event w) as [response Hr].
    destruct (quiet_handler co event w) as (evs & Ht & Hn).
    by exists response, evs.
  - vm_compute. split_and!; reflexivity.
  - vm_compute. split_and!; reflexivity.
Qed.

(** Had the handler called [cleanup] at the end of the successful run,
    the log would hold the removal of the temporary directory. *)
Example cleanup_after_run :
  trace (snd (cleanup Run.co (snd (handler Run.co Run.event Run.start))))
  = [EvTmpDir; EvClone Run.url Scenario.tmpDir; EvAnalyze; EvMarkdown;
     EvRemove Scenario.tmpDir].
Proof. vm_compute. reflexivity. Qed.

(** ** The parser of the model's answers *)

Module ResponseTextFacts.
Import JsString ResponseText.
Local Open Scope list_scope.

Lemma elem_of_rev {A} (x : A) (l : list A) : x ∈ rev l <-> x ∈ l.
Proof. rewrite !list_elem_of_In. symmetry. apply in_rev. Qed.

Lemma chars_of_chars l : chars (of_chars l) = l.
Proof. apply list_ascii_of_string_of_list_ascii. Qed.

Lemma of_chars_chars s : of_chars (chars s) = s.
Proof. apply string_of_list_ascii_of_string. Qed.

Lemma from_lbrace_Some l tail :
  from_lbrace l = Some tail
  <-> exists pre rest, l = pre ++ lbrace :: rest /\ (lbrace ∉ pre)
                       /\ tail = lbrace :: rest.
Proof.
  split.
  - revert tail. induction l as [|c l IH]; intros tail Hl; [discriminate|].
    simpl in Hl. case_bool_decide as Hc.
    + inversion Hl; subst. exists [], l. split_and!; [done|apply not_elem_of_nil|done].
    + destruct (IH tail Hl) as (pre & rest & -> & Hpre & ->).
      exists (c :: pre), rest. split_and!; [done| |done].
      apply not_elem_of_cons. done.
  - intros (pre & rest & -> & Hpre & ->).
    induction pre as [|c pre IH]; [reflexivity|].
    apply not_elem_of_cons in Hpre as [Hc Hpre]. cbn [app from_lbrace].
    rewrite bool_decide_eq_false_2 by done. by apply IH.
Qed.

Lemma from_lbrace_None l : from_lbrace l = None <-> lbrace ∉ l.
Proof.
  induction l as [|c l IH]; simpl.
  - split; [intros _; apply not_elem_of_nil|done].
  - case_bool_decide as Hc.
    + split; [discriminate|]. intros Hn. exfalso. apply Hn. subst. left.
    + rewrite IH. rewrite not_elem_of_cons. naive_solver.
Qed.

Lemma from_rbrace_app pre l : rbrace ∉ pre -> from_rbrace (pre ++ l) = from_rbrace l.
Proof.
  induction pre as [|c pre IH]; intros Hpre; [reflexivity|].
  apply not_elem_of_cons in Hpre as [Hc Hpre]. cbn [app from_rbrace].
  rewrite bool_decide_eq_false_2 by done. by apply IH.
Qed.

Lemma from_rbrace_nil l : from_rbrace l = [] <-> rbrace ∉ l.
Proof.
  induction l as [|c l IH]; simpl.
  - split; [intros _; apply not_elem_of_nil|done].
  - case_bool_decide as Hc.
    + split; [discriminate|]. intros Hn. exfalso. apply Hn. subst. left.
    + rewrite IH. rewrite not_elem_of_cons. naive_solver.
Qed.

Lemma from_rbrace_split l :
  exists pre, (rbrace ∉ pre) /\ l = pre ++ from_rbrace l
              /\ (from_rbrace l = [] \/ exists m, from_rbrace l = rbrace :: m).
Proof.
  induction l as [|c l (pre & Hpre & Hl & Hm)]; simpl.
  - exists []. split_and!; [apply not_elem_of_nil|done|by left].
  - case_bool_decide as Hc.
    + exists []. split_and!; [apply not_elem_of_nil|done|]. right. subst. by eexists.
    + exists (c :: pre). split_and!; [by apply not_elem_of_cons| |done].
      simpl. by rewrite <- Hl.
Qed.

(** The match is the stretch from the first opening brace of the text to
    its last closing brace. *)
Lemma regex_match_Some text m :
  regex_match text = Some m
  <-> exists pre mid post,
        chars text = pre ++ lbrace :: mid ++ rbrace :: post
        /\ (lbrace ∉ pre) /\ (rbrace ∉ post)
        /\ m = of_chars (lbrace :: mid ++ [rbrace]).
Proof.
  unfold regex_match. split.
  - destruct (from_lbrace (chars text)) as [tail|] eqn:Htail; [|discriminate].
    apply from_lbrace_Some in Htail as (pre & rest & Htext & Hpre & ->).
    destruct (from_rbrace_split (rev (lbrace :: rest))) as (post' & Hpost & Hrev & Hm).
    destruct Hm as [Hnil|[m' Hm']].
    { rewrite Hnil. discriminate. }
    rewrite Hm'. intros [= <-]. rewrite Hm' in Hrev.
    apply (f_equal (@rev ascii)) in Hrev. rewrite rev_involutive in Hrev.
    rewrite rev_app_distr in Hrev. simpl in Hrev. rewrite <- app_assoc in Hrev.
    simpl in Hrev.
    destruct (rev m') as [|c mid] eqn:Hrm.
    { simpl in Hrev. inversion Hrev. }
    simpl in Hrev. inversion Hrev; subst c.
    exists pre, mid, (rev post'). split_and!.
    + rewrite Htext. f_equal. f_equal. done.
    + done.
    + intros Hin. apply Hpost. by rewrite elem_of_rev in Hin.
    + reflexivity.
  - intros (pre & mid & post & Htext & Hpre & Hpost & ->).
    assert (Hl : from_lbrace (chars text) = Some (lbrace :: mid ++ rbrace :: post)).
    { apply from_lbrace_Some. by exists pre, (mid ++ rbrace :: post). }
    rewrite Hl.
    replace (rev (lbrace :: mid ++ rbrace :: post))
      with (rev post ++ rbrace :: rev (lbrace :: mid)).
    2:{ simpl. rewrite rev_app_distr. simpl. by rewrite <- !app_assoc. }
    rewrite from_rbrace_app.
    2:{ intros Hin. apply Hpost. by rewrite elem_of_rev in Hin. }
    simpl. f_equal. f_equal. rewrite rev_app_distr, rev_involutive. reflexivity.
Qed.

(** There is no match exactly when no closing brace follows an opening
    brace. *)
Lemma regex_match_None text :
  regex_match text = None
  <-> ~ exists pre mid post, chars text = pre ++ lbrace :: mid ++ rbrace :: post.
Proof.
  split.
  - intros Hnone (pre & mid & post & Htext).
    destruct (from_lbrace (chars text)) as [tail|] eqn:Htail.
    + apply from_lbrace_Some in Htail as (pre' & rest & Htext' & Hpre' & ->).
      unfold regex_match in Hnone.
      assert (Hl : from_lbrace (chars text) = Some (lbrace :: rest)).
      { apply from_lbrace_Some. by exists pre', rest. }
      rewrite Hl in Hnone.
      destruct (from_rbrace (rev (lbrace :: rest))) eqn:Hr; [|discriminate].
      apply from_rbrace_nil in Hr. apply Hr. rewrite elem_of_rev.
      (* the closing brace of the decomposition lies after the first
         opening brace *)
      rewrite Htext in Htext'.
      assert (Hlen : length pre' <= length pre).
      { destruct (decide (length pre' <= length pre)) as [|Hgt]; [done|].
        exfalso. apply Hpre'.
        assert (Hlk : (pre' ++ lbrace :: rest) !! length pre = Some lbrace).
        { rewrite <- Htext'. by rewrite list_lookup_middle. }
        rewrite lookup_app_l in Hlk by lia.
        by apply list_elem_of_lookup_2 in Hlk. }
      assert (Hlk : (pre ++ lbrace :: mid ++ rbrace :: post) !! (length pre + S (length mid))
                    = Some rbrace).
      { rewrite lookup_app_r by lia.
        replace (length pre + S (length mid) - length pre) with (S (length mid)) by lia.
        simpl. by rewrite list_lookup_middle. }
      rewrite Htext' in Hlk. rewrite lookup_app_r in Hlk by lia.
      by apply list_elem_of_lookup_2 in Hlk.
    + apply from_lbrace_None in Htail. apply Htail. rewrite Htext.
      apply elem_of_app. right. left.
  - intros Hno. destruct (regex_match text) as [m|] eqn:Hm; [|reflexivity].
    exfalso. apply Hno. apply regex_match_Some in Hm as (pre & mid & post & Htext & _).
    by exists pre, mid, post.
Qed.

End ResponseTextFacts.

(** C2, as the code has it. For every answer the parser returns and
    never throws. When a closing brace follows an opening brace, it
    parses the stretch from the first opening brace of the answer to
    its last closing brace and returns the value, or, when that stretch
    is not JSON, the fallback with the error [JSON parse error]; when
    there is no such stretch it returns the fallback with the error
    [Could not parse response]. The fallback holds the first 500
    characters of the answer under [raw_response]. *)
Theorem _parseJsonResponse_first_to_last_brace
    (JSON_parse : string -> completion json) (response : string) :
  (exists v, _parseJsonResponse JSON_parse response = Return v)
  /\ (forall pre mid post,
        JsString.chars response
        = (pre ++ ResponseText.lbrace :: mid ++ ResponseText.rbrace :: post)%list ->
        ResponseText.lbrace ∉ pre -> ResponseText.rbrace ∉ post ->
        _parseJsonResponse JSON_parse response
        = match JSON_parse (JsString.of_chars
                              (ResponseText.lbrace :: mid ++ [ResponseText.rbrace])) with
          | Return v => Return v
          | Throw _ => Return (ResponseText.fallback "JSON parse error" response)
          end)
  /\ ((~ exists pre mid post,
          JsString.chars response
          = (pre ++ ResponseText.lbrace :: mid ++ ResponseText.rbrace :: post)%list) ->
      _parseJsonResponse JSON_parse response
      = Return (ResponseText.fallback "Could not parse response" response))
  /\ (forall e,
        ResponseText.fallback e response
        = JObject [ (units_of "error", JString (units_of e));
                    (units_of "raw_response",
                     JString (units_of (JsString.substring0 500 response))) ])
  /\ JsString.chars (JsString.substring0 500 response) = take 500 (JsString.chars response)
  /\ length (JsString.chars (JsString.substring0 500 response)) <= 500.
Proof.
  split_and!.
  - unfold _parseJsonResponse.
    destruct (ResponseText.regex_match response); [|by eexists].
    destruct (JSON_parse s); by eexists.
  - intros pre mid post Htext Hpre Hpost. unfold _parseJsonResponse.
    assert (Hm : ResponseText.regex_match response
                 = Some (JsString.of_chars
                           (ResponseText.lbrace :: mid ++ [ResponseText.rbrace]))).
    { apply ResponseTextFacts.regex_match_Some. by exists pre, mid, post. }
    rewrite Hm. reflexivity.
  - intros Hno. unfold _parseJsonResponse.
    apply ResponseTextFacts.regex_match_None in Hno. by rewrite Hno.
  - reflexivity.
  - unfold JsString.substring0. apply ResponseTextFacts.chars_of_chars.
  - unfold JsString.substring0. rewrite ResponseTextFacts.chars_of_chars, length_take. lia.
Qed.

(** C2 as stated fails on an answer that holds two objects: its first
    top-level object is [first_object], which parses, but the code
    hands [JSON.parse] everything from the first opening brace to the
    last closing brace and returns the fallback. *)
Lemma _parseJsonResponse_not_first_object :
  SpecReading.first_top_level_object Answers.two_objects = Some Answers.first_object
  /\ Json.JSON_parse Answers.first_object = Return (JObject [ (units_of "a", JNumber "1") ])
  /\ SpecReading.parse_first_object Json.JSON_parse Answers.two_objects
     = Return (JObject [ (units_of "a", JNumber "1") ])
  /\ ResponseText.regex_match Answers.two_objects = Some Answers.two_objects
  /\ _parseJsonResponse Json.JSON_parse Answers.two_objects
     = Return (ResponseText.fallback "JSON parse error" Answers.two_objects)
  /\ _parseJsonResponse Json.JSON_parse Answers.two_objects
     <> SpecReading.parse_first_object Json.JSON_parse Answers.two_objects.
Proof.
  split_and!; try (vm_compute; reflexivity).
  vm_compute. discriminate.
Qed.

(** ** The fuel of [JSON_parse] is never exhausted *)

Module JsonFuel.
Import Json.
Local Open Scope list_scope.

Lemma skip_ws_length l : length (skip_ws l) <= length l.
Proof.
  induction l as [|c l IH]; simpl; [lia|]. destruct (is_ws c); simpl; lia.
Qed.

Lemma skip_ws_cons l c r : skip_ws l = c :: r -> length r < length l.
Proof. intros Hs. pose proof (skip_ws_length l) as Hl. rewrite Hs in Hl. simpl in Hl. lia. Qed.

Lemma span_digits_length l : length (snd (span_digits l)) <= length l.
Proof.
  induction l as [|c l IH]; simpl; [lia|].
  destruct (is_digit c); [|simpl; lia].
  destruct (span_digits l) as [ds rest]. simpl in *. lia.
Qed.

Lemma string_body_length l : forall acc units r,
  string_body l acc = Some (units, r) -> length r < length l.
Proof.
  induction l as [l IH] using (induction_ltof1 _ (@length ascii)). unfold ltof in IH.
  intros acc units r. destruct l as [|c l]; [discriminate|]. simpl.
  case_bool_decide; [intros [= _ <-]; lia|].
  destruct (is_char c "\").
  - destruct l as [|e l]; [discriminate|].
    destruct (is_char e "u").
    + destruct l as [|h1 [|h2 [|h3 [|h4 l]]]]; try discriminate.
      destruct (hex4 h1 h2 h3 h4); [|discriminate].
      intros Hb. apply IH in Hb; simpl in *; lia.
    + destruct (simple_escape e); [|discriminate].
      intros Hb. apply IH in Hb; simpl in *; lia.
  - destruct (code c <? 32)%N; [discriminate|].
    intros Hb. apply IH in Hb; simpl in *; lia.
Qed.

Lemma keyword_length w l r :
  keyword w l = Some r -> length r = length l - length (JsString.chars w).
Proof.
  unfold keyword. case_bool_decide; [|discriminate]. intros [= <-].
  apply length_drop.
Qed.

Lemma number_length l lit r : number l = Some (lit, r) -> length r < length l.
Proof.
  unfold number.
  destruct l as [|c0 l0]; [discriminate|].
  set (p := if is_char c0 "-" then ([c0], l0) else ([], c0 :: l0)).
  assert (Hp : length (snd p) <= length (c0 :: l0)).
  { subst p. destruct (is_char c0 "-"); simpl; lia. }
  destruct p as [sign l1]. simpl in Hp.
  destruct l1 as [|c r1]; [discriminate|].
  assert (Hint : forall int l2,
             (if is_char c "0" then Some ([c], r1)
              else if is_digit c
                   then let '(ds, r') := span_digits r1 in Some (c :: ds, r')
                   else None) = Some (int, l2) -> length l2 <= length r1).
  { intros int l2. destruct (is_char c "0"); [intros [= _ <-]; lia|].
    destruct (is_digit c); [|discriminate].
    pose proof (span_digits_length r1) as Hs.
    destruct (span_digits r1) as [ds r']. intros [= _ <-]. exact Hs. }
  destruct (if is_char c "0" then _ else _) as [[int l2]|]; [|discriminate].
  specialize (Hint int l2 eq_refl).
  assert (Hfrac : forall frac l3,
             match l2 with
             | [] => Some ([], l2)
             | c1 :: r2 =>
                 if is_char c1 "."
                 then match span_digits r2 with
                      | ([], _) => None
                      | (ds, r') => Some (c1 :: ds, r')
                      end
                 else Some ([], l2)
             end = Some (frac, l3) -> length l3 <= length l2).
  { intros frac l3. destruct l2 as [|c1 r2]; [intros [= _ <-]; lia|].
    destruct (is_char c1 "."); [|intros [= _ <-]; lia].
    pose proof (span_digits_length r2) as Hs.
    destruct (span_digits r2) as [[|d ds] r']; [discriminate|].
    intros [= _ <-]. simpl in *. lia. }
  destruct (match l2 with [] => _ | _ => _ end) as [[frac l3]|]; [|discriminate].
  specialize (Hfrac frac l3 eq_refl).
  assert (Hexp : forall ex l4,
             match l3 with
             | [] => Some ([], l3)
             | c2 :: r3 =>
                 if is_char c2 "e" || is_char c2 "E"
                 then
                   let '(esign, r4) :=
                     match r3 with
                     | [] => ([], r3)
                     | s :: r0 => if is_char s "+" || is_char s "-" then ([s], r0) else ([], r3)
                     end in
                   match span_digits r4 with
                   | ([], _) => None
                   | (ds, r') => Some ((c2 :: esign ++ ds), r')
                   end
                 else Some ([], l3)
             end = Some (ex, l4) -> length l4 <= length l3).
  { intros ex l4. destruct l3 as [|c2 r3]; [intros [= _ <-]; lia|].
    destruct (is_char c2 "e" || is_char c2 "E"); [|intros [= _ <-]; lia].
    set (q := match r3 with
              | [] => ([], r3)
              | s :: r0 => if is_char s "+" || is_char s "-" then ([s], r0) else ([], r3)
              end).
    assert (Hq : length (snd q) <= length r3).
    { subst q. destruct r3 as [|s r0]; simpl; [lia|].
      destruct (is_char s "+" || is_char s "-"); simpl; lia. }
    destruct q as [esign r4]. simpl in Hq.
    pose proof (span_digits_length r4) as Hs.
    destruct (span_digits r4) as [[|d ds] r']; [discriminate|].
    intros [= _ <-]. simpl in *. lia. }
  destruct (match l3 with [] => _ | _ => _ end) as [[ex l4]|]; [|discriminate].
  specialize (Hexp ex l4 eq_refl).
  intros [= _ <-]. simpl in *. lia.
Qed.

Lemma parse_fuel fuel :
  (forall l, 2 * length l + 1 <= fuel -> well_fuelled l (parse_value fuel l))
  /\ (forall l acc, 2 * length l + 2 <= fuel -> well_fuelled l (parse_elements fuel l acc))
  /\ (forall l acc, 2 * length l + 2 <= fuel -> well_fuelled l (parse_members fuel l acc)).
Proof.
  induction fuel as [|fuel (IHv & IHe & IHm)]; [split_and!; intros; lia|].
  split_and!.
  - intros l Hl. cbn [parse_value].
    destruct (skip_ws l) as [|c r] eqn:Hs; [exact I|].
    apply skip_ws_cons in Hs.
    destruct (is_char c "{").
    { destruct (skip_ws r) as [|c2 r2] eqn:Hs2; [exact I|].
      apply skip_ws_cons in Hs2.
      destruct (is_char c2 "}"); [simpl; lia|].
      pose proof (IHm r [] ltac:(lia)) as Hm.
      destruct (parse_members fuel r []); simpl in *; [lia|done|done]. }
    destruct (is_char c "[").
    { destruct (skip_ws r) as [|c2 r2] eqn:Hs2; [exact I|].
      apply skip_ws_cons in Hs2.
      destruct (is_char c2 "]"); [simpl; lia|].
      pose proof (IHe r [] ltac:(lia)) as He.
      destruct (parse_elements fuel r []); simpl in *; [lia|done|done]. }
    case_bool_decide.
    { destruct (string_body r []) as [[units r']|] eqn:Hb; [|exact I].
      apply string_body_length in Hb. simpl. lia. }
    pose proof (skip_ws_length l) as Hlen.
    destruct (keyword "true" (c :: r)) as [r'|] eqn:Hk1.
    { apply keyword_length in Hk1. simpl in *. lia. }
    destruct (keyword "false" (c :: r)) as [r'|] eqn:Hk2.
    { apply keyword_length in Hk2. simpl in *. lia. }
    destruct (keyword "null" (c :: r)) as [r'|] eqn:Hk3.
    { apply keyword_length in Hk3. simpl in *. lia. }
    destruct (number (c :: r)) as [[lit r']|] eqn:Hn; [|exact I].
    apply number_length in Hn. simpl in *. lia.
  - intros l acc Hl. cbn [parse_elements].
    pose proof (IHv l ltac:(lia)) as Hv.
    destruct (parse_value fuel l) as [v r| |]; simpl in Hv; [|exact I|done].
    destruct (skip_ws r) as [|c r'] eqn:Hs; [exact I|].
    apply skip_ws_cons in Hs.
    destruct (is_char c ",").
    { pose proof (IHe r' (v :: acc) ltac:(lia)) as He.
      destruct (parse_elements fuel r' (v :: acc)); simpl in *; [lia|done|done]. }
    destruct (is_char c "]"); simpl; [lia|exact I].
  - intros l acc Hl. cbn [parse_members].
    destruct (skip_ws l) as [|c r] eqn:Hs; [exact I|].
    apply skip_ws_cons in Hs.
    case_bool_decide; [|exact I].
    destruct (string_body r []) as [[key r1]|] eqn:Hb; [|exact I].
    apply string_body_length in Hb.
    destruct (skip_ws r1) as [|c1 r2] eqn:Hs1; [exact I|].
    apply skip_ws_cons in Hs1.
    destruct (is_char c1 ":"); [|exact I].
    pose proof (IHv r2 ltac:(lia)) as Hv.
    destruct (parse_value fuel r2) as [v r3| |]; simpl in Hv; [|exact I|done].
    destruct (skip_ws r3) as [|c3 r4] eqn:Hs3; [exact I|].
    apply skip_ws_cons in Hs3.
    destruct (is_char c3 ",").
    { pose proof (IHm r4 ((key, v) :: acc) ltac:(lia)) as Hm.
      destruct (parse_members fuel r4 ((key, v) :: acc)); simpl in *; [lia|done|done]. }
    destruct (is_char c3 "}"); simpl; [lia|exact I].
Qed.

(** [JSON_parse] never stops for lack of fuel: it returns the value or
    reports a syntax error. *)
Lemma JSON_parse_fuel text : parse_value (enough text) (JsString.chars text) <> PFuel.
Proof.
  destruct (parse_fuel (enough text)) as (Hv & _ & _).
  specialize (Hv (JsString.chars text)). unfold enough in *.
  intros Hf. rewrite Hf in Hv. apply Hv. lia.
Qed.

End JsonFuel.

(** * The theorems at concrete inputs *)

#[local] Existing Instance IgnorePackage.package.

(** The scenario with files of 500 and 200 characters. *)
Lemma scenario_walk_rank_contents_witness :
  Scenario.text 500 <> EmptyString /\ Scenario.text 200 <> EmptyString
  /\ getMainFiles Scenario.disk0 Scenario.this
     = Return ["README.md"; "index.js"; "image.png"].
Proof.
  assert (H5 : Scenario.text 500 <> EmptyString) by (vm_compute; discriminate).
  assert (H2 : Scenario.text 200 <> EmptyString) by (vm_compute; discriminate).
  split; [exact H5|]. split; [exact H2|].
  exact (proj1 (proj2 (scenario_walk_rank_contents
                         (Scenario.text 500) (Scenario.text 200) Scenario.foo
                         2048 (Return "PNG") H5 H2))).
Defined.

(** The loader on the image of the scenario. *)
Lemma readFileContent_absent_never_throws_witness :
  repoPath Scenario.this = Some Scenario.tmpDir
  /\ readFileContent (tree_ops Scenario.disk0) Scenario.this "image.png" 50000
     = Return None.
Proof.
  split; [reflexivity|].
  apply (readFileContent_absent_never_throws
           (tree_ops Scenario.disk0) Scenario.this Scenario.tmpDir "image.png" 50000
           eq_refl).
  reflexivity.
Defined.

(** A clone of 150 files, where nothing fails: all are matched, all are
    counted, a hundred are listed. *)
Lemma getFileStructure_counts_recorded_lists_100_witness :
  repoPath Scenario.this = Some Scenario.tmpDir
  /\ exists r,
      getFileStructure Large.disk0 Scenario.this = Return r
      /\ total_files r = 150
      /\ length (tr_files r) = 100
      /\ total_files r
         = length (matched (ignores (_loadGitignore (tree_ops Large.disk0) Scenario.this))
                           (node_at Large.disk0 Scenario.tmpDir) "").
Proof.
  split; [reflexivity|].
  destruct (getFileStructure_counts_recorded_lists_100 Large.disk0 Scenario.this
              Scenario.tmpDir eq_refl)
    as (r & Hr & _ & Htotal & _ & _ & Hlen & _ & _ & Hcalm).
  assert (Hc : calm (ignores (_loadGitignore (tree_ops Large.disk0) Scenario.this))
                    (node_at Large.disk0 Scenario.tmpDir) "").
  { vm_compute. repeat split. }
  destruct (Hcalm Hc) as (_ & Hmatched & _).
  exists r. split; [exact Hr|].
  split; [rewrite Htotal; vm_compute; reflexivity|].
  split; [rewrite Hlen; vm_compute; reflexivity|exact Hmatched].
Defined.

(** The empty file is read, and left out of the map. *)
Lemma empty_file_loaded_but_left_out_of_fileContents_witness :
  repoPath (client EmptyFile.world) = Some Scenario.tmpDir
  /\ readFileContent (tree_ops (disk EmptyFile.world)) (client EmptyFile.world)
                     "empty.txt" 50000
     = Return (Some EmptyString)
  /\ exists m,
      read_contents ["empty.txt"; "a.txt"] ∅ EmptyFile.world = (Return m, EmptyFile.world)
      /\ m !! "empty.txt" = None.
Proof.
  split; [reflexivity|].
  destruct (empty_file_loaded_but_left_out_of_fileContents
              EmptyFile.world Scenario.tmpDir ["empty.txt"; "a.txt"] eq_refl)
    as (Hload & m & Hm & _ & Hnone & _).
  assert (Hempty : readFileContent (tree_ops (disk EmptyFile.world)) (client EmptyFile.world)
                                   "empty.txt" 50000 = Return (Some EmptyString)).
  { apply (Hload (tree_ops (disk EmptyFile.world)) "empty.txt" 50000%N
                 (mkStats false true 0)); reflexivity. }
  split; [exact Hempty|].
  exists m. split; [exact Hm|]. by apply Hnone.
Defined.

(** A dangling link between two files: the second file is not met. *)
Lemma stat_failure_skips_rest_of_directory_witness :
  Dangling.ig (Path.join "" "broken") = Return false
  /\ node_stat Dangling.bad = Throw "ENOENT: no such file or directory, stat"
  /\ map fi_path
       (files (_walkDirectory Dangling.ig
                 (Dir (Dangling.pre ++ ("broken", Dangling.bad) :: Dangling.post)%list)
                 "" (fresh ∅)))
     = ["a.js"]
  /\ map fi_path
       (files (_walkDirectory Dangling.ig (Dir (Dangling.pre ++ Dangling.post)%list)
                 "" (fresh ∅)))
     = ["a.js"; "z.js"].
Proof.
  split; [reflexivity|]. split; [reflexivity|].
  destruct (stat_failure_skips_rest_of_directory Dangling.ig "" "broken"
              Dangling.pre Dangling.post Dangling.bad
              "ENOENT: no such file or directory, stat" eq_refl eq_refl)
    as (_ & Hdir & _).
  split; [rewrite Hdir|]; vm_compute; reflexivity.
Defined.

(** An object wrapped in prose is found and parsed. *)
Lemma _parseJsonResponse_first_to_last_brace_witness :
  _parseJsonResponse Json.JSON_parse Answers.fenced_text
  = Return (JObject [ (units_of "a", JObject [ (units_of "b", JNumber "1") ]) ]).
Proof.
  destruct (_parseJsonResponse_first_to_last_brace Json.JSON_parse Answers.fenced_text)
    as (_ & Hmatch & _).
  assert (Hpre : ResponseText.lbrace ∉ JsString.chars "Here you go: ").
  { apply (bool_decide_unpack _). vm_compute. exact I. }
  assert (Hpost : ResponseText.rbrace ∉ JsString.chars " Thanks").
  { apply (bool_decide_unpack _). vm_compute. exact I. }
  rewrite (Hmatch (JsString.chars "Here you go: ")
                  (JsString.chars (Answers.q "a" ++ ": {" ++ Answers.q "b" ++ ": 1}"))
                  (JsString.chars " Thanks") eq_refl Hpre Hpost).
  vm_compute. reflexivity.
Defined.

(** In the scenario nothing under [node_modules] is entered, and the
    default patterns let every recorded path through. *)
Lemma walk_never_enters_or_records_ignored_witness :
  let ig := ignores IgnorePackage.defaults in
  let st := _walkDirectory ig Scenario.repo0 "" (fresh ∅) in
  ("node_modules" ∉ entered st)
  /\ Forall (fun f => ig (fi_path f) = Return false) (files st).
Proof.
  intros ig st.
  destruct (walk_never_enters_or_records_ignored ig Scenario.repo0 ∅)
    as [Hentered Hfiles].
  split.
  - intros Hin. destruct (Hentered _ Hin) as [[Hroot|Hlet] _]; discriminate.
  - apply Forall_forall. intros f Hf. by destruct (Hfiles f Hf) as [Hpath _].
Defined.

(** * Further properties *)

(** ** Strings and their characters *)

Module StringFacts.
Import JsString ResponseTextFacts.
Local Open Scope list_scope.

Lemma chars_app (a b : string) : chars (a ++ b)%string = chars a ++ chars b.
Proof. induction a as [|c a IH]; simpl; [reflexivity|]. by rewrite IH. Qed.

Lemma of_chars_app (a b : list ascii) : of_chars (a ++ b) = (of_chars a ++ of_chars b)%string.
Proof. induction a as [|c a IH]; simpl; [reflexivity|]. by rewrite IH. Qed.

Lemma chars_inj a b : chars a = chars b -> a = b.
Proof. intros Hab. by rewrite <- (of_chars_chars a), Hab, of_chars_chars. Qed.

Lemma chars_nil s : chars s = [] <-> s = EmptyString.
Proof. destruct s; simpl; split; (done || discriminate). Qed.

Lemma endsWith_app base suffix : endsWith (base ++ suffix)%string suffix = true.
Proof.
  unfold endsWith. apply bool_decide_eq_true_2.
  rewrite chars_app, length_app.
  replace (length (chars base) + length (chars suffix) - length (chars suffix))
    with (length (chars base)) by lia.
  by rewrite drop_app_length.
Qed.

Lemma dropEnd_app base suffix :
  dropEnd (length (chars suffix)) (base ++ suffix)%string = base.
Proof.
  unfold dropEnd. rewrite chars_app, length_app.
  replace (length (chars base) + length (chars suffix) - length (chars suffix))
    with (length (chars base)) by lia.
  by rewrite take_app_length, of_chars_chars.
Qed.

(** A string that ends with [suffix] is some string followed by it. *)
Lemma endsWith_true s suffix :
  endsWith s suffix = true ->
  s = (dropEnd (length (chars suffix)) s ++ suffix)%string.
Proof.
  unfold endsWith, dropEnd. intros Hd. apply bool_decide_eq_true_1 in Hd.
  apply chars_inj. rewrite chars_app, chars_of_chars.
  rewrite <- (take_drop (length (chars s) - length (chars suffix)) (chars s)) at 1.
  by rewrite Hd.
Qed.

End StringFacts.

(** ** [extractRepoInfo] *)

Module RepoUrlFacts.
Import JsString RepoUrl StringFacts.
Local Open Scope list_scope.

Lemma span_not_slash_free run :
  Path.slash ∉ run -> span_not_slash run = (run, []).
Proof.
  induction run as [|c run IH]; intros Hrun; [reflexivity|].
  apply not_elem_of_cons in Hrun as [Hc Hrun]. simpl.
  unfold Path.is_slash. rewrite bool_decide_eq_false_2 by done.
  by rewrite IH.
Qed.

Lemma span_not_slash_stop run rest :
  Path.slash ∉ run ->
  span_not_slash (run ++ Path.slash :: rest) = (run, Path.slash :: rest).
Proof.
  induction run as [|c run IH]; intros Hrun.
  - reflexivity.
  - apply not_elem_of_cons in Hrun as [Hc Hrun]. simpl.
    unfold Path.is_slash. rewrite bool_decide_eq_false_2 by done.
    by rewrite IH.
Qed.

(** What a run of characters other than the slash looks like. *)
Lemma span_not_slash_spec l run rest :
  span_not_slash l = (run, rest) ->
  l = run ++ rest /\ (Path.slash ∉ run)
  /\ (rest = [] \/ exists rest', rest = Path.slash :: rest').
Proof.
  revert run rest. induction l as [|c l IH]; intros run rest; simpl.
  - intros [= <- <-]. split_and!; [done|apply not_elem_of_nil|by left].
  - unfold Path.is_slash. case_bool_decide as Hc.
    + intros [= <- <-]. subst c.
      split_and!; [done|apply not_elem_of_nil|right; by eexists].
    + destruct (span_not_slash l) as [run' rest'] eqn:Hs. intros [= <- <-].
      destruct (IH run' rest' eq_refl) as (-> & Hrun & Hrest).
      split_and!; [done|by apply not_elem_of_cons|done].
Qed.

Lemma strip_prefix_app pre l : strip_prefix pre (pre ++ l) = Some l.
Proof.
  induction pre as [|c pre IH]; simpl; [by destruct l|].
  by rewrite bool_decide_eq_true_2.
Qed.

Lemma strip_prefix_Some pre l rest : strip_prefix pre l = Some rest -> l = pre ++ rest.
Proof.
  revert l. induction pre as [|c pre IH]; intros l; simpl.
  - destruct l; by intros [= <-].
  - destruct l as [|d l]; [discriminate|]. case_bool_decide; [|discriminate].
    intros Hs. subst d. by rewrite (IH l Hs).
Qed.

Lemma match_here_Some l owner name :
  match_here l = Some (owner, name)
  <-> exists o n tail,
        l = chars "github.com/" ++ o ++ Path.slash :: n ++ tail
        /\ o <> [] /\ n <> [] /\ (Path.slash ∉ o) /\ (Path.slash ∉ n)
        /\ (tail = [] \/ exists t, tail = Path.slash :: t)
        /\ owner = of_chars o /\ name = of_chars n.
Proof.
  unfold match_here. split.
  - destruct (strip_prefix _ l) as [l1|] eqn:Hp; [|discriminate].
    apply strip_prefix_Some in Hp.
    destruct (span_not_slash l1) as [o rest] eqn:Ho.
    apply span_not_slash_spec in Ho as (-> & Hofree & Hrest).
    destruct o as [|c o]; [discriminate|].
    destruct rest as [|sl l2]; [discriminate|].
    destruct Hrest as [|[rest' [= -> ->]]]; [discriminate|].
    destruct (span_not_slash rest') as [n tail] eqn:Hn.
    apply span_not_slash_spec in Hn as (-> & Hnfree & Htail).
    destruct n as [|d n]; [discriminate|]. intros [= <- <-].
    exists (c :: o), (d :: n), tail. by split_and!.
  - intros (o & n & tail & -> & Ho & Hn & Hofree & Hnfree & Htail & -> & ->).
    rewrite strip_prefix_app.
    rewrite span_not_slash_stop by done.
    destruct o as [|c o]; [done|].
    assert (Hspan : span_not_slash (n ++ tail) = (n, tail)).
    { destruct Htail as [->|[t ->]].
      - rewrite app_nil_r. by apply span_not_slash_free.
      - by apply span_not_slash_stop. }
    rewrite Hspan. by destruct n.
Qed.

Lemma match_here_head c l : c <> "g"%char -> match_here (c :: l) = None.
Proof.
  intros Hc. unfold match_here. simpl.
  rewrite bool_decide_eq_false_2; [reflexivity|]. by intros <-.
Qed.

Lemma search_skip pre l : "g"%char ∉ pre -> search (pre ++ l) = search l.
Proof.
  induction pre as [|c pre IH]; intros Hpre; [reflexivity|].
  apply not_elem_of_cons in Hpre as [Hc Hpre].
  cbn [app search]. rewrite match_here_head by done. by apply IH.
Qed.

Lemma search_here l m : match_here l = Some m -> search l = Some m.
Proof.
  intros Hm. destruct l as [|c l]; [by vm_compute in Hm|].
  cbn [search]. by rewrite Hm.
Qed.

Lemma search_Some l m :
  search l = Some m -> exists pre rest, l = pre ++ rest /\ match_here rest = Some m.
Proof.
  induction l as [|c l IH]; simpl.
  - discriminate.
  - destruct (match_here (c :: l)) eqn:Hm.
    + intros [= <-]. by exists [], (c :: l).
    + intros Hs. destruct (IH Hs) as (pre & rest & -> & Hr). by exists (c :: pre), rest.
Qed.

End RepoUrlFacts.

(** X1. A URL made of a prefix without the letter g, [github.com/], an
    owner, a slash and a repository name, possibly followed by a slash
    and more, gives back that owner and that name without its [.git]
    ending, when owner and name are non-empty and hold no slash. *)
Theorem extractRepoInfo_canonical (scheme owner name tail : string) :
  "g"%char ∉ JsString.chars scheme ->
  owner <> EmptyString -> name <> EmptyString ->
  Path.slash ∉ JsString.chars owner -> Path.slash ∉ JsString.chars name ->
  tail = EmptyString \/ (exists t, tail = "/" ++ t) ->
  extractRepoInfo (scheme ++ "github.com/" ++ owner ++ "/" ++ name ++ tail)
  = Return (owner, without_git name).
Proof.
  intros Hscheme Ho Hn Hofree Hnfree Htail. unfold extractRepoInfo.
  rewrite !StringFacts.chars_app. rewrite RepoUrlFacts.search_skip by done.
  rewrite (RepoUrlFacts.search_here _ (owner, name)); [reflexivity|].
  apply RepoUrlFacts.match_here_Some.
  exists (JsString.chars owner), (JsString.chars name), (JsString.chars tail).
  split_and!; try done.
  - by rewrite StringFacts.chars_nil.
  - by rewrite StringFacts.chars_nil.
  - destruct Htail as [->|[t ->]]; [by left|right]. by eexists.
  - by rewrite ResponseTextFacts.of_chars_chars.
  - by rewrite ResponseTextFacts.of_chars_chars.
Qed.

(** X2. Whatever the URL, [extractRepoInfo] throws its one error or
    returns an owner and a name read off the URL after [github.com/]:
    the owner is not empty, neither holds a slash, and the name is what
    stands between the second slash and the next one, without its
    [.git] ending; so the name may be empty, when the URL names the
    repository [.git]. *)
Theorem extractRepoInfo_sound (githubUrl : string) :
  match extractRepoInfo githubUrl with
  | Throw message =>
      message = "Failed to extract repo info: Invalid GitHub URL format"
  | Return (owner, repoName) =>
      owner <> EmptyString
      /\ (Path.slash ∉ JsString.chars owner)
      /\ (Path.slash ∉ JsString.chars repoName)
      /\ exists pre name tail,
           githubUrl = pre ++ "github.com/" ++ owner ++ "/" ++ name ++ tail
           /\ name <> EmptyString
           /\ (Path.slash ∉ JsString.chars name)
           /\ (tail = EmptyString \/ exists t, tail = "/" ++ t)
           /\ repoName = without_git name
           /\ (repoName = EmptyString <-> name = ".git")
  end.
Proof.
  unfold extractRepoInfo.
  destruct (RepoUrl.search (JsString.chars githubUrl)) as [[owner name]|] eqn:Hs;
    [|reflexivity].
  apply RepoUrlFacts.search_Some in Hs as (pre & rest & Hurl & Hm).
  apply RepoUrlFacts.match_here_Some in Hm
    as (o & n & tail & -> & Ho & Hn & Hofree & Hnfree & Htail & -> & ->).
  fold (without_git (JsString.of_chars n)).
  assert (Hname : Path.slash ∉ JsString.chars (without_git (JsString.of_chars n))).
  { unfold without_git. destruct (JsString.endsWith _ _); [|by rewrite ResponseTextFacts.chars_of_chars].
    unfold JsString.dropEnd. rewrite !ResponseTextFacts.chars_of_chars.
    intros Hin. apply Hnfree. eapply elem_of_prefix; [exact Hin|apply prefix_take]. }
  split_and!.
  - intros He. apply Ho. apply StringFacts.chars_nil in He.
    by rewrite ResponseTextFacts.chars_of_chars in He.
  - by rewrite ResponseTextFacts.chars_of_chars.
  - exact Hname.
  - exists (JsString.of_chars pre), (JsString.of_chars n), (JsString.of_chars tail).
    split_and!.
    + apply StringFacts.chars_inj. rewrite Hurl.
      rewrite !StringFacts.chars_app, !ResponseTextFacts.chars_of_chars. reflexivity.
    + intros He. apply Hn. apply StringFacts.chars_nil in He.
      by rewrite ResponseTextFacts.chars_of_chars in He.
    + by rewrite ResponseTextFacts.chars_of_chars.
    + destruct Htail as [->|[t ->]]; [by left|right].
      exists (JsString.of_chars t). reflexivity.
    + reflexivity.
    + unfold without_git. split.
      * destruct (JsString.endsWith (JsString.of_chars n) ".git") eqn:He.
        -- intros Hd. apply StringFacts.endsWith_true in He. simpl in He.
           by rewrite Hd in He.
        -- intros Hd. exfalso. apply Hn. apply StringFacts.chars_nil in Hd.
           by rewrite ResponseTextFacts.chars_of_chars in Hd.
      * intros ->. reflexivity.
Qed.

(** ** Scores, languages and binary files *)

Module PathFacts.
Import JsString Path ResponseTextFacts StringFacts.
Local Open Scope list_scope.

Lemma lower_char_slash c : is_slash (lower_char c) = is_slash c.
Proof. by destruct c as [[] [] [] [] [] [] [] []]. Qed.

Lemma lower_char_dot c : is_dot (lower_char c) = is_dot c.
Proof. by destruct c as [[] [] [] [] [] [] [] []]. Qed.

Lemma lower_char_idem c : lower_char (lower_char c) = lower_char c.
Proof. by destruct c as [[] [] [] [] [] [] [] []]. Qed.

Lemma chars_toLowerCase s : chars (toLowerCase s) = map lower_char (chars s).
Proof. unfold toLowerCase. by rewrite chars_of_chars. Qed.

Lemma toLowerCase_of_chars l : toLowerCase (of_chars l) = of_chars (map lower_char l).
Proof. unfold toLowerCase. by rewrite chars_of_chars. Qed.

Lemma toLowerCase_idem s : toLowerCase (toLowerCase s) = toLowerCase s.
Proof.
  unfold toLowerCase. rewrite chars_of_chars, <- list_fmap_compose.
  f_equal. apply list_fmap_ext. intros _ c _. apply lower_char_idem.
Qed.

Lemma skip_slashes_lower l :
  skip_slashes (map lower_char l) = map lower_char (skip_slashes l).
Proof.
  induction l as [|c l IH]; [reflexivity|]. cbn [map skip_slashes].
  rewrite lower_char_slash. by destruct (is_slash c).
Qed.

Lemma upto_slash_lower l :
  upto_slash (map lower_char l) = map lower_char (upto_slash l).
Proof.
  induction l as [|c l IH]; [reflexivity|]. cbn [map upto_slash].
  rewrite lower_char_slash. destruct (is_slash c); [reflexivity|].
  cbn [map]. by rewrite IH.
Qed.

Lemma last_component_rev_lower s :
  last_component_rev (toLowerCase s) = map lower_char (last_component_rev s).
Proof.
  unfold last_component_rev.
  by rewrite chars_toLowerCase, <- map_rev, skip_slashes_lower, upto_slash_lower.
Qed.

Lemma upto_slash_free l : slash ∉ upto_slash l.
Proof.
  induction l as [|c l IH]; cbn [upto_slash]; [apply not_elem_of_nil|].
  unfold is_slash. case_bool_decide; [apply not_elem_of_nil|].
  by apply not_elem_of_cons.
Qed.

Lemma upto_slash_id l : slash ∉ l -> upto_slash l = l.
Proof.
  induction l as [|c l IH]; [reflexivity|]. intros [Hc Hl]%not_elem_of_cons.
  cbn [upto_slash]. unfold is_slash. rewrite bool_decide_eq_false_2 by done.
  by rewrite IH.
Qed.

Lemma skip_slashes_id l : slash ∉ l -> skip_slashes l = l.
Proof.
  destruct l as [|c l]; [reflexivity|]. intros [Hc Hl]%not_elem_of_cons.
  cbn [skip_slashes]. unfold is_slash. by rewrite bool_decide_eq_false_2.
Qed.

Lemma last_component_rev_free s : slash ∉ last_component_rev s.
Proof. apply upto_slash_free. Qed.

(** The last component of a string without a slash is the string. *)
Lemma last_component_rev_plain s :
  slash ∉ chars s -> last_component_rev s = rev (chars s).
Proof.
  intros Hs. unfold last_component_rev.
  assert (Hrev : slash ∉ rev (chars s)) by (by rewrite elem_of_rev).
  by rewrite skip_slashes_id, upto_slash_id.
Qed.

Lemma basename_free s : slash ∉ chars (basename s).
Proof.
  unfold basename. rewrite chars_of_chars.
  intros Hin. apply (last_component_rev_free s). by apply elem_of_rev.
Qed.

Lemma basename_without_slash s : slash ∉ chars s -> basename s = s.
Proof.
  intros Hs. unfold basename. rewrite last_component_rev_plain by done.
  by rewrite rev_involutive, of_chars_chars.
Qed.

Lemma last_component_rev_basename s :
  last_component_rev (basename s) = last_component_rev s.
Proof.
  rewrite last_component_rev_plain by apply basename_free.
  unfold basename. by rewrite chars_of_chars, rev_involutive.
Qed.

Lemma basename_lower s : basename (toLowerCase s) = toLowerCase (basename s).
Proof.
  unfold basename. by rewrite last_component_rev_lower, toLowerCase_of_chars, map_rev.
Qed.

Lemma extname_ext_of s : extname s = ext_of (last_component_rev s).
Proof. reflexivity. Qed.

Lemma extname_basename s : extname (basename s) = extname s.
Proof. by rewrite !extname_ext_of, last_component_rev_basename. Qed.

Lemma cut_at_dot_lower ext l :
  cut_at_dot (map lower_char ext) (map lower_char l)
  = prod_map (map lower_char) (map lower_char) <$> cut_at_dot ext l.
Proof.
  revert ext. induction l as [|c l IH]; intros ext; [reflexivity|].
  cbn [map cut_at_dot]. rewrite lower_char_dot.
  destruct (is_dot c); [reflexivity|]. apply (IH (c :: ext)).
Qed.

Lemma lower_char_is_dot c : lower_char c = dot <-> c = dot.
Proof.
  pose proof (lower_char_dot c) as Hd. unfold is_dot in Hd.
  split; intros Hc.
  - rewrite bool_decide_eq_true_2 in Hd by done. symmetry in Hd.
    by apply bool_decide_eq_true_1 in Hd.
  - by subst c.
Qed.

Lemma two_dots_lower comp :
  map lower_char comp = [dot; dot] <-> comp = [dot; dot].
Proof.
  split; [|by intros ->].
  destruct comp as [|a [|b [|c comp]]]; cbn [map]; intros Heq;
    try discriminate Heq.
  injection Heq as Ha Hb.
  apply (proj1 (lower_char_is_dot _)) in Ha.
  apply (proj1 (lower_char_is_dot _)) in Hb. by subst.
Qed.

Lemma ext_of_lower comp :
  ext_of (map lower_char comp) = toLowerCase (ext_of comp).
Proof.
  unfold ext_of. change (@nil ascii) with (map lower_char []) at 1.
  rewrite (cut_at_dot_lower [] comp).
  destruct (cut_at_dot [] comp) as [[ext before]|]; [|reflexivity].
  cbn [fmap option_fmap option_map prod_map fst snd].
  destruct before as [|b before]; [reflexivity|]. cbn [map].
  rewrite (bool_decide_ext _ _ (two_dots_lower comp)).
  case_bool_decide; [reflexivity|].
  rewrite toLowerCase_of_chars. reflexivity.
Qed.

Lemma extname_lower s : extname (toLowerCase s) = toLowerCase (extname s).
Proof. by rewrite !extname_ext_of, last_component_rev_lower, ext_of_lower. Qed.

(** The lowered extension, from the lowered name of the file. *)
Lemma lower_extname s :
  toLowerCase (extname s) = extname (toLowerCase (basename s)).
Proof. by rewrite extname_lower, extname_basename. Qed.

End PathFacts.

(** X3. The score, the language and the binary test of a path depend
    only on its last component, letter case apart: two paths whose file
    names agree once lowered are scored alike, wherever they lie. *)
Theorem _getFileImportance_by_lowered_name (p q : string) :
  JsString.toLowerCase (Path.basename p) = JsString.toLowerCase (Path.basename q) ->
  _getFileImportance p = _getFileImportance q
  /\ _isBinaryFile p = _isBinaryFile q
  /\ _getLanguageFromExtension (JsString.toLowerCase (Path.extname p))
     = _getLanguageFromExtension (JsString.toLowerCase (Path.extname q)).
Proof.
  intros Hname.
  assert (Hext : JsString.toLowerCase (Path.extname p)
                 = JsString.toLowerCase (Path.extname q)).
  { by rewrite !PathFacts.lower_extname, Hname. }
  unfold _getFileImportance, _isBinaryFile. by rewrite Hname, Hext.
Qed.

Section TopOfDescending.
Context {A : Type} (key : A -> Z).

Lemma descending_filter_take (k : Z) (l : list A) :
  descending key l ->
  filter (fun a => (k <= key a)%Z) l
  = take (length (filter (fun a => (k <= key a)%Z) l)) l.
Proof.
  unfold descending. induction 1 as [|x l Hl IH Hx]; [reflexivity|].
  rewrite filter_cons. case_decide as Hk.
  - cbn [length take]. by rewrite <- IH.
  - replace (filter (fun a => (k <= key a)%Z) l) with (@nil A); [reflexivity|].
    symmetry. clear IH Hl. induction l as [|b l IHl]; [reflexivity|].
    inversion Hx as [|? ? Hb Hrest]; subst.
    rewrite filter_cons, decide_False by lia. by apply IHl.
Qed.

Lemma descending_take_closed (n : nat) (l : list A) (a b : A) :
  descending key l -> a ∈ take n l -> b ∈ l -> (key a < key b)%Z -> b ∈ take n l.
Proof.
  unfold descending. intros Hl Ha Hb Hlt.
  rewrite <- (take_drop n l) in Hb. apply elem_of_app in Hb as [Hb|Hb]; [done|].
  rewrite <- (take_drop n l) in Hl.
  pose proof (StronglySorted_app_1_elem_of _ _ _ a b Hl Ha Hb) as Hab.
  cbn in Hab. lia.
Qed.

End TopOfDescending.

(** X4. A path is among the main files when at most twenty of the paths
    score as high as it does or higher. *)
Theorem rankPaths_keeps_the_best (paths : list string) (p : string) :
  p ∈ paths ->
  length (filter (fun q => (_getFileImportance p <= _getFileImportance q)%Z) paths) <= 20 ->
  p ∈ rankPaths paths.
Proof.
  intros Hp Hcount. unfold rankPaths.
  pose proof (sort_perm _getFileImportance byImportance byImportance_key paths) as Hperm. fold (sortedFiles paths) in Hperm.
  pose proof (sort_descending _getFileImportance byImportance byImportance_key paths)
    as Hdesc. fold (sortedFiles paths) in Hdesc.
  pose proof (descending_filter_take _ (_getFileImportance p) _ Hdesc) as Htake.
  set (high := fun q => (_getFileImportance p <= _getFileImportance q)%Z) in *.
  assert (Hin : p ∈ filter high (sortedFiles paths)).
  { apply list_elem_of_filter. split; [unfold high; lia|by rewrite Hperm]. }
  assert (Hlen : length (filter high (sortedFiles paths)) = length (filter high paths))
    by (by rewrite Hperm).
  rewrite Htake, Hlen in Hin.
  eapply elem_of_prefix; [exact Hin|].
  exists (drop (length (filter high paths)) (take 20 (sortedFiles paths))).
  rewrite <- (take_drop (length (filter high paths)) (take 20 (sortedFiles paths))) at 1.
  f_equal. rewrite take_take. f_equal. lia.
Qed.

(** X5. The cut at twenty never prefers a lower score: beside a main
    file, every path that scores higher is a main file too. *)
Theorem rankPaths_never_prefers_lower (paths : list string) (p q : string) :
  p ∈ rankPaths paths -> q ∈ paths ->
  (_getFileImportance p < _getFileImportance q)%Z ->
  q ∈ rankPaths paths.
Proof.
  intros Hp Hq Hlt. unfold rankPaths in *.
  pose proof (sort_perm _getFileImportance byImportance byImportance_key paths) as Hperm. fold (sortedFiles paths) in Hperm.
  pose proof (sort_descending _getFileImportance byImportance byImportance_key paths)
    as Hdesc. fold (sortedFiles paths) in Hdesc.
  apply (descending_take_closed _getFileImportance 20 _ p q Hdesc Hp); [|exact Hlt].
  by rewrite Hperm.
Qed.

(** X6. The tables agree on binary files: a path that [_isBinaryFile]
    takes for binary has no language, and the lowest score, 10. *)
Theorem binary_file_scores_10_without_language (p : string) :
  _isBinaryFile p = true ->
  _getFileImportance p = 10%Z
  /\ _getLanguageFromExtension (JsString.toLowerCase (Path.extname p)) = None.
Proof.
  unfold _isBinaryFile, _getFileImportance, includes. intros Hbin.
  apply bool_decide_eq_true_1 in Hbin.
  rewrite PathFacts.lower_extname in *.
  set (fileName := JsString.toLowerCase (Path.basename p)) in *.
  assert (Hnames : forall l : list string,
             Forall (fun n => Path.extname n ∉ binaryExts) l -> fileName ∉ l).
  { intros l Hl Hin. rewrite Forall_forall in Hl. by apply (Hl fileName Hin). }
  rewrite !bool_decide_eq_false_2.
  - unfold binaryExts in Hbin.
    repeat (apply elem_of_cons in Hbin as [->|Hbin]; [by split|]).
    by apply elem_of_nil in Hbin.
  - apply Hnames. repeat constructor; by apply (bool_decide_unpack _).
  - apply Hnames. repeat constructor; by apply (bool_decide_unpack _).
  - apply Hnames. repeat constructor; by apply (bool_decide_unpack _).
Qed.

(** ** More on the walk *)

Section WalkInvariant.
Context (ig : string -> completion bool) (P : WalkState -> Prop).
Hypothesis P_enter : forall rel st, P st -> P (enter rel st).
Hypothesis P_record :
  forall item p rel stats st, P st -> P (record_file item p rel stats st).

Lemma walk_items_preserves rel items :
  Forall (fun e => forall rel' st, P st -> P (_walkDirectory ig (snd e) rel' st)) items ->
  forall st, P st -> P (fst (walk_items ig rel items st)).
Proof.
  induction items as [|[item child] rest IH]; intros Hch st Hst; [exact Hst|].
  apply Forall_cons in Hch as [Hchild Hch]. specialize (IH Hch).
  walk_turn ig rel item child; try exact Hst; apply IH; try exact Hst.
  - by apply Hchild.
  - by apply P_record.
Qed.

Lemma _walkDirectory_preserves n :
  forall rel st, P st -> P (_walkDirectory ig n rel st).
Proof.
  induction n as [items IH|m|bytes text| |m] using node_tree_ind; intros rel st Hst;
    try (rewrite _walkDirectory_not_Dir by discriminate; by apply P_enter).
  rewrite _walkDirectory_Dir. apply walk_items_preserves; [exact IH|by apply P_enter].
Qed.

End WalkInvariant.

Lemma files_in_snoc language l f :
  files_in language (l ++ [f])
  = files_in language l + (if decide (language_of f = Some language) then 1 else 0).
Proof.
  unfold files_in. rewrite filter_app, length_app, filter_cons, filter_nil.
  by case_decide.
Qed.

Lemma counted_record item p rel stats st :
  counted st -> counted (record_file item p rel stats st).
Proof.
  intros Hst language. unfold record_file. cbn [files languages].
  rewrite files_in_snoc. unfold language_of. cbn [fi_extension].
  specialize (Hst language) as Hl.
  destruct (_getLanguageFromExtension (JsString.toLowerCase (Path.extname item)))
    as [found|] eqn:Hfound.
  - unfold count_language. destruct (decide (found = language)) as [->|Hne].
    + rewrite lookup_insert_eq, Hl.
      repeat case_decide; simpl; try congruence; try lia; f_equal; lia.
    + rewrite lookup_insert_ne by done. rewrite Hl.
      repeat case_decide; simpl; try congruence; try lia; f_equal; lia.
  - rewrite Hl. repeat case_decide; simpl; try congruence; try lia; f_equal; lia.
Qed.

Lemma counted_walk ig n rel st : counted st -> counted (_walkDirectory ig n rel st).
Proof.
  apply _walkDirectory_preserves.
  - intros rel' st' Hst'. exact Hst'.
  - intros. by apply counted_record.
Qed.

Lemma counted_fresh : counted (fresh ∅).
Proof. intros language. cbn [fresh languages files]. by rewrite lookup_empty. Qed.

Lemma files_in_le language l : files_in language l <= length l.
Proof. apply length_filter. Qed.

(** X7. The counters that [getFileStructure] returns are those of all
    the files the walk recorded, those beyond the first hundred
    included: a language has a counter exactly when a recorded file has
    an extension of that language, and the counter is the number of such
    files. *)
Theorem getFileStructure_counts_languages_of_all_files `{Ignore}
    (disk0 : node) (this : GitHubClient) (root : string) :
  repoPath this = Some root ->
  let all := files (walk_repository disk0 this root ∅) in
  exists r,
    getFileStructure disk0 this = Return r
    /\ (forall language,
          tr_languages r !! language
          = if decide (files_in language all = 0) then None
            else Some (files_in language all))
    /\ (forall language n,
          tr_languages r !! language = Some n -> 0 < n <= total_files r).
Proof.
  intros Hroot all. unfold getFileStructure. rewrite Hroot. fold all.
  eexists. split; [reflexivity|]. cbn [tr_languages total_files].
  assert (Hc : counted (walk_repository disk0 this root ∅)).
  { unfold walk_repository. apply counted_walk, counted_fresh. }
  split; [exact Hc|].
  intros language n. rewrite (Hc language). fold all. case_decide; [discriminate|].
  intros [= <-]. pose proof (files_in_le language all). lia.
Qed.

(** X8. When the root of the clone is missing or cannot be listed, the
    two entry points still return: an empty structure and no main
    file. *)
Theorem unlistable_root_gives_empty_structure `{Ignore}
    (disk0 : node) (this : GitHubClient) (root : string) :
  repoPath this = Some root ->
  (forall items, node_at disk0 root <> Dir items) ->
  getFileStructure disk0 this
  = Return {| total_files := 0; tr_languages := ∅; tr_files := [] |}
  /\ getMainFiles disk0 this = Return [].
Proof.
  intros Hroot Hdir. unfold getFileStructure, getMainFiles, walk_repository.
  rewrite Hroot, _walkDirectory_not_Dir by exact Hdir. by split.
Qed.

(** X9. On a clone where the matcher answers for every entry and [stat]
    succeeds on every entry let through, the walk records exactly the
    files that the matcher lets through, in the order of the listings,
    a directory's files where the directory stands. *)
Theorem calm_clone_lists_matched_files `{Ignore}
    (disk0 : node) (this : GitHubClient) (root : string) :
  repoPath this = Some root ->
  let ig := ignores (_loadGitignore (tree_ops disk0) this) in
  let all := matched ig (node_at disk0 root) "" in
  calm ig (node_at disk0 root) "" ->
  (exists r, getFileStructure disk0 this = Return r
             /\ total_files r = length all /\ tr_files r = take 100 all)
  /\ getMainFiles disk0 this = Return (rankPaths (map fi_path all)).
Proof.
  intros Hroot ig all Hcalm.
  split; [by apply getFileStructure_matched|].
  unfold getMainFiles, walk_repository. rewrite Hroot. fold ig.
  by rewrite (_walkDirectory_matched ig _ "" (fresh ∅) Hcalm).
Qed.

Lemma walk_items_skip_ignored ig rel before d child after :
  ig (Path.join rel d) = Return true ->
  forall st,
    walk_items ig rel (before ++ (d, child) :: after) st
    = walk_items ig rel (before ++ after) st.
Proof.
  intros Hig. induction before as [|[name c] before IH]; intros st.
  - simpl. by rewrite Hig.
  - walk_turn ig rel name c; (apply IH || reflexivity).
Qed.

(** X10. What lies under an ignored entry has no part in the walk: the
    walk of a directory is the walk of the directory without that entry,
    whatever the entry is. *)
Theorem ignored_entry_hides_its_subtree
    (ig : string -> completion bool) (rel d : string) (child : node)
    (before after : list (string * node)) (st : WalkState) :
  ig (Path.join rel d) = Return true ->
  _walkDirectory ig (Dir (before ++ (d, child) :: after)) rel st
  = _walkDirectory ig (Dir (before ++ after)) rel st.
Proof.
  intros Hig. rewrite !_walkDirectory_Dir. f_equal.
  by apply walk_items_skip_ignored.
Qed.

(** X11. The walk only appends: the files and the calls already in the
    arrays stay where they are, and what is added after them does not
    depend on them; so the walk of one tree into arrays that another
    walk filled gives the files of the one after the files of the
    other. *)
Theorem walk_only_appends
    (ig : string -> completion bool) (n : node) (rel : string) :
  exists F E,
    (forall st, files (_walkDirectory ig n rel st) = (files st ++ F)%list
                /\ entered (_walkDirectory ig n rel st) = (entered st ++ E)%list)
    /\ forall m rel' st,
         files (_walkDirectory ig n rel (_walkDirectory ig m rel' st))
         = (files (_walkDirectory ig m rel' st) ++ F)%list.
Proof.
  destruct (_walkDirectory_frame ig n rel) as (F & E & Hadds).
  exists F, E. split.
  - intros st. apply Hadds.
  - intros m rel' st. apply Hadds.
Qed.

(** ** [path.join] on the names of a listing *)

Module JoinFacts.
Import JsString Path ResponseTextFacts StringFacts.
Local Open Scope list_scope.

Lemma plain_name_spec s :
  plain_name s = true ->
  s <> EmptyString /\ s <> "."%string /\ s <> ".."%string /\ (slash ∉ chars s).
Proof. unfold plain_name. intros Hs. by apply bool_decide_eq_true_1 in Hs. Qed.

Lemma split_go_free cur x : slash ∉ x -> split_go cur x = [rev cur ++ x].
Proof.
  revert cur. induction x as [|c x IH]; intros cur Hx.
  - by rewrite app_nil_r.
  - apply not_elem_of_cons in Hx as [Hc Hx]. cbn [split_go].
    unfold is_slash. rewrite bool_decide_eq_false_2 by done.
    rewrite IH by done. cbn [rev]. by rewrite <- app_assoc.
Qed.

Lemma split_go_snoc cur a x :
  slash ∉ x -> split_go cur (a ++ slash :: x) = split_go cur a ++ [x].
Proof.
  intros Hx. revert cur. induction a as [|c a IH]; intros cur.
  - cbn [app split_go]. unfold is_slash. rewrite bool_decide_eq_true_2 by done.
    by rewrite split_go_free.
  - cbn [app split_go]. destruct (is_slash c); [|apply IH].
    by rewrite IH.
Qed.

Lemma split_plain x : slash ∉ chars x -> split x = [x].
Proof.
  intros Hx. unfold split. rewrite split_go_free by done.
  cbn [rev app map]. by rewrite of_chars_chars.
Qed.

Lemma split_snoc s x :
  slash ∉ chars x -> split (s ++ "/" ++ x)%string = split s ++ [x].
Proof.
  intros Hx. unfold split. rewrite !chars_app.
  change (chars "/") with [slash]. cbn [app].
  rewrite split_go_snoc by done.
  rewrite map_app. cbn [map]. by rewrite of_chars_chars.
Qed.

Lemma split_root s : split ("/" ++ s)%string = EmptyString :: split s.
Proof. reflexivity. Qed.

Lemma join_with_slash_snoc names x :
  names <> [] ->
  join_with_slash (names ++ [x]) = (join_with_slash names ++ "/" ++ x)%string.
Proof.
  destruct names as [|n names]; [done|]. intros _.
  cbn [app join_with_slash]. by rewrite fold_left_app.
Qed.

Lemma string_app_assoc (a b c : string) : ((a ++ b) ++ c = a ++ (b ++ c))%string.
Proof. apply chars_inj. by rewrite !chars_app, app_assoc. Qed.

Lemma string_app_nil_r (a : string) : (a ++ "")%string = a.
Proof. apply chars_inj. by rewrite chars_app, app_nil_r. Qed.

Lemma join_with_slash_app a b :
  a <> [] -> b <> [] ->
  join_with_slash (a ++ b) = (join_with_slash a ++ "/" ++ join_with_slash b)%string.
Proof.
  intros Ha. induction b as [|x b IH] using rev_ind; [done|]. intros _.
  destruct b as [|y b].
  - cbn [app]. by rewrite join_with_slash_snoc.
  - rewrite app_assoc.
    rewrite join_with_slash_snoc by (by destruct a).
    rewrite IH by done.
    rewrite (join_with_slash_snoc (y :: b)) by done.
    by rewrite !string_app_assoc.
Qed.

Lemma split_join_with_slash names :
  names <> [] -> Forall slash_free names -> split (join_with_slash names) = names.
Proof.
  induction names as [|x names IH] using rev_ind; [done|]. intros _ Hall.
  apply Forall_app in Hall as [Hnames Hx]. apply (proj1 (Forall_singleton _ _)) in Hx.
  destruct names as [|n names].
  - cbn [app join_with_slash fold_left]. exact (split_plain x Hx).
  - rewrite join_with_slash_snoc by done. rewrite (split_snoc _ x Hx).
    by rewrite IH.
Qed.

Lemma normalize_go_plain allowAboveRoot res names :
  Forall (fun s => plain_name s = true) names ->
  normalize_go allowAboveRoot res names = rev res ++ names.
Proof.
  revert res. induction names as [|x names IH]; intros res Hall.
  - by rewrite app_nil_r.
  - apply Forall_cons in Hall as [Hx Hall].
    apply plain_name_spec in Hx as (Hne & Hdot & Hdots & _).
    cbn [normalize_go]. rewrite !bool_decide_eq_false_2 by done. cbn [orb].
    rewrite IH by done. cbn [rev]. by rewrite <- app_assoc.
Qed.

Lemma plain_slash_free names :
  Forall (fun s => plain_name s = true) names -> Forall slash_free names.
Proof.
  intros Hall. eapply Forall_impl; [exact Hall|].
  intros s Hs. apply plain_name_spec in Hs. apply Hs.
Qed.

(** A string that starts with a plain name is not absolute, and one
    that ends with a plain name has no slash at its end. *)
Lemma isAbsolute_plain x post :
  plain_name x = true -> isAbsolute (x ++ post)%string = false.
Proof.
  intros (Hne & _ & _ & Hfree)%plain_name_spec. unfold isAbsolute.
  rewrite chars_app. destruct x as [|c x]; [done|]. cbn in *.
  apply not_elem_of_cons in Hfree as [Hc _].
  unfold is_slash. by rewrite bool_decide_eq_false_2.
Qed.

Lemma has_trailing_slash_plain pre x :
  plain_name x = true -> has_trailing_slash (pre ++ x)%string = false.
Proof.
  intros (Hne & _ & _ & Hfree)%plain_name_spec. unfold has_trailing_slash.
  rewrite chars_app, rev_app_distr.
  assert (Hrev : slash ∉ rev (chars x)) by (by rewrite elem_of_rev).
  destruct (rev (chars x)) as [|c l] eqn:Hx.
  - exfalso. apply Hne. apply chars_nil.
    rewrite <- (rev_involutive (chars x)), Hx. reflexivity.
  - cbn. apply not_elem_of_cons in Hrev as [Hc _].
    unfold is_slash. by rewrite bool_decide_eq_false_2.
Qed.

Lemma join_with_slash_head x names :
  exists post, join_with_slash (x :: names) = (x ++ post)%string.
Proof.
  cbn [join_with_slash]. revert x. induction names as [|y names IH]; intros x.
  - exists EmptyString. by rewrite string_app_nil_r.
  - cbn [fold_left]. destruct (IH (x ++ "/" ++ y)%string) as [post ->].
    exists ("/" ++ y ++ post)%string. by rewrite !string_app_assoc.
Qed.

Lemma join_with_slash_last names x :
  exists pre, join_with_slash (names ++ [x]) = (pre ++ x)%string.
Proof.
  destruct names as [|n names].
  - by exists EmptyString.
  - rewrite join_with_slash_snoc by done.
    exists (join_with_slash (n :: names) ++ "/")%string. by rewrite string_app_assoc.
Qed.

Section Plain.
Context (names : list string).
Hypothesis names_plain : Forall (fun s => plain_name s = true) names.
Hypothesis names_some : names <> [].

Lemma join_with_slash_relative : isAbsolute (join_with_slash names) = false.
Proof.
  destruct names as [|x rest]; [done|].
  apply Forall_cons in names_plain as [Hx _].
  destruct (join_with_slash_head x rest) as [post ->]. by apply isAbsolute_plain.
Qed.

Lemma join_with_slash_open : has_trailing_slash (join_with_slash names) = false.
Proof.
  destruct names as [|x rest _] using rev_ind; [done|].
  apply Forall_app in names_plain as [_ Hx]. apply (proj1 (Forall_singleton _ _)) in Hx.
  destruct (join_with_slash_last rest x) as [pre ->].
  by apply has_trailing_slash_plain.
Qed.

Lemma join_with_slash_not_empty : join_with_slash names <> EmptyString.
Proof.
  destruct names as [|x rest]; [done|].
  apply Forall_cons in names_plain as [Hx _].
  apply plain_name_spec in Hx as (Hne & _).
  destruct (join_with_slash_head x rest) as [post ->].
  destruct x; [done|discriminate].
Qed.

Lemma normalize_plain : normalize (join_with_slash names) = join_with_slash names.
Proof.
  unfold normalize.
  rewrite bool_decide_eq_false_2 by apply join_with_slash_not_empty.
  rewrite join_with_slash_relative, join_with_slash_open. cbn [negb].
  rewrite split_join_with_slash by (done || by apply plain_slash_free).
  rewrite normalize_go_plain by done. cbn [rev app].
  by rewrite bool_decide_eq_false_2 by apply join_with_slash_not_empty.
Qed.

Lemma normalize_absolute :
  normalize ("/" ++ join_with_slash names) = ("/" ++ join_with_slash names)%string.
Proof.
  unfold normalize. rewrite bool_decide_eq_false_2 by done.
  change (isAbsolute ("/" ++ join_with_slash names)) with true.
  assert (Hopen : has_trailing_slash ("/" ++ join_with_slash names) = false).
  { destruct names as [|x rest _] using rev_ind; [done|].
    apply Forall_app in names_plain as [_ Hx]. apply (proj1 (Forall_singleton _ _)) in Hx.
    destruct (join_with_slash_last rest x) as [pre ->].
    rewrite <- string_app_assoc. by apply has_trailing_slash_plain. }
  rewrite Hopen. cbn [negb]. rewrite split_root.
  rewrite split_join_with_slash by (done || by apply plain_slash_free).
  cbn [normalize_go].
  rewrite (bool_decide_eq_true_2 (EmptyString = EmptyString)) by done. cbn [orb].
  rewrite normalize_go_plain by done. cbn [rev app].
  by rewrite bool_decide_eq_false_2 by apply join_with_slash_not_empty.
Qed.

End Plain.

Lemma join_plain names x :
  Forall (fun s => plain_name s = true) names -> plain_name x = true ->
  join (join_with_slash names) x = join_with_slash (names ++ [x]).
Proof.
  intros Hnames Hx. pose proof (plain_name_spec x Hx) as (Hne & _).
  unfold join. rewrite (bool_decide_eq_false_2 (x = EmptyString)) by done.
  destruct names as [|n names].
  - cbn [join_with_slash app fold_left]. rewrite bool_decide_eq_true_2 by done.
    apply (normalize_plain [x]); [by constructor|done].
  - rewrite bool_decide_eq_false_2 by (by apply join_with_slash_not_empty).
    rewrite <- join_with_slash_snoc by done.
    apply normalize_plain; [|by destruct names].
    apply Forall_app. split; [done|by constructor].
Qed.

Lemma rel_of_plain names :
  Forall (fun s => plain_name s = true) names -> rel_of names = join_with_slash names.
Proof.
  induction names as [|x names IH] using rev_ind; intros Hall; [reflexivity|].
  apply Forall_app in Hall as [Hnames Hx]. apply (proj1 (Forall_singleton _ _)) in Hx.
  rewrite rel_of_snoc, IH by done. by apply join_plain.
Qed.

Lemma join_absolute rootnames names :
  Forall (fun s => plain_name s = true) rootnames -> rootnames <> [] ->
  Forall (fun s => plain_name s = true) names -> names <> [] ->
  join ("/" ++ join_with_slash rootnames) (join_with_slash names)
  = ("/" ++ join_with_slash (rootnames ++ names))%string.
Proof.
  intros Hroot Hr Hnames Hn. unfold join.
  rewrite (bool_decide_eq_false_2 (_ = EmptyString)) by done.
  rewrite bool_decide_eq_false_2 by (by apply join_with_slash_not_empty).
  rewrite string_app_assoc, <- join_with_slash_app by done.
  apply normalize_absolute; [by apply Forall_app|by destruct rootnames].
Qed.

Lemma below_plain names x :
  Forall (fun s => plain_name s = true) names ->
  below (join_with_slash names) x = join_with_slash (names ++ [x]).
Proof.
  intros Hnames. unfold below. destruct names as [|n names].
  - by rewrite bool_decide_eq_true_2.
  - rewrite bool_decide_eq_false_2 by (by apply join_with_slash_not_empty).
    by rewrite join_with_slash_snoc.
Qed.

End JoinFacts.

(** ** The files of the walk, as paths *)

Section ListingFacts.
Local Open Scope list_scope.

Lemma listing_ok_Dir items :
  listing_ok (Dir items) = true ->
  NoDup (map fst items)
  /\ Forall (fun e => plain_name (fst e) = true /\ listing_ok (snd e) = true) items.
Proof.
  cbn [listing_ok]. intros [Hdup Hall]%andb_prop.
  apply bool_decide_eq_true_1 in Hdup. split; [exact Hdup|]. clear Hdup.
  induction items as [|[name child] rest IH]; [constructor|].
  apply andb_prop in Hall as [[Hname Hchild]%andb_prop Hrest].
  constructor; [by split|by apply IH].
Qed.

Lemma lookup_entry_NoDup items name child :
  NoDup (map fst items) -> (name, child) ∈ items ->
  lookup_entry name items = Some child.
Proof.
  induction items as [|[n c] rest IH]; intros Hdup Hin.
  - by apply elem_of_nil in Hin.
  - cbn [map fst] in Hdup. apply NoDup_cons in Hdup as [Hn Hdup].
    cbn [lookup_entry]. apply elem_of_cons in Hin as [[= -> ->]|Hin].
    + by rewrite bool_decide_eq_true_2.
    + rewrite bool_decide_eq_false_2; [by apply IH|].
      intros ->. apply Hn. apply list_elem_of_fmap. by exists (name, child).
Qed.

Lemma path_to_listing root names n :
  listing_ok root = true -> path_to root names n ->
  Forall (fun s => plain_name s = true) names
  /\ listing_ok n = true
  /\ descend root names = Some n.
Proof.
  intros Hroot Hp. induction Hp as [n|items name child names n Hin Hp IH].
  - by split_and!.
  - apply listing_ok_Dir in Hroot as [Hdup Hall].
    rewrite Forall_forall in Hall. destruct (Hall _ Hin) as [Hname Hchild].
    destruct (IH Hchild) as (Hnames & Hn & Hdesc).
    split_and!; [by constructor|exact Hn|].
    cbn [descend]. by rewrite (lookup_entry_NoDup items name child).
Qed.

Lemma descend_app n a b :
  descend n (a ++ b) = descend n a ≫= fun m => descend m b.
Proof.
  revert n. induction a as [|x a IH]; intros n; [reflexivity|].
  cbn [app descend]. destruct n; try reflexivity.
  destruct (lookup_entry x items); [apply IH|reflexivity].
Qed.

Lemma filter_plain names :
  Forall (fun s => plain_name s = true) names ->
  filter (fun seg => seg <> EmptyString) names = names.
Proof.
  induction names as [|x names IH]; intros Hall; [reflexivity|].
  apply Forall_cons in Hall as [Hx Hall].
  apply JoinFacts.plain_name_spec in Hx as (Hne & _).
  rewrite filter_cons, decide_True by done. by rewrite IH.
Qed.

Lemma fs_lookup_absolute disk0 names :
  Forall (fun s => plain_name s = true) names -> names <> [] ->
  fs_lookup disk0 ("/" ++ Path.join_with_slash names)%string = descend disk0 names.
Proof.
  intros Hall Hne. unfold fs_lookup.
  rewrite JoinFacts.split_root, JoinFacts.split_join_with_slash
    by (done || by apply JoinFacts.plain_slash_free).
  rewrite filter_cons, decide_False by (intros Hf; by apply Hf).
  by rewrite filter_plain.
Qed.

(** What the invariant of the walk gives for a file, on a tree with
    plain names. *)
Lemma recorded_ok_plain ig root f :
  listing_ok root = true -> recorded_ok ig root f ->
  exists names text,
    Forall (fun s => plain_name s = true) (names ++ [fi_name f])
    /\ fi_directory f = Path.join_with_slash names
    /\ fi_path f = Path.join_with_slash (names ++ [fi_name f])
    /\ path_to root (names ++ [fi_name f]) (File (fi_size f) text)
    /\ descend root (names ++ [fi_name f]) = Some (File (fi_size f) text).
Proof.
  intros Hroot (names & item & bytes & text & Hp & <- & Hdir & Hpath & <- & _).
  destruct (path_to_listing _ _ _ Hroot Hp) as (Hplain & _ & Hdesc).
  exists names, text. split_and!; try done.
  - rewrite Hdir. apply JoinFacts.rel_of_plain.
    by apply Forall_app in Hplain as [? _].
  - rewrite Hpath. by apply JoinFacts.rel_of_plain.
Qed.

Lemma walk_records_ok ig root languages0 f :
  f ∈ files (_walkDirectory ig root "" (fresh languages0)) -> recorded_ok ig root f.
Proof.
  intros Hf.
  assert (Hok : walk_ok ig root (_walkDirectory ig root "" (fresh languages0))).
  { apply (walk_ok_node ig root root [] (fresh languages0)).
    - constructor.
    - intros k Hk. simpl in Hk. lia.
    - repeat split; constructor. }
  destruct Hok as (Hfiles & _). rewrite Forall_forall in Hfiles. by apply Hfiles.
Qed.

End ListingFacts.

(** X12. On a tree whose listings hold plain names, each once, the path
    recorded for a file is its directory, a slash and its name (the name
    alone at the root), and cut at its slashes it is the list of the
    entries that lead from the root to that file. *)
Theorem recorded_path_is_directory_slash_name
    (ig : string -> completion bool) (root : node) (languages0 : gmap string nat)
    (f : FileInfo) :
  listing_ok root = true ->
  f ∈ files (_walkDirectory ig root "" (fresh languages0)) ->
  fi_path f = below (fi_directory f) (fi_name f)
  /\ exists text,
       path_to root (Path.split (fi_path f)) (File (fi_size f) text)
       /\ descend root (Path.split (fi_path f)) = Some (File (fi_size f) text).
Proof.
  intros Hroot Hf. apply walk_records_ok in Hf.
  destruct (recorded_ok_plain _ _ _ Hroot Hf)
    as (names & text & Hplain & Hdir & Hpath & Hp & Hdesc).
  split.
  - rewrite Hdir, Hpath. symmetry. apply JoinFacts.below_plain.
    by apply Forall_app in Hplain as [? _].
  - exists text. rewrite Hpath.
    rewrite JoinFacts.split_join_with_slash;
      [by split|by destruct names|by apply JoinFacts.plain_slash_free].
Qed.

Lemma recorded_file_found `{Ignore}
    (disk0 : node) (this : GitHubClient) (rootnames : list string) (f : FileInfo)
    (maxSize : N) :
  let root := "/" ++ Path.join_with_slash rootnames in
  repoPath this = Some root ->
  rootnames <> [] -> Forall (fun s => plain_name s = true) rootnames ->
  listing_ok (node_at disk0 root) = true ->
  f ∈ files (walk_repository disk0 this root ∅) ->
  exists text,
    node_at disk0 (Path.join root (fi_path f)) = File (fi_size f) text
    /\ readFileContent (tree_ops disk0) this (fi_path f) maxSize
       = Return (if (maxSize <? fi_size f)%N then None
                 else if _isBinaryFile (fi_path f) then None
                 else match text with
                      | Return content => Some content
                      | Throw _ => None
                      end).
Proof.
  intros root Hroot Hne Hplain Hok Hf. unfold walk_repository in Hf.
  apply walk_records_ok in Hf.
  destruct (recorded_ok_plain _ _ _ Hok Hf)
    as (names & text & Hnames & Hdir & Hpath & Hp & Hdesc).
  assert (Hrepo : fs_lookup disk0 root = Some (node_at disk0 root)).
  { unfold node_at in *. destruct (fs_lookup disk0 root) as [repo|]; [done|].
    cbn in Hdesc. by destruct names. }
  assert (Hfound : fs_lookup disk0 (Path.join root (fi_path f))
                   = Some (File (fi_size f) text)).
  { rewrite Hpath. unfold root.
    rewrite JoinFacts.join_absolute by (done || by destruct names).
    rewrite fs_lookup_absolute by (by apply Forall_app || by destruct rootnames).
    rewrite descend_app.
    unfold root in Hrepo. rewrite fs_lookup_absolute in Hrepo by done.
    rewrite Hrepo. exact Hdesc. }
  exists text. split; [unfold node_at; by rewrite Hfound|].
  unfold readFileContent. rewrite Hroot. cbn [tree_ops pathExists stat readFile].
  unfold node_at. rewrite Hfound.
  cbn [negb default from_option id node_stat size node_readFile].
  destruct (maxSize <? fi_size f)%N; [reflexivity|].
  destruct (_isBinaryFile (fi_path f)); [reflexivity|]. by destruct text.
Qed.

(** X13. Every main file is one that [readFileContent] finds under the
    clone: on a clone whose listings hold plain names, each once, a
    path that [getMainFiles] returns, joined to the root of the clone,
    leads to a regular file, so the loader returns its text unless the
    file is too large, binary or unreadable. *)
Theorem main_files_are_found_by_readFileContent `{Ignore}
    (disk0 : node) (this : GitHubClient) (rootnames : list string)
    (ranked : list string) (p : string) (maxSize : N) :
  let root := "/" ++ Path.join_with_slash rootnames in
  repoPath this = Some root ->
  rootnames <> [] -> Forall (fun s => plain_name s = true) rootnames ->
  listing_ok (node_at disk0 root) = true ->
  getMainFiles disk0 this = Return ranked -> p ∈ ranked ->
  exists bytes text,
    node_at disk0 (Path.join root p) = File bytes text
    /\ readFileContent (tree_ops disk0) this p maxSize
       = Return (if (maxSize <? bytes)%N then None
                 else if _isBinaryFile p then None
                 else match text with
                      | Return content => Some content
                      | Throw _ => None
                      end).
Proof.
  intros root Hroot Hne Hplain Hok Hmain Hp.
  unfold getMainFiles in Hmain. rewrite Hroot in Hmain. fold root in Hmain.
  injection Hmain as <-. unfold mainFilesOf, rankPaths in Hp.
  assert (Hin : p ∈ map fi_path (files (walk_repository disk0 this root ∅))).
  { rewrite <- (sort_perm _getFileImportance byImportance byImportance_key).
    eapply elem_of_prefix; [exact Hp|apply prefix_take]. }
  apply list_elem_of_fmap in Hin as (f & -> & Hf).
  destruct (recorded_file_found disk0 this rootnames f maxSize Hroot Hne Hplain Hok Hf)
    as (text & Hnode & Hread).
  by exists (fi_size f), text.
Qed.

(** ** More on the loader *)

(** X25. The loop of the handler keeps every text it can: after it, a
    path of the list is a key of [fileContents] exactly when the loader
    returns a non-empty text for it and the path is not [__proto__],
    and its value is that text; the loop changes nothing in the world,
    and a path met twice is read twice with the same result. *)
Theorem fileContents_holds_every_loaded_text `{Ignore}
    (paths : list string) (w : World) (root : string) :
  repoPath (client w) = Some root ->
  exists fileContents,
    read_contents paths ∅ w = (Return fileContents, w)
    /\ (forall p text,
          fileContents !! p = Some text
          <-> p ∈ paths /\ p <> "__proto__" /\ text <> EmptyString
              /\ readFileContent (tree_ops (disk w)) (client w) p 50000
                 = Return (Some text))
    /\ read_contents (paths ++ paths) ∅ w = (Return fileContents, w).
Proof.
  intros Hroot.
  destruct (read_contents_lookup paths ∅ w root Hroot) as (m & Hm & Hl).
  destruct (read_contents_lookup (paths ++ paths) ∅ w root Hroot) as (m2 & Hm2 & Hl2).
  assert (Hkept : forall p text,
             kept w p = Some text
             <-> text <> EmptyString
                 /\ readFileContent (tree_ops (disk w)) (client w) p 50000
                    = Return (Some text)).
  { intros p text. unfold kept.
    destruct (readFileContent _ _ p _) as [[t|]|];
      try (split; [discriminate|intros [_ ?]; discriminate]).
    case_bool_decide as Ht.
    - split; [discriminate|]. intros [Hne [= ->]]. done.
    - split; [intros [= ->]; done|]. by intros [_ [= ->]]. }
  exists m. split_and!; [exact Hm| |].
  - intros p text. rewrite Hl, lookup_empty. case_bool_decide as Hc.
    + destruct Hc as (Hin & Hproto & _). rewrite Hkept. tauto.
    + split; [discriminate|]. intros (Hin & Hproto & Hne & Hread).
      exfalso. apply Hc. split_and!; try done.
      exists text. apply Hkept. by split.
  - rewrite Hm2. f_equal. f_equal. apply map_eq. intros p.
    rewrite Hl, Hl2. rewrite !lookup_empty.
    apply (f_equal (fun b : bool => if b then kept w p else None)).
    apply bool_decide_ext. rewrite elem_of_app. tauto.
Qed.

(** ** How many files the handler reads *)

Lemma map_size_le_keys (m : gmap string string) (keys : list string) :
  (forall p, is_Some (m !! p) -> p ∈ keys) -> base.size m <= length keys.
Proof.
  intros Hkeys. rewrite <- length_map_to_list, <- (length_fmap fst).
  apply submseteq_length, NoDup_submseteq; [apply NoDup_fst_map_to_list|].
  intros p [[p' v] [-> Hin]]%list_elem_of_fmap. apply Hkeys.
  apply elem_of_map_to_list in Hin. by exists v.
Qed.

(** X26. The handler reads at most twenty files: [getMainFiles] never
    returns more than twenty paths, so the cut at fifty in the loop of
    the handler removes nothing, and [fileContents] has at most twenty
    keys, all of them main files. *)
Theorem handler_reads_at_most_twenty_files `{Ignore} (w : World) (root : string) :
  repoPath (client w) = Some root ->
  exists mainFiles fileContents,
    callGetMainFiles w = (Return mainFiles, w)
    /\ length mainFiles <= 20
    /\ take 50 mainFiles = mainFiles
    /\ read_contents (take 50 mainFiles) ∅ w = (Return fileContents, w)
    /\ base.size fileContents <= 20
    /\ (forall p, is_Some (fileContents !! p) -> p ∈ mainFiles).
Proof.
  intros Hroot. unfold callGetMainFiles, bind, get_client, get_disk, lift, getMainFiles.
  rewrite Hroot. eexists _. 
  set (mainFiles := mainFilesOf _).
  assert (Hlen : length mainFiles <= 20).
  { unfold mainFiles, mainFilesOf, rankPaths. rewrite length_take. lia. }
  assert (Htake : take 50 mainFiles = mainFiles) by (apply take_ge; lia).
  destruct (read_contents_lookup (take 50 mainFiles) ∅ w root Hroot)
    as (fileContents & Hrun & Hlookup).
  assert (Hkeys : forall p, is_Some (fileContents !! p) -> p ∈ mainFiles).
  { intros p. rewrite Hlookup, lookup_empty. case_bool_decide as Hc.
    - intros _. rewrite <- Htake. apply Hc.
    - by intros [? ?]. }
  exists fileContents. split_and!; try done.
  pose proof (map_size_le_keys fileContents mainFiles Hkeys). lia.
Qed.

(** ** More on the handler and the client's state *)

Section ClientState.
Context `{Ignore}.
Context {Analysis Tutorial Urls : Type}.
Context (co : @Collaborators Analysis Tutorial Urls).
Local Open Scope list_scope.

Lemma silent_bind {A B} (m : M A) (k : A -> M B) :
  silent m -> (forall v, silent (k v)) -> silent (bind m k).
Proof.
  intros Hm Hk w. unfold bind. specialize (Hm w).
  destruct (m w) as [[v|e] w1]; simpl in *; subst w1; [apply Hk|reflexivity].
Qed.

Lemma silent_read_contents paths : forall m0, silent (read_contents paths m0).
Proof.
  induction paths as [|p rest IH]; intros m0; [by intros w|].
  cbn [read_contents].
  apply silent_bind; [by intros w|intros this].
  apply silent_bind; [by intros w|intros d].
  apply silent_bind; [by intros w|intros [text|]]; [|apply IH].
  case_bool_decide; apply IH.
Qed.

Lemma silent_callGetFileStructure : silent callGetFileStructure.
Proof. by intros w. Qed.

Lemma silent_callGetMainFiles : silent callGetMainFiles.
Proof. by intros w. Qed.

(** [cloneRepository], outcome by outcome. *)
Lemma cloneRepository_outcome url w :
  cloneRepository co url w
  = match tmp_dirSync co (disk w) with
    | (Throw e, d1) =>
        (Throw ("Failed to clone repository: " ++ e)%string,
         {| client := client w; disk := d1; trace := trace w ++ [EvTmpDir] |})
    | (Return dir, d1) =>
        let w2 d2 := {| client := mkClient (Some dir); disk := d2;
                        trace := trace w ++ [EvTmpDir; EvClone url dir] |} in
        match git_clone co url dir d1 with
        | (Return _, d2) => (Return dir, w2 d2)
        | (Throw e, d2) => (Throw ("Failed to clone repository: " ++ e)%string, w2 d2)
        end
    end.
Proof.
  unfold cloneRepository, try_catch, bind, emit, on_disk, set_client, ret, throw.
  cbn [disk client trace].
  destruct (tmp_dirSync co (disk w)) as [[dir|e] d1]; [|reflexivity].
  cbn [disk client trace]. rewrite <- app_assoc.
  destruct (git_clone co url dir d1) as [[[]|e] d2]; reflexivity.
Qed.

Lemma cleanup_outcome w :
  cleanup co w
  = match repoPath (client w) with
    | None => (Return tt, w)
    | Some p =>
        (Return tt,
         {| client := client w; disk := snd (fs_remove co p (disk w));
            trace := trace w ++ [EvRemove p] |})
    end.
Proof.
  unfold cleanup, bind, get_client, try_catch, emit, on_disk, ret.
  destruct (repoPath (client w)) as [p|]; [|reflexivity].
  cbn [disk client trace].
  destruct (fs_remove co p (disk w)) as [[[]|e] d]; reflexivity.
Qed.

(** X14. [cleanup] never throws, whatever [fs.remove] does; it calls
    [fs.remove] once on the directory of the clone when there is one and
    does nothing otherwise; and it leaves [repoPath] set, so that a
    second [cleanup] calls [fs.remove] on the same path again. *)
Theorem cleanup_never_throws_nor_resets (w : World) :
  let '(r, w1) := cleanup co w in
  let '(r', w2) := cleanup co w1 in
  r = Return tt /\ r' = Return tt
  /\ client w1 = client w /\ client w2 = client w
  /\ match repoPath (client w) with
     | Some p => trace w1 = trace w ++ [EvRemove p]
                 /\ trace w2 = trace w ++ [EvRemove p; EvRemove p]
     | None => w1 = w /\ w2 = w
     end.
Proof.
  rewrite cleanup_outcome.
  destruct (repoPath (client w)) as [p|] eqn:Hp.
  - rewrite cleanup_outcome. cbn [client]. rewrite Hp. cbn [trace].
    rewrite <- app_assoc. by split_and!.
  - rewrite cleanup_outcome, Hp. by split_and!.
Qed.

(** X15. A clone that fails in [git.clone] has already pointed the
    client at the temporary directory, so a [cleanup] after the failure
    removes that directory; a clone that fails in [tmp.dirSync] leaves
    the client as it was. In both cases the error is wrapped once. *)
Theorem failed_clone_can_still_be_cleaned_up (url : string) (w : World) :
  let '(r, w1) := cloneRepository co url w in
  match tmp_dirSync co (disk w) with
  | (Return dir, d1) =>
      repoPath (client w1) = Some dir
      /\ trace w1 = trace w ++ [EvTmpDir; EvClone url dir]
      /\ trace (snd (cleanup co w1)) = trace w ++ [EvTmpDir; EvClone url dir; EvRemove dir]
      /\ match fst (git_clone co url dir d1) with
         | Return _ => r = Return dir
         | Throw e => r = Throw ("Failed to clone repository: " ++ e)%string
         end
  | (Throw e, _) =>
      r = Throw ("Failed to clone repository: " ++ e)%string
      /\ client w1 = client w
      /\ trace w1 = trace w ++ [EvTmpDir]
  end.
Proof.
  rewrite cloneRepository_outcome.
  destruct (tmp_dirSync co (disk w)) as [[dir|e] d1]; [|by split_and!].
  cbv zeta.
  destruct (git_clone co url dir d1) as [[[]|e] d2]; cbn [fst];
    rewrite cleanup_outcome; cbn [client repoPath trace snd];
    rewrite <- app_assoc; by split_and!.
Qed.

(** X16. A request without a usable [github_url] is answered with 400,
    and a body that [JSON.parse] rejects with 500 and the parser's
    message; in both cases nothing was called and the world is as it
    was. *)
Theorem handler_rejects_bad_request_without_effects (event : LambdaEvent) (w : World) :
  match request_of co event with
  | Throw e => handler co event w = (Return (createErrorResponse 500 e), w)
  | Return data =>
      truthy (github_url data) = false ->
      handler co event w
      = (Return (createErrorResponse 400 "Missing required parameter: github_url"), w)
  end.
Proof.
  unfold request_of, handler, handler_body, try_catch.
  destruct (truthy (body event)).
  - unfold bind at 1, lift at 1.
    destruct (JSON_parse_body co _) as [data|e]; [|reflexivity].
    intros Hurl. by rewrite Hurl.
  - unfold bind at 1, ret at 1. intros Hurl. by rewrite Hurl.
Qed.

(** X17. When the upload is asked for, which is the default, and no
    bucket is named by the request or by the environment, the handler
    answers 500 before anything is cloned: the log is as it was. *)
Theorem handler_without_bucket_fails_before_clone
    (event : LambdaEvent) (data : RequestData) (w : World) :
  request_of co event = Return data ->
  truthy (github_url data) = true ->
  default true (upload_to_s3 data) = true ->
  truthy (s3_bucket data) = false ->
  truthy (env_S3_BUCKET_NAME co) = false ->
  fst (handler co event w)
  = Return (createErrorResponse 500
      "S3 bucket name must be provided via parameter or S3_BUCKET_NAME environment variable")
  /\ trace (snd (handler co event w)) = trace w
  /\ disk (snd (handler co event w)) = disk w.
Proof.
  unfold request_of. intros Hdata Hurl Hupload Hbucket Henv.
  assert (Hnew : forall w', new_S3Uploader co
                   match s3_bucket data with
                   | Some b => Some b
                   | None => env_S3_BUCKET_NAME co
                   end w'
                 = (Throw "S3 bucket name must be provided via parameter or S3_BUCKET_NAME environment variable", w')).
  { intros w'. unfold new_S3Uploader.
    destruct (s3_bucket data) as [b|]; [rewrite Hbucket|]; by rewrite Henv. }
  assert (Hrun : handler co event w
                 = (Return (createErrorResponse 500
                      "S3 bucket name must be provided via parameter or S3_BUCKET_NAME environment variable"),
                    {| client := mkClient None; disk := disk w; trace := trace w |})).
  { unfold handler, handler_body, try_catch.
    destruct (truthy (body event)).
    - unfold bind at 1, lift at 1. rewrite Hdata, Hurl, Hupload. cbn [negb].
      unfold bind at 1, set_client at 1. unfold bind at 1. by rewrite Hnew.
    - unfold bind at 1, ret at 1. injection Hdata as ->.
      rewrite Hurl, Hupload. cbn [negb].
      unfold bind at 1, set_client at 1. unfold bind at 1. by rewrite Hnew. }
  rewrite Hrun. by split_and!.
Qed.

End ClientState.

Section HandlerSteps.
Context `{Ignore}.
Context {Analysis Tutorial Urls : Type}.
Context (co : @Collaborators Analysis Tutorial Urls).
Local Open Scope list_scope.

(** The next computation of a sequence leaves the world as it is. *)
Ltac silent_next :=
  unfold bind at 1;
  match goal with
  | |- context [match ?m ?w with _ => _ end] =>
      let r := fresh "r" in
      let w' := fresh "w" in
      let E := fresh "E" in
      let S := fresh "S" in
      assert (S : snd (m w) = w)
        by first [ apply silent_callGetFileStructure
                 | apply silent_callGetMainFiles
                 | apply silent_read_contents ];
      destruct (m w) as [r w'] eqn:E; cbn [snd] in S; subst w';
      clear E; destruct r
  end.

(** The answer at the end of a run that failed after the calls [evs]. *)
Ltac leaf500 evs dir :=
  eexists _, _, evs; split; [reflexivity|]; cbn [trace client disk repoPath];
  split; [by rewrite ?app_nil_r, <- ?app_assoc|];
  split;
  [ exists dir; split; [unfold steps; by eexists|discriminate]
  | match goal with Hs : forall m, statusCode (createErrorResponse 500 m) ∈ _ /\ _ |- _ =>
      apply Hs end ].

(** The answer at the end of a complete run. *)
Ltac leaf200 dir upload :=
  eexists _, _, (steps _ dir upload); split; [reflexivity|];
  cbn [trace client disk repoPath];
  split; [unfold steps; cbn [app]; by rewrite <- ?app_assoc|];
  split;
  [ exists dir; split; [done|intros _; by split]
  | cbn; split_and!; [set_solver|done|done] ].

(** From the clone to the tutorial: every failure ends the run with the
    calls made so far. *)
Ltac run_to_markdown :=
  unfold bind at 1; rewrite cloneRepository_outcome; cbn [disk client trace];
  match goal with
  | |- context [tmp_dirSync ?co ?d] =>
      let dir := fresh "dir" in
      destruct (tmp_dirSync co d) as [[dir|?] ?d1];
      [|leaf500 [EvTmpDir] EmptyString];
      cbv zeta;
      match goal with
      | |- context [git_clone co ?url dir ?d1] =>
          destruct (git_clone co url dir d1) as [[[]|?] ?d2];
          [|leaf500 [EvTmpDir; EvClone url dir] dir];
          unfold bind at 1, lift at 1;
          destruct (extractRepoInfo url) as [?info|?];
          [|leaf500 [EvTmpDir; EvClone url dir] dir];
          silent_next; [|leaf500 [EvTmpDir; EvClone url dir] dir];
          silent_next; [|leaf500 [EvTmpDir; EvClone url dir] dir];
          silent_next; [|leaf500 [EvTmpDir; EvClone url dir] dir];
          unfold bind at 1, emit at 1; cbn [disk client trace];
          unfold bind at 1, lift at 1;
          destruct (analyzeFullRepository co _ _ _ _) as [?analysisResults|?];
          [|leaf500 [EvTmpDir; EvClone url dir; EvAnalyze] dir];
          unfold bind at 1, emit at 1; cbn [disk client trace];
          unfold bind at 1, lift at 1;
          destruct (generateMarkdown co _ _) as [?tutorialContent|?];
          [|leaf500 [EvTmpDir; EvClone url dir; EvAnalyze; EvMarkdown] dir]
      end
  end.

(** X18. Whatever the event and the collaborators, the handler answers
    with a response, and the calls it logs are a prefix of the steps of
    a complete run, in their order: the temporary directory, the clone,
    the analysis, the tutorial, and with an upload the saving and the
    upload. It answers 200 only after all of them, the client then
    pointing at the clone; every other answer is 400 or 500, with
    [success] false and an error message. *)
Theorem handler_steps_in_order (event : LambdaEvent) (w : World) :
  exists resp w' evs,
    handler co event w = (Return resp, w')
    /\ trace w' = trace w ++ evs
    /\ match request_of co event with
       | Throw e => resp = createErrorResponse 500 e /\ evs = []
       | Return data =>
           let url := default EmptyString (github_url data) in
           let upload := default true (upload_to_s3 data) in
           exists dir,
             evs `prefix_of` steps url dir upload
             /\ (statusCode resp = 200%Z ->
                 evs = steps url dir upload /\ repoPath (client w') = Some dir)
       end
    /\ statusCode resp ∈ [200; 400; 500]%Z
    /\ (success resp = true <-> statusCode resp = 200%Z)
    /\ (error resp = None <-> statusCode resp = 200%Z).
Proof.
  unfold handler, try_catch, handler_body, request_of.
  assert (Hstatus400 : forall m,
    statusCode (createErrorResponse 400 m) ∈ [200; 400; 500]%Z
    /\ (success (createErrorResponse 400 m) = true <-> statusCode (createErrorResponse 400 m) = 200%Z)
    /\ (error (createErrorResponse 400 m) = None <-> statusCode (createErrorResponse 400 m) = 200%Z)).
  { intros m. cbn. split_and!; [set_solver|split; discriminate|split; discriminate]. }
  assert (Hstatus500 : forall m,
    statusCode (createErrorResponse 500 m) ∈ [200; 400; 500]%Z
    /\ (success (createErrorResponse 500 m) = true <-> statusCode (createErrorResponse 500 m) = 200%Z)
    /\ (error (createErrorResponse 500 m) = None <-> statusCode (createErrorResponse 500 m) = 200%Z)).
  { intros m. cbn. split_and!; [set_solver|split; discriminate|split; discriminate]. }
  set (data0 := if truthy (body event)
                then JSON_parse_body co (default EmptyString (body event))
                else Return (fields event)).
  assert (Hparse : forall k : RequestData -> M Response,
             bind (if truthy (body event)
                   then lift (JSON_parse_body co (default EmptyString (body event)))
                   else ret (fields event)) k w
             = match data0 with
               | Return data => k data w
               | Throw e => (Throw e, w)
               end).
  { intros k. unfold data0, bind, lift, ret. by destruct (truthy (body event)). }
  rewrite Hparse. clear Hparse.
  destruct data0 as [data|e].
  2:{ eexists _, _, []. split; [reflexivity|]. rewrite app_nil_r.
      split_and!; try done; apply Hstatus500. }
  destruct (truthy (github_url data)); cbn [negb].
  2:{ eexists _, _, []. split; [reflexivity|]. rewrite app_nil_r.
      split; [done|]. split; [|apply Hstatus400].
      exists EmptyString. split; [apply prefix_nil|]. discriminate. }
  unfold bind at 1, set_client at 1. cbn [disk trace].
  set (url := default EmptyString (github_url data)).
  destruct (default true (upload_to_s3 data)) eqn:Hupload.
  - unfold bind at 1, new_S3Uploader at 1.
    destruct (truthy _ || truthy _); [unfold ret at 1|unfold throw at 1].
    run_to_markdown.
    + unfold bind, emit, on_disk, lift, ret. cbn [disk client trace].
      destruct (saveTutorialFiles co _ _ _) as [[[]|e] d3];
        [|leaf500 [EvTmpDir; EvClone url dir; EvAnalyze; EvMarkdown; EvSave] dir].
      cbn [disk client trace].
      destruct (uploadTutorialFiles co _) as [urls|e];
        [|leaf500 [EvTmpDir; EvClone url dir; EvAnalyze; EvMarkdown; EvSave; EvUpload] dir].
      leaf200 dir true.
    + leaf500 (@nil Event) EmptyString.
  - unfold bind at 1, ret at 1.
    run_to_markdown.
    unfold bind, ret. leaf200 dir false.
Qed.

End HandlerSteps.

(** ** The picture of the file structure *)

Module VisualFacts.
Import Visual.
Local Open Scope list_scope.

Lemma first_seen_snoc l x :
  first_seen (l ++ [x]) = if decide (x ∈ l) then first_seen l else first_seen l ++ [x].
Proof.
  unfold first_seen. rewrite reverse_app, reverse_singleton. cbn [app remove_dups].
  case_decide as Hin; case_decide as Hin'.
  - reflexivity.
  - exfalso. apply Hin'. by apply elem_of_reverse.
  - exfalso. apply Hin. by apply elem_of_reverse.
  - by rewrite reverse_cons.
Qed.

Lemma elem_of_first_seen l x : x ∈ first_seen l <-> x ∈ l.
Proof. unfold first_seen. by rewrite elem_of_reverse, elem_of_remove_dups, elem_of_reverse. Qed.

Lemma NoDup_first_seen l : NoDup (first_seen l).
Proof. unfold first_seen. rewrite reverse_Permutation. apply NoDup_remove_dups. Qed.




Lemma names_in_snoc d files f :
  names_in d (files ++ [f])
  = names_in d files ++ (if decide (fi_directory f = d) then [fi_name f] else []).
Proof.
  unfold names_in. rewrite filter_app, map_app, filter_cons, filter_nil.
  by case_decide.
Qed.

Lemma names_in_absent d files :
  d ∉ map fi_directory files -> names_in d files = [].
Proof.
  intros Hd. unfold names_in.
  induction files as [|f files IH]; [reflexivity|].
  cbn [map] in Hd. apply not_elem_of_cons in Hd as [Hf Hd].
  rewrite filter_cons, decide_False by done. by apply IH.
Qed.

(** A property read on the grouping. *)
Lemma lookup_literal_map {V} (value : string -> V) keys key :
  lookup_literal (map (fun d => (d, value d)) keys) key
  = if decide (key ∈ keys) then Some (value key) else None.
Proof.
  induction keys as [|k keys IH]; [reflexivity|].
  cbn [map lookup_literal]. case_bool_decide as Hk.
  - subst k. rewrite decide_True by left. reflexivity.
  - rewrite IH. case_decide as Hin; case_decide as Hin'; try reflexivity.
    + exfalso. apply Hin'. by right.
    + exfalso. apply elem_of_cons in Hin' as [->|?]; done.
Qed.

Lemma push_name_map (value : string -> list string) keys dirName name :
  NoDup keys -> dirName ∈ keys ->
  push_name dirName name (map (fun d => (d, value d)) keys)
  = map (fun d => (d, value d ++ (if decide (dirName = d) then [name] else []))) keys.
Proof.
  induction keys as [|k keys IH]; intros Hdup Hin; [by apply elem_of_nil in Hin|].
  apply NoDup_cons in Hdup as [Hk Hdup]. cbn [map push_name].
  case_bool_decide as Hkd.
  - subst k. rewrite decide_True by done. f_equal.
    apply map_ext_in. intros d Hd%list_elem_of_In.
    rewrite decide_False; [by rewrite app_nil_r|]. intros ->. done.
  - rewrite decide_False by done. rewrite app_nil_r. f_equal.
    apply IH; [done|]. apply elem_of_cons in Hin as [->|?]; done.
Qed.

Lemma grouped_snoc_seen done f :
  fi_directory f ∈ map fi_directory done ->
  push_name (fi_directory f) (fi_name f) (grouped done) = grouped (done ++ [f]).
Proof.
  intros Hin. unfold grouped.
  rewrite push_name_map by (apply NoDup_first_seen || by apply elem_of_first_seen).
  rewrite map_app. cbn [map]. rewrite first_seen_snoc, decide_True by done.
  apply map_ext. intros d. rewrite names_in_snoc. reflexivity.
Qed.

Lemma grouped_snoc_new done f :
  fi_directory f ∉ map fi_directory done ->
  grouped done ++ [(fi_directory f, [fi_name f])] = grouped (done ++ [f]).
Proof.
  intros Hin. unfold grouped.
  rewrite (map_app fi_directory). cbn [map].
  rewrite first_seen_snoc, decide_False by done.
  rewrite map_app. cbn [map]. f_equal.
  - apply map_ext_in. intros d Hd%list_elem_of_In.
    rewrite names_in_snoc, decide_False; [by rewrite app_nil_r|].
    intros Heq. apply Hin. rewrite Heq. by apply elem_of_first_seen.
  - rewrite names_in_snoc, decide_True by done.
    by rewrite names_in_absent.
Qed.

(** The loop, from any point on: it throws at the first file of a
    shadowed directory, and groups the files otherwise. *)
Lemma group_grouped rest :
  forall done,
    Forall (fun f => ~ shadowed f) done ->
    group rest (grouped done)
    = if decide (Exists shadowed rest)
      then Throw "dirs[dirName].push is not a function"
      else Return (grouped (done ++ rest)).
Proof.
  induction rest as [|f rest IH]; intros done Hdone.
  - rewrite decide_False by (by intros ?%Exists_nil). by rewrite app_nil_r.
  - assert (Hnext : ~ shadowed f ->
              group rest (grouped (done ++ [f]))
              = if decide (Exists shadowed (f :: rest))
                then Throw "dirs[dirName].push is not a function"
                else Return (grouped (done ++ f :: rest))).
    { intros Hf. rewrite IH by (apply Forall_app; split; [done|by constructor]).
      rewrite <- app_assoc. cbn [app].
      case_decide as Hex; case_decide as Hex'; try reflexivity.
      - exfalso. apply Hex'. by right.
      - exfalso. apply Exists_cons in Hex' as [?|?]; done. }
    cbn [group]. unfold grouped at 1. rewrite lookup_literal_map. fold (grouped done).
    destruct (decide (fi_directory f ∈ first_seen (map fi_directory done)))
      as [Hseen|Hseen].
    + pose proof (proj1 (elem_of_first_seen _ _) Hseen) as Hin.
      rewrite grouped_snoc_seen by done. apply Hnext.
      apply list_elem_of_fmap in Hin as (g & Hg & Hgin).
      rewrite Forall_forall in Hdone. unfold shadowed. rewrite Hg. by apply Hdone.
    + unfold includes. case_bool_decide as Hproto.
      * rewrite decide_True; [reflexivity|]. by left.
      * rewrite grouped_snoc_new by (by rewrite elem_of_first_seen in Hseen).
        by apply Hnext.
Qed.

End VisualFacts.

(** X19. The picture of the file structure cannot be drawn when a file
    lies in a directory whose path is the name of a property of
    [Object.prototype], such as [constructor] or [toString]: the
    grouping then throws a [TypeError]; and only then. *)
Theorem _generateFileStructureVisual_throws_on_prototype_names (files : list FileInfo) :
  (Exists shadowed files
   -> Visual._generateFileStructureVisual (Some files)
      = Throw "dirs[dirName].push is not a function")
  /\ (~ Exists shadowed files
      -> exists text, Visual._generateFileStructureVisual (Some files) = Return text).
Proof.
  unfold Visual._generateFileStructureVisual.
  change (@nil (string * list string)) with (grouped []).
  rewrite VisualFacts.group_grouped by constructor.
  split; intros Hex.
  - by rewrite decide_True.
  - rewrite decide_False by done. by eexists.
Qed.


(** ** Saving and uploading the tutorial *)

Module SaveFacts.
Import JsString Path ResponseTextFacts StringFacts.
Local Open Scope list_scope.

(** A name made of a string without a slash and a suffix of several
    characters without a slash is a plain name. *)
Lemma plain_with_suffix name suffix :
  slash ∉ chars name -> slash ∉ chars suffix -> 2 < length (chars suffix) ->
  plain_name (name ++ suffix)%string = true.
Proof.
  intros Hname Hsuffix Hlen. unfold plain_name. apply bool_decide_eq_true_2.
  assert (Hl : 2 < length (chars (name ++ suffix)%string))
    by (rewrite chars_app, length_app; lia).
  split_and!; try (intros Heq; rewrite Heq in Hl; cbn in Hl; lia).
  rewrite chars_app. intros [?|?]%elem_of_app; done.
Qed.

Lemma basename_below pre name :
  plain_name name = true -> basename (pre ++ "/" ++ name)%string = name.
Proof.
  intros (Hne & _ & _ & Hfree)%JoinFacts.plain_name_spec.
  unfold basename, last_component_rev. rewrite !chars_app, !rev_app_distr.
  change (rev (chars "/")) with [slash]. rewrite <- app_assoc. cbn [app].
  assert (Hrev : slash ∉ rev (chars name)) by (by rewrite elem_of_rev).
  destruct (rev (chars name)) as [|c l] eqn:Hr.
  { exfalso. apply Hne, chars_nil. rewrite <- (rev_involutive (chars name)), Hr. done. }
  assert (Hskip : skip_slashes ((c :: l) ++ slash :: rev (chars pre))
                  = (c :: l) ++ slash :: rev (chars pre)).
  { cbn [app skip_slashes]. apply not_elem_of_cons in Hrev as [Hc _].
    unfold is_slash. by rewrite bool_decide_eq_false_2. }
  rewrite Hskip.
  assert (Hupto : forall run rest, slash ∉ run -> upto_slash (run ++ slash :: rest) = run).
  { intros run rest. induction run as [|x run IH]; intros Hrun.
    - cbn. unfold is_slash. by rewrite bool_decide_eq_true_2.
    - apply not_elem_of_cons in Hrun as [Hx Hrun]. cbn [app upto_slash].
      unfold is_slash. rewrite bool_decide_eq_false_2 by done. by rewrite IH. }
  rewrite Hupto by done. rewrite <- Hr, rev_involutive. apply of_chars_chars.
Qed.

(** [path.join] of an absolute directory of plain names and a plain
    name. *)
Lemma join_below dirnames name :
  Forall (fun s => plain_name s = true) dirnames -> dirnames <> [] ->
  plain_name name = true ->
  join ("/" ++ join_with_slash dirnames) name
  = (("/" ++ join_with_slash dirnames) ++ "/" ++ name)%string.
Proof.
  intros Hdir Hne Hname.
  pose proof (JoinFacts.join_absolute dirnames [name] Hdir Hne) as Hjoin.
  cbn [join_with_slash fold_left] in Hjoin. rewrite Hjoin by (by constructor || done).
  by rewrite JoinFacts.join_with_slash_snoc, JoinFacts.string_app_assoc.
Qed.

Lemma fold_left_pointwise {A B} (f g : A -> B -> A) l :
  (forall a b, f a b = g a b) -> forall a, fold_left f l a = fold_left g l a.
Proof.
  intros Hfg. induction l as [|b l IH]; intros a; [reflexivity|].
  cbn [fold_left]. by rewrite Hfg, IH.
Qed.

End SaveFacts.

Section SaveAndUpload.
Context {Data Disk : Type}.
Context (ensureDir : string -> Disk -> completion unit * Disk)
        (writeFile : string -> string -> Disk -> completion unit * Disk)
        (JSON_stringify : Data -> string).
Context (mime_lookup : string -> option string)
        (today : string)
        (pathExists : string -> bool)
        (readFile : string -> completion string)
        (send : S3Uploader.PutObjectCommand -> completion unit).
Context (this : S3Uploader.S3Uploader).

Local Abbreviation save := (TutorialGenerator.saveTutorialFiles ensureDir writeFile JSON_stringify).
Local Abbreviation command_for := (S3Uploader.command_for mime_lookup this).
Local Abbreviation upload_each :=
  (S3Uploader.upload_each mime_lookup pathExists readFile send this).
Local Abbreviation uploadTutorialFiles :=
  (S3Uploader.uploadTutorialFiles mime_lookup today pathExists readFile send this).

(** X21. The two files of a tutorial are written directly in the output
    directory, under the name of the repository followed by
    [_tutorial.md] and [_data.json], when that name holds no slash, as
    the names [extractRepoInfo] returns; the uploader then stores them
    under the repository and the day, with these names, and types them
    as Markdown and JSON when [mime.lookup] has no answer. A failure is
    reported with the prefix of [saveTutorialFiles]. *)
Theorem saved_files_keep_their_names
    (tutorialContent : TutorialGenerator.TutorialContent Data)
    (dirnames : list string) (repoName : string) (d : Disk) :
  let outputDir := "/" ++ Path.join_with_slash dirnames in
  Forall (fun s => plain_name s = true) dirnames -> dirnames <> [] ->
  Path.slash ∉ JsString.chars repoName ->
  match fst (save tutorialContent outputDir repoName d) with
  | Throw message => exists e, message = "Failed to save tutorial files: " ++ e
  | Return filePaths =>
      filePaths
      = {| TutorialGenerator.fp_markdown := outputDir ++ "/" ++ repoName ++ "_tutorial.md";
           TutorialGenerator.fp_json := outputDir ++ "/" ++ repoName ++ "_data.json" |}
      /\ forall baseKey content,
           S3Uploader.Key
             (command_for baseKey (TutorialGenerator.fp_markdown filePaths) content)
           = baseKey ++ "/" ++ repoName ++ "_tutorial.md"
           /\ S3Uploader.Key
                (command_for baseKey (TutorialGenerator.fp_json filePaths) content)
              = baseKey ++ "/" ++ repoName ++ "_data.json"
           /\ (mime_lookup (repoName ++ "_tutorial.md") = None ->
               S3Uploader.ContentType
                 (command_for baseKey (TutorialGenerator.fp_markdown filePaths) content)
               = "text/markdown")
           /\ (mime_lookup (repoName ++ "_data.json") = None ->
               S3Uploader.ContentType
                 (command_for baseKey (TutorialGenerator.fp_json filePaths) content)
               = "application/json")
  end.
Proof.
  intros outputDir Hdir Hne Hrepo.
  assert (Hmd : plain_name (repoName ++ "_tutorial.md") = true).
  { apply SaveFacts.plain_with_suffix; [done|by apply (bool_decide_unpack _)|cbn; lia]. }
  assert (Hjs : plain_name (repoName ++ "_data.json") = true).
  { apply SaveFacts.plain_with_suffix; [done|by apply (bool_decide_unpack _)|cbn; lia]. }
  unfold TutorialGenerator.saveTutorialFiles.
  destruct (ensureDir outputDir d) as [[[]|e] d1]; [|by eexists].
  destruct (writeFile _ _ d1) as [[[]|e] d2]; [|by eexists].
  destruct (writeFile _ _ d2) as [[[]|e] d3]; [|by eexists].
  cbn [fst]. unfold outputDir.
  rewrite !SaveFacts.join_below by done.
  split; [reflexivity|]. intros baseKey content.
  unfold S3Uploader.command_for.
  cbn [S3Uploader.Key S3Uploader.ContentType TutorialGenerator.fp_markdown
         TutorialGenerator.fp_json].
  rewrite !SaveFacts.basename_below by done.
  split_and!; try reflexivity.
  - intros Hmime. unfold S3Uploader._getContentType. rewrite Hmime. cbn [truthy].
    change (repoName ++ "_tutorial.md") with (repoName ++ "_tutorial" ++ ".md").
    by rewrite <- JoinFacts.string_app_assoc, StringFacts.endsWith_app.
  - intros Hmime. unfold S3Uploader._getContentType. rewrite Hmime. cbn [truthy].
    assert (Hjson : JsString.endsWith (repoName ++ "_data.json") ".json" = true).
    { change (repoName ++ "_data.json") with (repoName ++ "_data" ++ ".json").
      by rewrite <- JoinFacts.string_app_assoc, StringFacts.endsWith_app. }
    rewrite Hjson.
    destruct (JsString.endsWith (repoName ++ "_data.json") ".md") eqn:Hend; [|done].
    exfalso. apply StringFacts.endsWith_true in Hend.
    apply (f_equal (fun s => rev (JsString.chars s))) in Hend.
    rewrite !StringFacts.chars_app, !rev_app_distr in Hend. cbn in Hend. discriminate.
Qed.

Lemma upload_each_all (baseKey : string) (content : string -> string) entries :
  (forall e, e ∈ present pathExists entries ->
     readFile (snd e) = Return (content (snd e))
     /\ send (command_for baseKey (snd e) (content (snd e))) = Return tt) ->
  forall uploadedUrls sent,
    upload_each baseKey entries uploadedUrls sent
    = (Return
         (fold_left
            (fun urls e =>
               set_property (fst e)
                 (S3Uploader._getPublicUrl this
                    (baseKey ++ "/" ++ Path.basename (snd e))) urls)
            (present pathExists entries) uploadedUrls),
       (sent ++ map (fun e => command_for baseKey (snd e) (content (snd e)))
                    (present pathExists entries))%list).
Proof.
  induction entries as [|[fileType localPath] rest IH]; intros Hall uploadedUrls sent.
  - cbn. by rewrite app_nil_r.
  - cbn [S3Uploader.upload_each]. unfold present in *. cbn [List.filter snd] in *.
    destruct (pathExists localPath); cbn [negb].
    + destruct (Hall (fileType, localPath)) as [Hread Hsend]; [left|].
      cbn [snd] in Hread, Hsend. rewrite Hread, Hsend.
      rewrite IH by (intros e He; apply Hall; by right).
      cbn [fold_left map fst snd]. by rewrite <- app_assoc.
    + by apply IH.
Qed.

(** X22. When every file that exists is read and sent, the uploader
    sends one command for each of them, in the order of the entries,
    and returns their URLs under the bucket, the region, the repository
    and the day; an entry whose file is missing is passed over without
    an error and gets no URL of its own. *)
Theorem uploadTutorialFiles_skips_missing_files
    (content : string -> string) (entries : list (string * string)) (repoName : string) :
  let baseKey := repoName ++ "/" ++ today in
  (forall e, e ∈ present pathExists entries ->
     readFile (snd e) = Return (content (snd e))
     /\ send (command_for baseKey (snd e) (content (snd e))) = Return tt) ->
  uploadTutorialFiles entries repoName
  = (Return
       (fold_left
          (fun urls e =>
             set_property (fst e)
               ("https://" ++ S3Uploader.bucketName this ++ ".s3."
                  ++ S3Uploader.region this ++ ".amazonaws.com/"
                  ++ repoName ++ "/" ++ today ++ "/" ++ Path.basename (snd e)) urls)
          (present pathExists entries) ∅),
     map (fun e => command_for baseKey (snd e) (content (snd e)))
         (present pathExists entries)).
Proof.
  intros baseKey Hall. unfold S3Uploader.uploadTutorialFiles. fold baseKey.
  rewrite (upload_each_all baseKey content entries Hall). cbn [app]. do 2 f_equal.
  apply SaveFacts.fold_left_pointwise. intros urls e. unfold S3Uploader._getPublicUrl, baseKey.
  by rewrite !JoinFacts.string_app_assoc.
Qed.

(** X23. A command that [s3Client.send] rejects ends the upload with
    the wrapped error: the commands sent for the entries before it
    stay sent, and nothing is read or sent for the entries after it. *)
Theorem uploadTutorialFiles_stops_at_failed_send
    (content : string -> string) (before after : list (string * string))
    (fileType localPath repoName e : string) :
  let baseKey := repoName ++ "/" ++ today in
  (forall x, x ∈ present pathExists before ->
     readFile (snd x) = Return (content (snd x))
     /\ send (command_for baseKey (snd x) (content (snd x))) = Return tt) ->
  pathExists localPath = true ->
  readFile localPath = Return (content localPath) ->
  send (command_for baseKey localPath (content localPath)) = Throw e ->
  uploadTutorialFiles (before ++ (fileType, localPath) :: after)%list repoName
  = (Throw ("Failed to upload files to S3: " ++ e),
     (map (fun x => command_for baseKey (snd x) (content (snd x)))
          (present pathExists before)
      ++ [command_for baseKey localPath (content localPath)])%list).
Proof.
  intros baseKey Hbefore Hexists Hread Hsend.
  unfold S3Uploader.uploadTutorialFiles. fold baseKey.
  assert (Hrun : forall uploadedUrls sent,
             exists urls,
               upload_each baseKey (before ++ (fileType, localPath) :: after)%list
                 uploadedUrls sent
               = upload_each baseKey ((fileType, localPath) :: after) urls
                   (sent ++ map (fun x => command_for baseKey (snd x) (content (snd x)))
                                (present pathExists before))%list).
  { clear Hexists Hread Hsend. induction before as [|[t p] before IH];
      intros uploadedUrls sent.
    - exists uploadedUrls. cbn. by rewrite app_nil_r.
    - cbn [app S3Uploader.upload_each]. unfold present in *. cbn [List.filter snd] in *.
      destruct (pathExists p); cbn [negb].
      + destruct (Hbefore (t, p)) as [Hread Hsend]; [left|].
        cbn [snd] in Hread, Hsend. rewrite Hread, Hsend.
        destruct (IH (fun x Hx => Hbefore x ltac:(by right))
                    (set_property t
                       (S3Uploader._getPublicUrl this
                          (S3Uploader.Key (command_for baseKey p (content p))))
                       uploadedUrls)
                    (sent ++ [command_for baseKey p (content p)])%list) as [urls ->].
        exists urls. cbn [map snd]. by rewrite <- app_assoc.
      + apply IH. intros x Hx. by apply Hbefore. }
  destruct (Hrun ∅ []) as [urls ->].
  cbn [S3Uploader.upload_each app]. rewrite Hexists. cbn [negb].
  by rewrite Hread, Hsend.
Qed.

End SaveAndUpload.

(** ** What [_parseJsonResponse] gives back *)

Module JsonObjectFacts.
Import Json.
Local Open Scope list_scope.

Lemma parse_members_object fuel :
  forall l acc v rest,
    parse_members fuel l acc = POk v rest -> exists members, v = JObject members.
Proof.
  induction fuel as [|fuel IH]; intros l acc v rest; [discriminate|].
  cbn [parse_members].
  destruct (skip_ws l) as [|c r]; [discriminate|].
  case_bool_decide; [|discriminate].
  destruct (string_body r []) as [[key r1]|]; [|discriminate].
  destruct (skip_ws r1) as [|c1 r2]; [discriminate|].
  destruct (is_char c1 ":"); [|discriminate].
  destruct (parse_value fuel r2) as [v' r3| |]; try discriminate.
  destruct (skip_ws r3) as [|c3 r4]; [discriminate|].
  destruct (is_char c3 ","); [apply IH|].
  destruct (is_char c3 "}"); [|discriminate].
  intros [= <- _]. by eexists.
Qed.

Lemma parse_value_object fuel r v rest :
  parse_value fuel (ResponseText.lbrace :: r) = POk v rest ->
  exists members, v = JObject members.
Proof.
  destruct fuel as [|fuel]; [discriminate|]. cbn [parse_value].
  change (skip_ws (ResponseText.lbrace :: r)) with (ResponseText.lbrace :: r).
  change (is_char ResponseText.lbrace "{") with true. cbv iota.
  destruct (skip_ws r) as [|c2 r2]; [discriminate|].
  destruct (is_char c2 "}"); [intros [= <- _]; by eexists|].
  apply parse_members_object.
Qed.

Lemma JSON_parse_object text r v :
  JsString.chars text = ResponseText.lbrace :: r ->
  JSON_parse text = Return v -> exists members, v = JObject members.
Proof.
  intros Htext. unfold JSON_parse. rewrite Htext.
  destruct (parse_value _ _) as [v' rest| |] eqn:Hp; try discriminate.
  destruct (skip_ws rest); [|discriminate]. intros [= <-].
  by apply parse_value_object in Hp.
Qed.

End JsonObjectFacts.

(** X24. With [JSON.parse] as the parser, [_parseJsonResponse] always
    returns an object, never an array, a string, a number or [null]:
    the parsed text starts with an opening brace, and the two fallbacks
    are objects; so the properties that the callers read on the result
    are read on an object. *)
Theorem _parseJsonResponse_returns_an_object (response : string) :
  exists members,
    _parseJsonResponse Json.JSON_parse response = Return (JObject members).
Proof.
  unfold _parseJsonResponse.
  destruct (ResponseText.regex_match response) as [jsonMatch|] eqn:Hm;
    [|by eexists].
  apply ResponseTextFacts.regex_match_Some in Hm as (pre & mid & post & _ & _ & _ & ->).
  destruct (Json.JSON_parse _) as [v|e] eqn:Hp; [|by eexists].
  apply (JsonObjectFacts.JSON_parse_object _ (mid ++ [ResponseText.rbrace])%list) in Hp
    as [members ->]; [by eexists|].
  by rewrite ResponseTextFacts.chars_of_chars.
Qed.

(** * The further properties at concrete inputs *)

Lemma extractRepoInfo_canonical_witness :
  extractRepoInfo "https://github.com/octo/hello.git" = Return ("octo", "hello").
Proof.
  apply (extractRepoInfo_canonical "https://" "octo" "hello.git" "");
    try discriminate; try (by apply (bool_decide_unpack _)).
  by left.
Defined.

Lemma _getFileImportance_by_lowered_name_witness :
  _getFileImportance "docs/README.md" = _getFileImportance "src/lib/ReadMe.MD".
Proof.
  apply (_getFileImportance_by_lowered_name "docs/README.md" "src/lib/ReadMe.MD").
  vm_compute. reflexivity.
Defined.

Lemma rankPaths_keeps_the_best_witness :
  "README.md" ∈ rankPaths ["a.css"; "README.md"].
Proof.
  apply (rankPaths_keeps_the_best ["a.css"; "README.md"] "README.md").
  - by apply (bool_decide_unpack _).
  - vm_compute. lia.
Defined.

Lemma rankPaths_never_prefers_lower_witness :
  "README.md" ∈ rankPaths ["a.css"; "README.md"].
Proof.
  apply (rankPaths_never_prefers_lower ["a.css"; "README.md"] "a.css" "README.md").
  - by apply (bool_decide_unpack _).
  - by apply (bool_decide_unpack _).
  - vm_compute. reflexivity.
Defined.

Lemma binary_file_scores_10_without_language_witness :
  _getFileImportance "assets/Logo.PNG" = 10%Z
  /\ _getLanguageFromExtension (JsString.toLowerCase (Path.extname "assets/Logo.PNG"))
     = None.
Proof.
  apply (binary_file_scores_10_without_language "assets/Logo.PNG").
  vm_compute. reflexivity.
Defined.

Lemma getFileStructure_counts_languages_of_all_files_witness :
  exists r,
    getFileStructure Large.disk0 Scenario.this = Return r
    /\ tr_languages r !! "JavaScript" = Some 150.
Proof.
  destruct (getFileStructure_counts_languages_of_all_files
              Large.disk0 Scenario.this Scenario.tmpDir eq_refl)
    as (r & Hr & Hcount & _).
  exists r. split; [exact Hr|]. rewrite Hcount. vm_compute. reflexivity.
Defined.

Lemma unlistable_root_gives_empty_structure_witness :
  getFileStructure (Dir []) Scenario.this
  = Return {| total_files := 0; tr_languages := ∅; tr_files := [] |}
  /\ getMainFiles (Dir []) Scenario.this = Return [].
Proof.
  apply (unlistable_root_gives_empty_structure (Dir []) Scenario.this Scenario.tmpDir
           eq_refl).
  intros items Heq. vm_compute in Heq. discriminate.
Defined.

Lemma calm_clone_lists_matched_files_witness :
  getMainFiles Scenario.disk0 Scenario.this
  = Return
      (rankPaths
         (map fi_path
            (matched (ignores (_loadGitignore (tree_ops Scenario.disk0) Scenario.this))
                     (node_at Scenario.disk0 Scenario.tmpDir) ""))).
Proof.
  apply (calm_clone_lists_matched_files Scenario.disk0 Scenario.this Scenario.tmpDir
           eq_refl).
  vm_compute. tauto.
Defined.

Lemma ignored_entry_hides_its_subtree_witness :
  _walkDirectory (@ignores IgnorePackage.package IgnorePackage.defaults)
    (Dir [("index.js", File 500 (Return "x")); ("node_modules", Scenario.foo)]) ""
    (fresh ∅)
  = _walkDirectory (@ignores IgnorePackage.package IgnorePackage.defaults)
      (Dir [("index.js", File 500 (Return "x"))]) "" (fresh ∅).
Proof.
  apply (ignored_entry_hides_its_subtree (@ignores IgnorePackage.package IgnorePackage.defaults) ""
           "node_modules" Scenario.foo [("index.js", File 500 (Return "x"))] []
           (fresh ∅)).
  vm_compute. reflexivity.
Defined.

Lemma recorded_path_is_directory_slash_name_witness :
  fi_path Inputs.foo_js = below (fi_directory Inputs.foo_js) (fi_name Inputs.foo_js).
Proof.
  apply (recorded_path_is_directory_slash_name Dangling.ig Scenario.repo0 ∅ Inputs.foo_js).
  - vm_compute. reflexivity.
  - vm_compute. repeat constructor.
Defined.

Lemma main_files_are_found_by_readFileContent_witness :
  exists bytes text,
    node_at Scenario.disk0 (Path.join Scenario.tmpDir "index.js") = File bytes text
    /\ readFileContent (tree_ops Scenario.disk0) Scenario.this "index.js" 50000
       = Return (if (50000 <? bytes)%N then None
                 else if _isBinaryFile "index.js" then None
                 else match text with
                      | Return content => Some content
                      | Throw _ => None
                      end).
Proof.
  apply (main_files_are_found_by_readFileContent Scenario.disk0 Scenario.this
           ["tmp"; "tmp-4242"] ["README.md"; "index.js"; "image.png"] "index.js" 50000).
  - reflexivity.
  - discriminate.
  - repeat constructor.
  - vm_compute. reflexivity.
  - vm_compute. reflexivity.
  - by apply (bool_decide_unpack _).
Defined.

Lemma handler_without_bucket_fails_before_clone_witness :
  trace (snd (handler Run.co Inputs.event Run.start)) = [].
Proof.
  apply (handler_without_bucket_fails_before_clone Run.co Inputs.event Inputs.request
           Run.start); reflexivity.
Defined.


Lemma saved_files_keep_their_names_witness :
  fst (TutorialGenerator.saveTutorialFiles
         (fun _ d => (Return tt, d)) (fun _ _ d => (Return tt, d)) (fun _ : unit => "{}")
         (TutorialGenerator.mkTutorialContent "# hello" tt) "/tmp" "hello" tt)
  = Return Inputs.saved
  /\ S3Uploader.Key
       (S3Uploader.command_for (fun _ => None) Inputs.uploader "hello/2026-01-01"
          "/tmp/hello_tutorial.md" "# hello")
     = "hello/2026-01-01/hello_tutorial.md".
Proof.
  pose proof (saved_files_keep_their_names
                (fun _ d => (Return tt, d)) (fun _ _ d => (Return tt, d))
                (fun _ : unit => "{}") (fun _ => None) Inputs.uploader
                (TutorialGenerator.mkTutorialContent "# hello" tt) ["tmp"] "hello" tt
                ltac:(repeat constructor) ltac:(discriminate)
                ltac:(by apply (bool_decide_unpack _))) as Hsaved.
  cbn in Hsaved. destruct Hsaved as [Hpaths Hkeys].
  split; [exact (f_equal Return Hpaths)|].
  apply (Hkeys "hello/2026-01-01" "# hello").
Defined.

Lemma uploadTutorialFiles_skips_missing_files_witness :
  exists urls sent,
    S3Uploader.uploadTutorialFiles (fun _ => None) "2026-01-01" Inputs.only_markdown
      (fun _ => Return "# hello") (fun _ => Return tt) Inputs.uploader
      (entries_of Inputs.saved) "hello"
    = (Return urls, sent)
    /\ urls !! "markdown"
       = Some "https://bucket.s3.us-west-2.amazonaws.com/hello/2026-01-01/hello_tutorial.md"
    /\ urls !! "json" = None
    /\ length sent = 1.
Proof.
  eexists _, _. split.
  - apply (uploadTutorialFiles_skips_missing_files (fun _ => None) "2026-01-01"
             Inputs.only_markdown (fun _ => Return "# hello") (fun _ => Return tt)
             Inputs.uploader (fun _ => "# hello") (entries_of Inputs.saved) "hello").
    intros e _. by split.
  - split_and!; vm_compute; reflexivity.
Defined.

Lemma uploadTutorialFiles_stops_at_failed_send_witness :
  fst (S3Uploader.uploadTutorialFiles (fun _ => None) "2026-01-01" (fun _ => true)
         (fun _ => Return "# hello") (fun _ => Throw "AccessDenied") Inputs.uploader
         (entries_of Inputs.saved) "hello")
  = Throw "Failed to upload files to S3: AccessDenied".
Proof.
  exact (f_equal fst
           (uploadTutorialFiles_stops_at_failed_send (fun _ => None) "2026-01-01"
              (fun _ => true) (fun _ => Return "# hello")
              (fun _ => Throw "AccessDenied") Inputs.uploader (fun _ => "# hello") []
              [("json", "/tmp/hello_data.json")] "markdown" "/tmp/hello_tutorial.md"
              "hello" "AccessDenied"
              ltac:(intros x Hx; by apply elem_of_nil in Hx)
              eq_refl eq_refl eq_refl)).
Defined.

Lemma fileContents_holds_every_loaded_text_witness :
  exists fileContents,
    read_contents ["empty.txt"; "a.txt"] ∅ EmptyFile.world
    = (Return fileContents, EmptyFile.world)
    /\ fileContents !! "a.txt" = Some "abc".
Proof.
  destruct (fileContents_holds_every_loaded_text ["empty.txt"; "a.txt"] EmptyFile.world
              Scenario.tmpDir eq_refl) as (fileContents & Hrun & Hkeys & _).
  exists fileContents. split; [exact Hrun|].
  apply Hkeys. split_and!.
  - by apply (bool_decide_unpack _).
  - discriminate.
  - discriminate.
  - vm_compute. reflexivity.
Defined.

Lemma handler_reads_at_most_twenty_files_witness :
  exists mainFiles,
    callGetMainFiles EmptyFile.world = (Return mainFiles, EmptyFile.world)
    /\ take 50 mainFiles = mainFiles.
Proof.
  destruct (handler_reads_at_most_twenty_files EmptyFile.world Scenario.tmpDir eq_refl)
    as (mainFiles & fileContents & Hmain & _ & Htake & _).
  by exists mainFiles.
Defined.
